(** * Binary images of spsdk: [spsdk/utils/images.py]

    A verification development for the image tree of [BinaryImage] and the
    fill patterns of [BinaryPattern].

    Python objects are mutable and referred to by reference, so images live
    in a store ([heap]) that maps references to objects; [parent] and
    [sub_images] hold references.  Exceptions are the [Raise] outcomes of an
    error monad.  Python integers are [Z], byte strings are [list byte]. *)

From Stdlib Require Import ZArith List Lia Bool.
From Stdlib.Strings Require Import String Byte.
From stdpp Require Import base tactics option list functions strings.
From stdpp Require Import sorting pretty.

Local Open Scope Z_scope.

(** ** Python values and exceptions *)

Module Py.

Abbreviation bytes := (list byte).

(** The node an error message names; the text itself is not modelled. *)
Inductive reason :=
| UnsupportedPattern
| NegativeOffset (image : nat)
| NonPositiveSize (image : nat)
| DoesNotFit (image parent : nat)
| Overlap (image sibling : nat).

(** [ValueError], [ZeroDivisionError] and [RecursionError] are the
    interpreter's own; the [SPSDK] ones are raised by the library. *)
Inductive exn :=
| SPSDKError
| SPSDKValueError (why : reason)
| SPSDKOverlapError (why : reason)
| ValueError
| ZeroDivisionError
| RecursionError.

Inductive outcome (A : Type) :=
| Ok (a : A)
| Raise (e : exn).
Arguments Ok {A} a.
Arguments Raise {A} e.

#[global] Instance outcome_ret : MRet outcome := fun A a => Ok a.
#[global] Instance outcome_bind : MBind outcome :=
  fun A B f m => match m with Ok a => f a | Raise e => Raise e end.

(** [for x in l: body x] where the body may raise. *)
Fixpoint for_each {A} (body : A -> outcome unit) (l : list A) : outcome unit :=
  match l with
  | [] => Ok tt
  | x :: l' => body x ≫= fun _ => for_each body l'
  end.

(** A loop that threads an accumulator through its iterations. *)
Fixpoint for_fold {A S} (body : S -> A -> outcome S) (l : list A) (s : S)
  : outcome S :=
  match l with
  | [] => Ok s
  | x :: l' => body s x ≫= for_fold body l'
  end.

(** [len(b)] of a byte string. *)
Definition blen (b : bytes) : Z := Z.of_nat (length b).

(** [len(obj)] on an object with a [__len__]: a negative result is a
    [ValueError].  A result above [sys.maxsize], which [len()] and the truth
    value of the object refuse with [OverflowError], is outside the model:
    lengths are taken to fit a machine index, and the statements that list
    exceptions carry that bound ([index_sized]). *)
Definition len_result (n : Z) : outcome Z :=
  if n <? 0 then Raise ValueError else Ok n.

(** How a slice bound [i] is read against a sequence of length [n]. *)
Definition slice_index (n i : Z) : Z :=
  if i <? 0 then Z.max (i + n) 0 else Z.min i n.

(** [b[:stop]] *)
Definition getslice_to (b : bytes) (stop : Z) : bytes :=
  take (Z.to_nat (slice_index (blen b) stop)) b.

(** [b[start:stop] = data] on a bytearray: the slice is replaced, and the
    array grows or shrinks when [data] has another length. *)
Definition setslice (b : bytes) (start stop : Z) (data : bytes) : bytes :=
  let a := slice_index (blen b) start in
  let z := Z.max a (slice_index (blen b) stop) in
  take (Z.to_nat a) b ++ data ++ drop (Z.to_nat z) b.

(** [b * k]: no copies when [k <= 0]. *)
Definition repeat_bytes (b : bytes) (k : Z) : bytes :=
  mjoin (replicate (Z.to_nat k) b).

(** [bytes(n)]: [n] zero bytes, [ValueError] for a negative count. *)
Definition zero_bytes (n : Z) : outcome bytes :=
  if n <? 0 then Raise ValueError else Ok (replicate (Z.to_nat n) x00).

(** The byte with value [x], for [0 <= x < 256]. *)
Definition byte_of_Z (x : Z) : byte :=
  default x00 (Byte.of_N (Z.to_N x)).

(** [min(l)]: [ValueError] on an empty sequence. *)
Definition min_list (l : list Z) : outcome Z :=
  match l with
  | [] => Raise ValueError
  | x :: l' => Ok (foldl Z.min x l')
  end.

End Py.
Import Py.

(** ** BinaryPattern *)

Record BinaryPattern := { _pattern : string }.

Definition SPECIAL_PATTERNS : list string :=
  ["rand"; "zeros"; "ones"; "inc"]%string.

Section Pattern.

(** [spsdk.utils.misc.value_to_int] and [value_to_bytes], and the random
    source of [spsdk.utils.crypto], are outside this module.  [None] from
    [value_to_int] stands for its [SPSDKError]. *)
Variable value_to_int : string -> option Z.
Variable value_to_bytes : string -> outcome bytes.
Variable random_bytes : Z -> bytes.

(** [BinaryPattern.__init__] *)
Definition BinaryPattern_init (pattern : string) : outcome BinaryPattern :=
  match value_to_int pattern with
  | Some _ => Ok {| _pattern := pattern |}
  | None =>
      if bool_decide (pattern ∈ SPECIAL_PATTERNS)
      then Ok {| _pattern := pattern |}
      else Raise (SPSDKValueError UnsupportedPattern)
  end.

(** [BinaryPattern.get_block].  [int(size / len(pattern))] is the quotient
    truncated towards zero: the float division is exact enough for that as
    long as [size] is below [2^53].  The random source is asked for counts
    that are not negative only: a negative count it refuses with
    [ValueError], as [os.urandom] does.  Sizes that do not fit a machine
    index, below [-2^63] or above [2^63 - 1], where [bytes()] and the
    repetition of a sequence raise [OverflowError], are outside the model;
    the statements about negative sizes carry that range. *)
Definition get_block (self : BinaryPattern) (size : Z) : outcome bytes :=
  if String.eqb (_pattern self) "zeros" then zero_bytes size
  else if String.eqb (_pattern self) "ones" then
    Ok (repeat_bytes [xff] size)
  else if String.eqb (_pattern self) "rand" then
    if size <? 0 then Raise ValueError else Ok (random_bytes size)
  else if String.eqb (_pattern self) "inc" then
    Ok ((fun x => byte_of_Z (Z.land x 255)) <$> seqZ 0 size)
  else
    pattern ← value_to_bytes (_pattern self);
    if blen pattern =? 0 then Raise ZeroDivisionError
    else
      let block := repeat_bytes pattern (Z.quot size (blen pattern)) in
      Ok (getslice_to block size).

End Pattern.

(** ** BinaryImage *)

(** A reference to an image object. *)
Definition ref := nat.

Record BinaryImage := {
  name : string;
  description : option string;
  offset : Z;
  _size : Z;
  binary : option bytes;
  pattern : option BinaryPattern;
  parent : option ref;
  sub_images : list ref;
}.

(** The store: every reference denotes an object. *)
Abbreviation heap := (ref -> BinaryImage).

(** Attribute assignments [obj.offset = v], [obj.parent = p] and the
    update of [obj.sub_images]. *)
Definition with_offset (v : Z) (o : BinaryImage) : BinaryImage :=
  {| name := name o; description := description o; offset := v;
     _size := _size o; binary := binary o; pattern := pattern o;
     parent := parent o; sub_images := sub_images o |}.

Definition with_parent (p : option ref) (o : BinaryImage) : BinaryImage :=
  {| name := name o; description := description o; offset := offset o;
     _size := _size o; binary := binary o; pattern := pattern o;
     parent := p; sub_images := sub_images o |}.

Definition with_sub_images (l : list ref) (o : BinaryImage) : BinaryImage :=
  {| name := name o; description := description o; offset := offset o;
     _size := _size o; binary := binary o; pattern := pattern o;
     parent := parent o; sub_images := l |}.

(** The object [BinaryImage(name, size, offset, binary=b, pattern=p)]
    starts as: no parent, no sub images. *)
Definition new_image (nm : string) (size off : Z) (b : option bytes)
    (p : option BinaryPattern) : BinaryImage :=
  {| name := nm; description := None; offset := off; _size := size;
     binary := b; pattern := p; parent := None; sub_images := [] |}.

(** [len(self.binary) if self.binary else 0] *)
Definition binary_len (o : BinaryImage) : Z :=
  match binary o with
  | Some b => if bool_decide (b = []) then 0 else blen b
  | None => 0
  end.

(** [BinaryImage.__len__], called through [len()].  [fuel] bounds the depth
    of the calls, as the interpreter's recursion limit does. *)
Fixpoint len (fuel : nat) (h : heap) (self : ref) : outcome Z :=
  match fuel with
  | O => Raise RecursionError
  | S fuel =>
      (if negb (_size (h self) =? 0) then Ok (_size (h self))
       else
         for_fold
           (fun max_size image =>
              n ← len fuel h image;
              let size := offset (h image) + n in
              Ok (Z.max size max_size))
           (sub_images (h self)) (binary_len (h self)))
      ≫= len_result
  end.

(** [BinaryImage.add_image]: the scan of [enumerate(self.sub_images)]. *)
Fixpoint add_image_scan (h : heap) (image : ref) (i : nat) (rest : list ref)
  : option nat :=
  match rest with
  | [] => None
  | child :: rest' =>
      if offset (h image) <? offset (h child) then Some i
      else add_image_scan h image (S i) rest'
  end.

(** [list.insert(i, x)] *)
Definition list_insert_at {A} (i : nat) (x : A) (l : list A) : list A :=
  take i l ++ x :: drop i l.

Definition add_image (self image : ref) (h : heap) : heap :=
  let h1 := <[image := with_parent (Some self) (h image)]> h in
  let subs := sub_images (h1 self) in
  match add_image_scan h1 image 0 subs with
  | Some i =>
      <[self := with_sub_images (list_insert_at i image subs) (h1 self)]> h1
  | None => <[self := with_sub_images (subs ++ [image]) (h1 self)]> h1
  end.

(** [BinaryImage.absolute_address].  [if self.parent] is the truth value of
    an object with a [__len__]: false for [None] and for a parent of
    length 0. *)
Fixpoint absolute_address (fuel : nat) (h : heap) (self : ref) : outcome Z :=
  match fuel with
  | O => Raise RecursionError
  | S fuel =>
      match parent (h self) with
      | Some p =>
          n ← len fuel h p;
          if negb (n =? 0) then
            a ← absolute_address fuel h p;
            Ok (a + offset (h self))
          else Ok (offset (h self))
      | None => Ok (offset (h self))
      end
  end.

(** [BinaryImage.image_name] *)
Fixpoint image_name (fuel : nat) (h : heap) (self : ref) : outcome string :=
  match fuel with
  | O => Raise RecursionError
  | S fuel =>
      match parent (h self) with
      | Some p =>
          n ← len fuel h p;
          if negb (n =? 0) then
            s ← image_name fuel h p;
            Ok (s ++ "=>" ++ name (h self))%string
          else Ok (name (h self))
      | None => Ok (name (h self))
      end
  end.

(** [BinaryImage.info].  The text is put together by formatting helpers
    outside this module and is not modelled; the calls it makes on the image
    are, since each of them may raise. *)
Definition info (fuel : nat) (h : heap) (self : ref) : outcome unit :=
  match fuel with
  | O => Raise RecursionError
  | S fuel =>
      size ← len fuel h self;
      image_name fuel h self;;
      absolute_address fuel h self;;
      absolute_address fuel h self;;
      Ok tt
  end.

(** [BinaryImage.validate].  [sibling != image] compares identities.  The
    message of an exception is formatted before it is raised. *)
Fixpoint validate (fuel : nat) (h : heap) (self : ref) : outcome unit :=
  match fuel with
  | O => Raise RecursionError
  | S fuel =>
      if offset (h self) <? 0 then
        image_name fuel h self;;
        Raise (SPSDKValueError (NegativeOffset self))
      else
        n ← len fuel h self;
        if n <=? 0 then
          image_name fuel h self;;
          Raise (SPSDKValueError (NonPositiveSize self))
        else
          for_each
            (fun image =>
               validate fuel h image;;
               let begin := offset (h image) in
               n ← len fuel h image;
               let end_ := begin + n - 1 in
               m ← len fuel h self;
               if end_ >? m then
                 Raise (SPSDKOverlapError (DoesNotFit image self))
               else
                 for_each
                   (fun sibling =>
                      if bool_decide (sibling ≠ image) then
                        let sibling_begin := offset (h sibling) in
                        k ← len fuel h sibling;
                        let sibling_end := sibling_begin + k - 1 in
                        if (end_ <? sibling_begin) || (begin >? sibling_end)
                        then Ok tt
                        else
                          info fuel h image;;
                          info fuel h sibling;;
                          Raise (SPSDKOverlapError (Overlap image sibling))
                      else Ok tt)
                   (sub_images (h self)))
            (sub_images (h self))
  end.

(** [image.offset -= min_offset] *)
Definition subtract_offset (min_offset : Z) (h : heap) (image : ref) : heap :=
  <[image := with_offset (offset (h image) - min_offset) (h image)]> h.

(** [BinaryImage.update_offsets]; the store comes back with the outcome. *)
Definition update_offsets (self : ref) (h : heap) : outcome unit * heap :=
  let offsets := (fun image => offset (h image)) <$> sub_images (h self) in
  match min_list offsets with
  | Raise e => (Raise e, h)
  | Ok min_offset =>
      let h1 := foldl (subtract_offset min_offset) h (sub_images (h self)) in
      (Ok tt,
       <[self := with_offset (offset (h1 self) + min_offset) (h1 self)]> h1)
  end.

Section ExportImage.

Variable value_to_bytes : string -> outcome bytes.
Variable random_bytes : Z -> bytes.

(** [BinaryImage.export].  In the assignment to the slice the right-hand
    side is evaluated first. *)
Fixpoint export (fuel : nat) (h : heap) (self : ref) : outcome bytes :=
  match fuel with
  | O => Raise RecursionError
  | S fuel =>
      n ← len fuel h self;
      ret ← match pattern (h self) with
            | Some p => get_block value_to_bytes random_bytes p n
            | None => zero_bytes n
            end;
      let ret :=
        match binary (h self) with
        | Some b => if bool_decide (b = []) then ret
                    else setslice ret 0 (blen b) b
        | None => ret
        end in
      for_fold
        (fun ret image =>
           data ← export fuel h image;
           n ← len fuel h image;
           let data := getslice_to data n in
           m ← len fuel h image;
           Ok (setslice ret (offset (h image)) (offset (h image) + m) data))
        (sub_images (h self)) ret
  end.

End ExportImage.

(** [BinaryImage.aligned_start].  [math.floor(address / alignment)] goes
    through a float division; for addresses and alignments below [2^53] it is
    the floor of the exact quotient, which is what [Z.div] computes. *)
Definition aligned_start (fuel : nat) (h : heap) (self : ref) (alignment : Z)
  : outcome Z :=
  match fuel with
  | O => Raise RecursionError
  | S fuel =>
      a ← absolute_address fuel h self;
      if alignment =? 0 then Raise ZeroDivisionError
      else Ok (a / alignment * alignment)
  end.

(** [BinaryImage.aligned_length].  [math.ceil(end / alignment)] is, in the
    same range, the ceiling of the exact quotient. *)
Definition aligned_length (fuel : nat) (h : heap) (self : ref) (alignment : Z)
  : outcome Z :=
  match fuel with
  | O => Raise RecursionError
  | S fuel =>
      a ← absolute_address fuel h self;
      n ← len fuel h self;
      let end_address := a + n in
      if alignment =? 0 then Raise ZeroDivisionError
      else
        let aligned_end := - (- end_address / alignment) * alignment in
        s ← aligned_start fuel h self alignment;
        let aligned_len := aligned_end - s in
        Ok aligned_len
  end.

(** ** ColorPicker *)

(** The escape sequence [colorama.Fore] has for the colour code [code]. *)
Definition fore (code : string) : string :=
  String (Ascii.ascii_of_nat 27) ("[" ++ code ++ "m").

(** [ColorPicker.COLORS]: LIGHTBLACK_EX, BLUE, GREEN, CYAN, YELLOW, MAGENTA,
    WHITE, LIGHTBLUE_EX, LIGHTCYAN_EX, LIGHTGREEN_EX, LIGHTMAGENTA_EX,
    LIGHTWHITE_EX, LIGHTYELLOW_EX. *)
Definition COLORS : list string :=
  [fore "90"; fore "34"; fore "32"; fore "36"; fore "33"; fore "35";
   fore "37"; fore "94"; fore "96"; fore "92"; fore "95"; fore "97";
   fore "93"]%string.

(** The picker's state.  [index] starts at [len(COLORS)] and is from then
    on set to 0 or incremented, so it is a natural number. *)
Record ColorPicker := { index : nat }.

(** [ColorPicker.__init__] *)
Definition ColorPicker_init : ColorPicker := {| index := length COLORS |}.

(** [ColorPicker.get_color] over a list of colours; the picker comes back
    with the outcome.  [unwanted_color] is [None] by default and counts only
    when it is a non-empty string.  In a list that is not empty, as [COLORS]
    is, the index is within range when the colour is read. *)
Fixpoint get_color_in (colors : list string) (fuel : nat) (self : ColorPicker)
    (unwanted_color : option string) : outcome string * ColorPicker :=
  match fuel with
  | O => (Raise RecursionError, self)
  | S fuel =>
      let i := S (index self) in
      let i := if bool_decide (length colors <= i)%nat then 0%nat else i in
      let self := {| index := i |} in
      let color := nth i colors ""%string in
      match unwanted_color with
      | Some unwanted =>
          if negb (String.eqb unwanted "") && String.eqb color unwanted
          then get_color_in colors fuel self unwanted_color
          else (Ok color, self)
      | None => (Ok color, self)
      end
  end.

Definition get_color : nat -> ColorPicker -> option string
                       -> outcome string * ColorPicker :=
  get_color_in COLORS.

(** ** Construction and loading *)

(** The store together with the next reference not in use: a new object
    takes it. *)
Record store := { objects : heap; next : ref }.

Definition alloc (o : BinaryImage) (s : store) : ref * store :=
  (next s, {| objects := <[next s := o]> (objects s); next := S (next s) |}).

(** [BinaryImage.__init__].  [if parent:] asks for the truth value of the
    parent, which is its [__len__]; the assertion under it holds of every
    reference to an image. *)
Definition BinaryImage_init (fuel : nat) (h : heap) (nm : string)
    (size off : Z) (descr : option string) (b : option bytes)
    (p : option BinaryPattern) (par : option ref) : outcome BinaryImage :=
  match fuel with
  | O => Raise RecursionError
  | S fuel =>
      let self :=
        {| name := nm; description := descr; offset := off; _size := size;
           binary := b; pattern := p; parent := par; sub_images := [] |} in
      match par with
      | Some q => len fuel h q;; Ok self
      | None => Ok self
      end
  end.

(** [x or y] for a string [x] that may be [None]: [y] when [x] is [None] or
    empty. *)
Definition or_else (x : option string) (y : string) : string :=
  match x with
  | Some s => if bool_decide (s = ""%string) then y else s
  | None => y
  end.

(** A segment of a decoded file, as [bincopy] hands it out: the address of
    its first byte and its bytes. *)
Record Segment := { address : Z; data : bytes }.

Section Load.

(** [os.path.basename] *)
Variable basename : string -> string.

(** The loop of [load_binary_image] over [enumerate(bin_file.segments)]. *)
Fixpoint add_segments (fuel : nat) (bin_image : ref)
    (pat : option BinaryPattern) (i : nat) (segments : list Segment)
    (s : store) : outcome unit * store :=
  match segments with
  | [] => (Ok tt, s)
  | segment :: rest =>
      match BinaryImage_init fuel (objects s) ("Segment " +:+ pretty i)
              (blen (data segment)) (address segment) None
              (Some (data segment)) pat (Some bin_image) with
      | Raise e => (Raise e, s)
      | Ok o =>
          let (image, s1) := alloc o s in
          let s2 := {| objects := add_image bin_image image (objects s1);
                       next := next s1 |} in
          add_segments fuel bin_image pat (S i) rest s2
      end
  end.

(** [BinaryImage.load_binary_image], from the point where the file has been
    found and decoded: [path] is the path [find_file] returned and
    [segments] what [bincopy] read from it (the file system and the decoders
    are outside this module).  [size or 0] is [size]. *)
Definition load_binary_image (fuel : nat) (s : store) (path : string)
    (segments : list Segment) (nm : option string) (size off : Z)
    (descr : option string) (pat : option BinaryPattern)
  : outcome ref * store :=
  match fuel with
  | O => (Raise RecursionError, s)
  | S fuel =>
      let img_name := or_else nm (basename path) in
      let img_size := size in
      let img_descr :=
        or_else descr ("The image loaded from: " +:+ path +:+ " .") in
      match BinaryImage_init fuel (objects s) img_name img_size off
              (Some img_descr) None pat None with
      | Raise e => (Raise e, s)
      | Ok o =>
          let (bin_image, s1) := alloc o s in
          if bool_decide (segments = []) then (Raise SPSDKError, s1)
          else
            match add_segments fuel bin_image pat 0 segments s1 with
            | (Raise e, s2) => (Raise e, s2)
            | (Ok _, s2) =>
                match update_offsets bin_image (objects s2) with
                | (Raise e, h) =>
                    (Raise e, {| objects := h; next := next s2 |})
                | (Ok _, h) =>
                    (Ok bin_image, {| objects := h; next := next s2 |})
                end
            end
      end
  end.

End Load.

(** ** Notions the properties are stated with *)

(** The offsets of a list of images, as the store has them. *)
Definition offsets_of (h : heap) (l : list ref) : list Z :=
  (fun image => offset (h image)) <$> l.

(** A child list in non-decreasing order of offset. *)
Definition sorted_by_offset (h : heap) (l : list ref) : Prop :=
  StronglySorted Z.le (offsets_of h l).

(** [for image in images: self.add_image(image)] *)
Definition add_images (self : ref) (images : list ref) (h : heap) : heap :=
  foldl (fun h' image => add_image self image h') h images.

(** The parent chain of [r], as far as [fuel] follows it, consists of images
    with a declared size that are not among [avoid]. *)
Fixpoint anchored (fuel : nat) (h : heap) (avoid : list ref) (r : ref) : Prop :=
  match fuel with
  | O => True
  | S fuel =>
      match parent (h r) with
      | None => True
      | Some p => _size (h p) <> 0 /\ (p ∉ avoid) /\ anchored fuel h avoid p
      end
  end.

(** The ancestors of [r] that [absolute_address] goes through, as far as
    [fuel] follows them, are not among [avoid] and have in [h'] the truth
    value they have in [h]: a length of 0 in both stores or in neither. *)
Fixpoint steady (fuel : nat) (h h' : heap) (avoid : list ref) (r : ref)
  : Prop :=
  match fuel with
  | O => True
  | S fuel =>
      match parent (h r) with
      | None => True
      | Some p =>
          exists n n',
            len fuel h p = Ok n /\ len fuel h' p = Ok n'
            /\ (n = 0 <-> n' = 0)
            /\ (n <> 0 -> (p ∉ avoid) /\ steady fuel h h' avoid p)
      end
  end.

(** The half-open ranges [[o1, o1 + l1)] and [[o2, o2 + l2)] share a
    position. *)
Definition ranges_intersect (o1 l1 o2 l2 : Z) : Prop :=
  exists x, (o1 <= x < o1 + l1) /\ (o2 <= x < o2 + l2).

(** Two distinct children of [self] whose ranges intersect. *)
Definition overlapping_siblings (fuel : nat) (h : heap) (self a b : ref)
  : Prop :=
  a ∈ sub_images (h self) /\ b ∈ sub_images (h self) /\ a <> b
  /\ exists ka kb, len fuel h a = Ok ka /\ len fuel h b = Ok kb
       /\ ranges_intersect (offset (h a)) ka (offset (h b)) kb.

(** The children are valid on their own, of positive length, pass the fit
    check of [validate], and can be described by [info]. *)
Definition children_pass (fuel : nat) (h : heap) (self : ref) (n : Z) : Prop :=
  Forall (fun c => validate fuel h c = Ok tt
                   /\ info fuel h c = Ok tt
                   /\ exists k, len fuel h c = Ok k /\ 0 < k
                        /\ offset (h c) + k - 1 <= n)
         (sub_images (h self)).

(** The body of the inner loop of [validate], for a child [image] of
    length [k]. *)
Definition sibling_check (fuel : nat) (h : heap) (image : ref) (k : Z)
    (sibling : ref) : outcome unit :=
  if bool_decide (sibling ≠ image) then
    k' ← len fuel h sibling;
    if (offset (h image) + k - 1 <? offset (h sibling))
       || (offset (h image) >? offset (h sibling) + k' - 1)
    then Ok tt
    else
      info fuel h image;;
      info fuel h sibling;;
      Raise (SPSDKOverlapError (Overlap image sibling))
  else Ok tt.

(** The content step of [export]: [ret[: len(self.binary)] = self.binary]
    when there is content. *)
Definition with_content (o : BinaryImage) (ret : bytes) : bytes :=
  match binary o with
  | Some b => if bool_decide (b = []) then ret else setslice ret 0 (blen b) b
  | None => ret
  end.

(** One overlay of [export]: [piece.2] written over [ret] from position
    [piece.1] on. *)
Definition overlay (ret : bytes) (piece : Z * bytes) : bytes :=
  setslice ret piece.1 (piece.1 + blen piece.2) piece.2.

(** Position [i] lies in the range of the child [c]. *)
Definition covers (fuel : nat) (h : heap) (c : ref) (i : nat) : Prop :=
  exists k, len fuel h c = Ok k
    /\ offset (h c) <= Z.of_nat i < offset (h c) + k.

Section Shapes.

Variable value_to_int : string -> option Z.
Variable value_to_bytes : string -> outcome bytes.

(** The pattern object came out of the constructor. *)
Definition constructed (p : BinaryPattern) : Prop :=
  exists s, BinaryPattern_init value_to_int s = Ok p.

(** The pattern yields all [n] bytes of a block: it is a special token, or
    a literal whose encoding divides [n]. *)
Definition pattern_fills (p : BinaryPattern) (n : Z) : Prop :=
  _pattern p ∈ SPECIAL_PATTERNS
  \/ exists lit, value_to_bytes (_pattern p) = Ok lit /\ lit <> []
       /\ n mod blen lit = 0.

Definition background_fills (o : BinaryImage) (n : Z) : Prop :=
  match pattern o with
  | Some p => pattern_fills p n
  | None => True
  end.

(** A tree of depth at most [d] below [self] in which no declared size is
    negative and every pattern came out of the constructor. *)
Fixpoint exportable (d : nat) (h : heap) (self : ref) : Prop :=
  match d with
  | O => False
  | S d' =>
      0 <= _size (h self)
      /\ (forall p, pattern (h self) = Some p -> constructed p)
      /\ Forall (exportable d' h) (sub_images (h self))
  end.

(** A tree of depth at most [d] below [self] in which every image holds its
    content and its children within its own length, [0 <= child.offset] and
    [child.offset + len(child) <= len(image)], and has a background that
    fills it.  Siblings may overlap. *)
Fixpoint placed (d : nat) (h : heap) (self : ref) : Prop :=
  match d with
  | O => False
  | S d' =>
      (exists n, len (S d') h self = Ok n
         /\ background_fills (h self) n
         /\ binary_len (h self) <= n
         /\ Forall (fun c => exists k, len d' h c = Ok k
                               /\ 0 <= offset (h c)
                               /\ offset (h c) + k <= n)
                   (sub_images (h self)))
      /\ Forall (placed d' h) (sub_images (h self))
  end.

End Shapes.

(** [sys.maxsize], the largest length [len()] returns. *)
Definition maxsize : Z := 2 ^ 63 - 1.

(** Every length computed on the store fits a machine index, so that
    neither [len()] nor the truth value of an image raises
    [OverflowError]. *)
Definition index_sized (h : heap) : Prop :=
  forall f x n, len f h x = Ok n -> n <= maxsize.

(** What an exception of [validate] says about the store it was raised
    on.  An overlap is reported for a valid image [a] and a sibling [b] when
    the test on inclusive ends fails: [b] begins at or before the last byte
    of [a], and [a] at or before the last byte of [b].  For a sibling with
    bytes that is an intersection of the ranges; an empty sibling is
    reported when it lies behind the first and within the last byte of
    [a]. *)
Definition justified (h : heap) (e : exn) : Prop :=
  match e with
  | RecursionError => True
  | ValueError => exists x, _size (h x) < 0
  | SPSDKValueError (NegativeOffset x) => offset (h x) < 0
  | SPSDKValueError (NonPositiveSize x) =>
      exists f n, len f h x = Ok n /\ n <= 0
  | SPSDKOverlapError (DoesNotFit c p) =>
      c ∈ sub_images (h p)
      /\ exists f k n, len f h c = Ok k /\ len f h p = Ok n
           /\ n < offset (h c) + k - 1
  | SPSDKOverlapError (Overlap a b) =>
      b <> a
      /\ exists p f ka kb,
           a ∈ sub_images (h p) /\ b ∈ sub_images (h p)
           /\ len f h a = Ok ka /\ 0 < ka /\ len f h b = Ok kb
           /\ offset (h b) <= offset (h a) + ka - 1
           /\ offset (h a) <= offset (h b) + kb - 1
           /\ (0 < kb ->
               ranges_intersect (offset (h a)) ka (offset (h b)) kb)
  | _ => False
  end.

(** *** Loaded images *)

(** The image [load_binary_image] makes of the segment with index [i]. *)
Definition segment_image (pat : option BinaryPattern) (bin_image : ref)
    (i : nat) (segment : Segment) : BinaryImage :=
  {| name := "Segment " +:+ pretty i; description := None;
     offset := address segment; _size := blen (data segment);
     binary := Some (data segment); pattern := pat;
     parent := Some bin_image; sub_images := [] |}.

(** An image without children whose declared size is not negative. *)
Definition leaf (h : heap) (c : ref) : Prop :=
  sub_images (h c) = [] /\ 0 <= _size (h c).

(** The tree [load_binary_image] builds at [r] of the segments, [m] being
    their least address: a node without parent and content whose children
    are the objects after it, one for each segment, moved down by [m]. *)
Definition loaded (h : heap) (r : ref) (segments : list Segment)
    (pat : option BinaryPattern) (size m : Z) : Prop :=
  min_list (address <$> segments) = Ok m
  /\ parent (h r) = None /\ binary (h r) = None /\ pattern (h r) = pat
  /\ _size (h r) = size /\ 0 <= size
  /\ sub_images (h r) ≡ₚ seq (S r) (length segments)
  /\ forall j seg, segments !! j = Some seg ->
       h (S r + j)%nat
       = with_offset (address seg - m) (segment_image pat r j seg).

(** No two of the segments share an address. *)
Definition disjoint_segments (segments : list Segment) : Prop :=
  forall i j a b, i <> j -> segments !! i = Some a -> segments !! j = Some b ->
    ~ ranges_intersect (address a) (blen (data a))
        (address b) (blen (data b)).

(** ** Sample collaborators and objects

    Stand-ins for the modules outside [images.py], and small stores, on which
    the definitions are run. *)

Module Sample.

(** An encoder that knows the literals ["0x1234"] (two bytes) and ["0xAB"]
    (one byte), and rejects everything else. *)
Definition value_to_int (s : string) : option Z :=
  if String.eqb s "0x1234" then Some 4660
  else if String.eqb s "0xAB" then Some 171
  else None.

Definition value_to_bytes (s : string) : outcome bytes :=
  if String.eqb s "0x1234" then Ok [x12; x34]
  else if String.eqb s "0xAB" then Ok [xab]
  else Raise SPSDKError.

(** A source of "random" bytes that always draws [0x2a]. *)
Definition random_bytes (n : Z) : bytes := replicate (Z.to_nat n) x2a.

(** A parent of declared size 10 (object 0) with one child (object 1) of
    the given offset and size. *)
Definition one_child (off size : Z) : heap := fun r =>
  match r with
  | 0%nat => with_sub_images [1%nat] (new_image "parent" 10 0 None None)
  | 1%nat => with_parent (Some 0%nat) (new_image "child" size off None None)
  | _ => new_image "" 0 0 None None
  end.

(** A parent (object 0) whose only child (object 1) is at offset 5, and a
    free image (object 2) at offset 5 as well, and one (object 3) at 2. *)
Definition tie_heap : heap := fun r =>
  match r with
  | 0%nat => with_sub_images [1%nat] (new_image "parent" 0 0 None None)
  | 1%nat => with_parent (Some 0%nat) (new_image "first" 1 5 None None)
  | 2%nat => new_image "second" 1 5 None None
  | 3%nat => new_image "third" 1 2 None None
  | _ => new_image "" 0 0 None None
  end.

(** The same images, none of them attached yet. *)
Definition free_heap : heap := fun r =>
  match r with
  | 0%nat => new_image "parent" 0 0 None None
  | 1%nat => new_image "first" 1 5 None None
  | 2%nat => new_image "second" 1 5 None None
  | 3%nat => new_image "third" 1 2 None None
  | _ => new_image "" 0 0 None None
  end.

(** A root at offset 0 (object 0) with children at offsets 10, 20 and 30
    (objects 1, 2, 3), each of size 4. *)
Definition gap_heap : heap := fun r =>
  match r with
  | 0%nat => with_sub_images [1%nat; 2%nat; 3%nat]
               (new_image "root" 0 0 None None)
  | 1%nat => with_parent (Some 0%nat) (new_image "a" 4 10 None None)
  | 2%nat => with_parent (Some 0%nat) (new_image "b" 4 20 None None)
  | 3%nat => with_parent (Some 0%nat) (new_image "c" 4 30 None None)
  | _ => new_image "" 0 0 None None
  end.

(** A root of declared size 100 at offset 3 (object 0), in it a node at
    offset 7 (object 1) with children at offsets 10 and 20 (objects 2, 3). *)
Definition nested_heap : heap := fun r =>
  match r with
  | 0%nat => with_sub_images [1%nat] (new_image "root" 100 3 None None)
  | 1%nat => with_sub_images [2%nat; 3%nat]
               (with_parent (Some 0%nat) (new_image "node" 0 7 None None))
  | 2%nat => with_parent (Some 1%nat) (new_image "a" 4 10 None None)
  | 3%nat => with_parent (Some 1%nat) (new_image "b" 4 20 None None)
  | _ => new_image "" 0 0 None None
  end.

(** A root without a declared size at offset 0 (object 0), in it a node at
    offset 10 (object 1), without a declared size either, with children at
    offsets 10 and 20 (objects 2, 3). *)
Definition derived_heap : heap := fun r =>
  match r with
  | 0%nat => with_sub_images [1%nat] (new_image "root" 0 0 None None)
  | 1%nat => with_sub_images [2%nat; 3%nat]
               (with_parent (Some 0%nat) (new_image "node" 0 10 None None))
  | 2%nat => with_parent (Some 1%nat) (new_image "a" 4 10 None None)
  | 3%nat => with_parent (Some 1%nat) (new_image "b" 4 20 None None)
  | _ => new_image "" 0 0 None None
  end.

(** A root without a declared size at offset 100 (object 0), in it a node
    of size 5 at offset -5 (object 1) with a child at offset 3 (object 2):
    the root has length 0. *)
Definition flip_heap : heap := fun r =>
  match r with
  | 0%nat => with_sub_images [1%nat] (new_image "root" 0 100 None None)
  | 1%nat => with_sub_images [2%nat]
               (with_parent (Some 0%nat) (new_image "node" 5 (-5) None None))
  | 2%nat => with_parent (Some 1%nat) (new_image "c" 1 3 None None)
  | _ => new_image "" 0 0 None None
  end.

(** An image of size 4 whose pattern is a literal the encoder rejects. *)
Definition bad_pattern_heap : heap := fun r =>
  match r with
  | 0%nat => new_image "image" 4 0 None (Some {| _pattern := "0xZZ" |})
  | _ => new_image "" 0 0 None None
  end.

(** A parent of declared size 16 (object 0) with two children of size 8,
    at the offsets 0 and 4 (objects 1 and 2), which overlap; the first has a
    child of its own at offset -1 (object 3). *)
Definition grandchild_heap : heap := fun r =>
  match r with
  | 0%nat => with_sub_images [1%nat; 2%nat] (new_image "parent" 16 0 None None)
  | 1%nat => with_sub_images [3%nat]
               (with_parent (Some 0%nat) (new_image "A" 8 0 None None))
  | 2%nat => with_parent (Some 0%nat) (new_image "B" 8 4 None None)
  | 3%nat => with_parent (Some 1%nat) (new_image "G" 1 (-1) None None)
  | _ => new_image "" 0 0 None None
  end.

(** A parent of declared size 16 (object 0) with a child of size 8 at
    offset 0 (object 1) and, at offset 4, a child without size, content or
    children (object 2): an empty image inside the range of the first. *)
Definition empty_sibling_heap : heap := fun r =>
  match r with
  | 0%nat => with_sub_images [1%nat; 2%nat] (new_image "parent" 16 0 None None)
  | 1%nat => with_parent (Some 0%nat) (new_image "A" 8 0 None None)
  | 2%nat => with_parent (Some 0%nat) (new_image "B" 0 4 None None)
  | _ => new_image "" 0 0 None None
  end.

(** A parent of declared size 16 (object 0) with two children of size 8:
    object 1 at offset 0 and object 2 at the given offset. *)
Definition two_children (off : Z) : heap := fun r =>
  match r with
  | 0%nat => with_sub_images [1%nat; 2%nat] (new_image "parent" 16 0 None None)
  | 1%nat => with_parent (Some 0%nat) (new_image "A" 8 0 None None)
  | 2%nat => with_parent (Some 0%nat) (new_image "B" 8 off None None)
  | _ => new_image "" 0 0 None None
  end.

(** The layered scenario of the specification: a parent of size 4 filled
    with zeros (object 0) and a child at offset 1 with content [AA BB]
    (object 1). *)
Definition layered_heap : heap := fun r =>
  match r with
  | 0%nat => with_sub_images [1%nat]
               (new_image "parent" 4 0 None (Some {| _pattern := "zeros" |}))
  | 1%nat => with_parent (Some 0%nat)
               (new_image "child" 2 1 (Some [xaa; xbb]) None)
  | _ => new_image "" 0 0 None None
  end.

(** A parent of size 6 with the pattern [0xAB] and content [01 02]
    (object 0), and two overlapping children: [A1 A2 A3] at offset 1
    (object 1) and [B1 B2] at offset 2 (object 2). *)
Definition overlap_heap : heap := fun r =>
  match r with
  | 0%nat => with_sub_images [1%nat; 2%nat]
               (new_image "parent" 6 0 (Some [x01; x02])
                  (Some {| _pattern := "0xAB" |}))
  | 1%nat => with_parent (Some 0%nat)
               (new_image "A" 3 1 (Some [xa1; xa2; xa3]) None)
  | 2%nat => with_parent (Some 0%nat)
               (new_image "B" 2 2 (Some [xb1; xb2]) None)
  | _ => new_image "" 0 0 None None
  end.

(** An image of declared size 2 with 4 bytes of content. *)
Definition long_content_heap : heap := fun r =>
  match r with
  | 0%nat => new_image "image" 2 0 (Some [x01; x02; x03; x04]) None
  | _ => new_image "" 0 0 None None
  end.

(** An image of declared size -1. *)
Definition negative_size_heap : heap := fun r =>
  match r with
  | 0%nat => new_image "image" (-1) 0 None None
  | _ => new_image "" 0 0 None None
  end.

(** A parent with content [01 .. 08] (object 0) and a child [A1 .. A4] at
    offset -2 (object 1). *)
Definition negative_offset_heap : heap := fun r =>
  match r with
  | 0%nat => with_sub_images [1%nat]
               (new_image "parent" 8 0
                  (Some [x01; x02; x03; x04; x05; x06; x07; x08]) None)
  | 1%nat => with_parent (Some 0%nat)
               (new_image "child" 4 (-2) (Some [xa1; xa2; xa3; xa4]) None)
  | _ => new_image "" 0 0 None None
  end.

End Sample.

(** A decoded file and a store to load it into. *)
Module SampleFile.

(** [os.path.basename] on paths without a directory part. *)
Definition basename (path : string) : string := path.

(** A store with nothing in use. *)
Definition blank : store :=
  {| objects := fun _ => new_image "" 0 0 None None; next := 0%nat |}.

(** The segments of a decoded file: two bytes at address 16, one byte at
    address 20. *)
Definition two_segments : list Segment :=
  [ {| address := 16; data := [x01; x02] |};
    {| address := 20; data := [x03] |} ].

End SampleFile.

(** * Properties *)

(** ** The error monad *)

Lemma bind_Ok {A B} (m : outcome A) (f : A -> outcome B) (b : B) :
  m ≫= f = Ok b <-> exists a, m = Ok a /\ f a = Ok b.
Proof.
  destruct m as [a|e]; simpl; split.
  - intros H. by exists a.
  - by intros (a' & [= ->] & H).
  - discriminate.
  - by intros (a' & [=] & _).
Qed.

Lemma len_result_Ok n m : len_result n = Ok m <-> m = n /\ 0 <= n.
Proof.
  unfold len_result. destruct (Z.ltb_spec n 0); split.
  - discriminate.
  - lia.
  - intros [= ->]. lia.
  - by intros [-> _].
Qed.

(** ** Loops *)

Lemma for_each_Ok {A} (body : A -> outcome unit) (l : list A) :
  for_each body l = Ok tt <-> Forall (fun x => body x = Ok tt) l.
Proof.
  induction l as [|x l IH]; simpl.
  - split; [constructor|done].
  - rewrite Forall_cons, <- IH. destruct (body x) as [[]|e]; simpl.
    + tauto.
    + split; [done|]. by intros [? _].
Qed.

Lemma for_each_ext {A} (body1 body2 : A -> outcome unit) (l : list A) :
  Forall (fun x => body1 x = body2 x) l -> for_each body1 l = for_each body2 l.
Proof.
  induction 1 as [|x l Hx _ IH]; simpl; [done|]. by rewrite Hx, IH.
Qed.

Lemma for_each_Raise {A} (body : A -> outcome unit) (l : list A) (e : exn) :
  for_each body l = Raise e -> exists x, x ∈ l /\ body x = Raise e.
Proof.
  induction l as [|x l IH]; simpl; [done|].
  destruct (body x) as [[]|e'] eqn:Hx; simpl.
  - intros H. destruct (IH H) as (y & Hy & Hbody).
    exists y. split; [by right|done].
  - intros [= ->]. exists x. split; [by left|done].
Qed.

Lemma for_fold_Ok_mono {A S} (body1 body2 : S -> A -> outcome S)
    (l : list A) (s r : S) :
  (forall s x s', x ∈ l -> body1 s x = Ok s' -> body2 s x = Ok s') ->
  for_fold body1 l s = Ok r -> for_fold body2 l s = Ok r.
Proof.
  revert s. induction l as [|x l IH]; intros s Hbody; simpl; [done|].
  intros H. apply bind_Ok in H as (s' & Hx & H).
  rewrite (Hbody s x s'); [|by left|done]. simpl.
  apply IH; [|done]. intros s0 y s0' Hy. apply Hbody. by right.
Qed.

Lemma for_fold_invariant {A S} (P : S -> Prop) (body : S -> A -> outcome S)
    (l : list A) (s : S) :
  P s ->
  (forall s x, x ∈ l -> P s -> exists s', body s x = Ok s' /\ P s') ->
  exists r, for_fold body l s = Ok r /\ P r.
Proof.
  revert s. induction l as [|x l IH]; intros s Hs Hbody; simpl.
  - by exists s.
  - destruct (Hbody s x) as (s' & Hx & Hs'); [by left|done|].
    rewrite Hx. simpl. apply IH; [done|].
    intros s0 y Hy. apply Hbody. by right.
Qed.

(** ** BinaryImage.__len__ *)

Lemma len_eq (fuel : nat) (h : heap) (self : ref) :
  len (S fuel) h self =
    (if negb (_size (h self) =? 0) then Ok (_size (h self))
     else
       for_fold
         (fun max_size image =>
            n ← len fuel h image;
            Ok (Z.max (offset (h image) + n) max_size))
         (sub_images (h self)) (binary_len (h self)))
    ≫= len_result.
Proof. reflexivity. Qed.

Lemma binary_len_default (o : BinaryImage) :
  binary_len o = blen (default [] (binary o)).
Proof.
  unfold binary_len. destruct (binary o) as [b|]; simpl; [|done].
  case_bool_decide as Hb; [by subst b|done].
Qed.

Lemma binary_len_nonneg (o : BinaryImage) : 0 <= binary_len o.
Proof. rewrite binary_len_default. unfold blen. lia. Qed.

Lemma len_nonneg (fuel : nat) (h : heap) (r : ref) (n : Z) :
  len fuel h r = Ok n -> 0 <= n.
Proof.
  destruct fuel as [|fuel]; simpl; [done|].
  intros H. apply bind_Ok in H as (m & _ & H).
  apply len_result_Ok in H. lia.
Qed.

(** More fuel does not change a length. *)
Lemma len_S (fuel : nat) (h : heap) (r : ref) (n : Z) :
  len fuel h r = Ok n -> len (S fuel) h r = Ok n.
Proof.
  revert r n. induction fuel as [|fuel IH]; intros r n; [done|].
  intros H. rewrite len_eq in H. rewrite len_eq.
  destruct (negb (_size (h r) =? 0)); [done|].
  apply bind_Ok in H as (m & Hfold & Hm). apply bind_Ok. exists m.
  split; [|done].
  eapply for_fold_Ok_mono; [|exact Hfold].
  intros s c s' _ Hc. apply bind_Ok in Hc as (k & Hk & Hs).
  apply bind_Ok. exists k. split; [by apply IH|done].
Qed.

Lemma len_mono (fuel fuel' : nat) (h : heap) (r : ref) (n : Z) :
  (fuel <= fuel')%nat -> len fuel h r = Ok n -> len fuel' h r = Ok n.
Proof.
  intros Hle H. induction Hle as [|fuel' _ IH]; [done|]. by apply len_S.
Qed.

(** ** Slices *)

Lemma slice_index_bounds n i : 0 <= n -> 0 <= slice_index n i <= n.
Proof. unfold slice_index. destruct (Z.ltb_spec i 0); lia. Qed.

Lemma slice_index_inside n i : 0 <= i <= n -> slice_index n i = i.
Proof. unfold slice_index. destruct (Z.ltb_spec i 0); lia. Qed.

Lemma blen_nonneg (b : bytes) : 0 <= blen b.
Proof. unfold blen. lia. Qed.

Lemma blen_app (a b : bytes) : blen (a ++ b) = blen a + blen b.
Proof. unfold blen. rewrite length_app. lia. Qed.

Lemma getslice_to_short (b : bytes) (stop : Z) :
  blen b <= stop -> getslice_to b stop = b.
Proof.
  intros H. unfold getslice_to, slice_index.
  pose proof (blen_nonneg b).
  destruct (Z.ltb_spec stop 0); [lia|].
  apply take_ge. unfold blen in *. lia.
Qed.

Lemma blen_setslice (b : bytes) (start stop : Z) (data : bytes) :
  blen (setslice b start stop data) =
    slice_index (blen b) start + blen data
    + (blen b - Z.max (slice_index (blen b) start) (slice_index (blen b) stop)).
Proof.
  unfold setslice.
  pose proof (slice_index_bounds (blen b) start (blen_nonneg b)).
  pose proof (slice_index_bounds (blen b) stop (blen_nonneg b)).
  rewrite !blen_app. unfold blen in *.
  rewrite length_take, length_drop. lia.
Qed.

Lemma blen_repeat_bytes (b : bytes) (k : Z) :
  0 <= k -> blen (repeat_bytes b k) = k * blen b.
Proof.
  intros Hk. unfold repeat_bytes, blen.
  rewrite <- (Z2Nat.id k) at 2 by done.
  induction (Z.to_nat k) as [|n IH]; simpl; [done|].
  rewrite length_app. lia.
Qed.

(** ** BinaryPattern.get_block *)

Section PatternFacts.

Variable value_to_bytes : string -> outcome bytes.
Variable random_bytes : Z -> bytes.

(** The tokens that do not draw random bytes fill the block. *)
Lemma get_block_token (p : BinaryPattern) (size : Z) :
  0 <= size ->
  _pattern p ∈ ["zeros"; "ones"; "inc"]%string ->
  exists block,
    get_block value_to_bytes random_bytes p size = Ok block
    /\ blen block = size.
Proof.
  intros Hsize Hp. unfold get_block.
  rewrite !elem_of_cons in Hp. destruct Hp as [-> | [-> | [-> | Hp]]]; simpl.
  - unfold zero_bytes. destruct (Z.ltb_spec size 0); [lia|].
    eexists; split; [done|]. unfold blen. rewrite length_replicate. lia.
  - eexists; split; [done|]. rewrite blen_repeat_bytes by done.
    unfold blen; simpl. lia.
  - eexists; split; [done|]. unfold blen.
    rewrite length_fmap, length_seqZ. lia.
  - by apply elem_of_nil in Hp.
Qed.

(** A literal is repeated [size // len(literal)] times: the block holds the
    largest whole number of copies that fits in [size]. *)
Lemma get_block_literal (p : BinaryPattern) (size : Z) (lit : bytes) :
  0 <= size ->
  _pattern p ∉ SPECIAL_PATTERNS ->
  value_to_bytes (_pattern p) = Ok lit ->
  lit <> [] ->
  get_block value_to_bytes random_bytes p size
  = Ok (repeat_bytes lit (size / blen lit))
  /\ blen (repeat_bytes lit (size / blen lit)) = size / blen lit * blen lit.
Proof.
  intros Hsize Hp Hlit Hne.
  assert (0 < blen lit) as Hpos.
  { unfold blen. destruct lit; [done|simpl; lia]. }
  assert (0 <= size / blen lit) as Hq by (apply Z.div_pos; lia).
  pose proof (blen_repeat_bytes lit _ Hq) as Hlen.
  split; [|done].
  unfold get_block, SPECIAL_PATTERNS in *.
  rewrite !not_elem_of_cons in Hp. destruct Hp as (H1 & H2 & H3 & H4 & _).
  apply String.eqb_neq in H1, H2, H3, H4. rewrite H1, H2, H3, H4.
  rewrite Hlit. simpl.
  destruct (Z.eqb_spec (blen lit) 0); [lia|].
  rewrite Z.quot_div_nonneg by lia.
  rewrite getslice_to_short; [done|].
  rewrite Hlen. pose proof (Z.mul_div_le size (blen lit) Hpos). lia.
Qed.

End PatternFacts.

(** C1.  The claim says that [get_block(size)] returns exactly [size] bytes
    for a literal pattern as well, repeating the literal
    [ceil(size / len(literal))] times before truncating.  The code repeats it
    [int(size / len(literal))] times: the two-byte literal [0x1234] asked for
    3 bytes yields one copy, a block of 2 bytes. *)
Theorem get_block_literal_too_short :
  get_block Sample.value_to_bytes Sample.random_bytes
    {| _pattern := "0x1234" |} 3 = Ok [x12; x34]
  /\ BinaryPattern_init Sample.value_to_int "0x1234"
     = Ok {| _pattern := "0x1234" |}.
Proof. split; reflexivity. Qed.

(** ** BinaryImage.validate: the fit check *)

(** C2.  The claim says that a child is rejected exactly when
    [offset + len(child) > len(parent)].  The code compares the index of the
    child's last byte, [offset + len(child) - 1], with [len(parent)]: a child
    at offset 5 of size 6 in a parent of size 10 ends one byte past the
    parent and passes; the child of size 10 is rejected. *)
Theorem validate_fit_off_by_one :
  validate 3 (Sample.one_child 5 6) 0%nat = Ok tt
  /\ len 2 (Sample.one_child 5 6) 0%nat = Ok 10
  /\ len 2 (Sample.one_child 5 6) 1%nat = Ok 6
  /\ validate 3 (Sample.one_child 5 10) 0%nat
     = Raise (SPSDKOverlapError (DoesNotFit 1%nat 0%nat)).
Proof. repeat split; reflexivity. Qed.

(** ** BinaryImage.add_image *)

(** [add_image] assigns no offset. *)
Lemma add_image_offset (self image : ref) (h : heap) (r : ref) :
  offset (add_image self image h r) = offset (h r).
Proof.
  unfold add_image.
  assert (forall r', offset (<[image:=with_parent (Some self) (h image)]> h r')
                     = offset (h r')) as H1.
  { intros r'. destruct (decide (image = r')) as [->|Hne].
    - by rewrite fn_lookup_insert.
    - by rewrite fn_lookup_insert_ne. }
  destruct (add_image_scan _ _ _ _);
    (destruct (decide (self = r)) as [->|Hne];
     [rewrite fn_lookup_insert | rewrite fn_lookup_insert_ne by done];
     simpl; apply H1).
Qed.

Lemma add_image_scan_ext (h h' : heap) image i rest :
  (forall r, offset (h' r) = offset (h r)) ->
  add_image_scan h' image i rest = add_image_scan h image i rest.
Proof.
  intros Hoff. revert i. induction rest as [|c rest IH]; intros i; simpl.
  - done.
  - rewrite !Hoff. by rewrite IH.
Qed.

(** Where the scan stops: everything before has an offset that is not
    greater than the new image's, and the image it stops at a greater one. *)
Lemma add_image_scan_split (h : heap) image i rest :
  match add_image_scan h image i rest with
  | Some j =>
      exists k c, j = (i + k)%nat /\ rest !! k = Some c
        /\ offset (h image) < offset (h c)
        /\ Forall (fun c' => offset (h c') <= offset (h image)) (take k rest)
  | None => Forall (fun c' => offset (h c') <= offset (h image)) rest
  end.
Proof.
  revert i. induction rest as [|c rest IH]; intros i; simpl.
  - constructor.
  - destruct (Z.ltb_spec (offset (h image)) (offset (h c))) as [Hlt|Hge].
    + exists 0%nat, c. repeat split; [lia|done|constructor].
    + specialize (IH (S i)). destruct (add_image_scan h image (S i) rest).
      * destruct IH as (k & c' & -> & Hk & Hlt & Hall).
        exists (S k), c'. repeat split; [lia|done|done|].
        simpl. by constructor.
      * by constructor.
Qed.

(** The child list after [add_image]: the old list with the new image put in
    front of the first child of strictly greater offset. *)
Lemma add_image_sub_images (self image : ref) (h : heap) :
  exists before after,
    sub_images (h self) = before ++ after
    /\ sub_images (add_image self image h self) = before ++ image :: after
    /\ Forall (fun c => offset (h c) <= offset (h image)) before
    /\ match after with
       | [] => True
       | c :: _ => offset (h image) < offset (h c)
       end.
Proof.
  unfold add_image.
  set (h1 := <[image:=with_parent (Some self) (h image)]> h).
  assert (forall r, offset (h1 r) = offset (h r)) as Hoff.
  { intros r. unfold h1. destruct (decide (image = r)) as [->|Hne].
    - by rewrite fn_lookup_insert.
    - by rewrite fn_lookup_insert_ne. }
  assert (sub_images (h1 self) = sub_images (h self)) as Hsubs.
  { unfold h1. destruct (decide (image = self)) as [->|Hne].
    - by rewrite fn_lookup_insert.
    - by rewrite fn_lookup_insert_ne. }
  rewrite Hsubs, (add_image_scan_ext h h1) by done.
  pose proof (add_image_scan_split h image 0 (sub_images (h self))) as Hscan.
  destruct (add_image_scan h image 0 (sub_images (h self))) as [j|].
  - destruct Hscan as (k & c & -> & Hk & Hlt & Hall). simpl.
    exists (take k (sub_images (h self))), (drop k (sub_images (h self))).
    rewrite fn_lookup_insert. simpl.
    repeat split; [by rewrite take_drop|done|].
    by rewrite (drop_S _ c k Hk).
  - exists (sub_images (h self)), []. rewrite fn_lookup_insert. simpl.
    by rewrite app_nil_r.
Qed.

Lemma offsets_of_add_image (self image : ref) (h : heap) (l : list ref) :
  offsets_of (add_image self image h) l = offsets_of h l.
Proof.
  unfold offsets_of. apply list_fmap_ext. intros _ r _.
  apply add_image_offset.
Qed.

Lemma sorted_by_offset_after (h : heap) (c : ref) (l : list ref) (x : Z) :
  sorted_by_offset h (c :: l) -> x < offset (h c) ->
  Forall (fun c' => x < offset (h c')) (c :: l).
Proof.
  unfold sorted_by_offset, offsets_of. rewrite fmap_cons.
  intros Hs Hx. apply StronglySorted_cons in Hs as [Hall _].
  constructor; [done|].
  rewrite Forall_fmap in Hall.
  eapply Forall_impl; [exact Hall|]. simpl. intros; lia.
Qed.

(** In a sorted list, the children from a child of offset above [x] on all
    have an offset above [x]. *)
Lemma sorted_by_offset_suffix (h : heap) (before after : list ref) (x : Z) :
  sorted_by_offset h (before ++ after) ->
  match after with [] => True | c :: _ => x < offset (h c) end ->
  Forall (fun c => x < offset (h c)) after.
Proof.
  intros Hsorted Hafter.
  destruct after as [|c after]; [constructor|].
  apply sorted_by_offset_after; [|done].
  unfold sorted_by_offset, offsets_of in *.
  rewrite fmap_app in Hsorted.
  by apply StronglySorted_app_1_r in Hsorted.
Qed.

(** C4, as amended.  In a child list sorted by offset, [add_image] places the
    new child after every existing child whose offset is not greater than its
    own, existing children of equal offset included, and before all children
    of strictly greater offset. *)
Theorem add_image_after_equal_offsets (h : heap) (self image : ref) :
  sorted_by_offset h (sub_images (h self)) ->
  exists before after,
    sub_images (h self) = before ++ after
    /\ sub_images (add_image self image h self) = before ++ image :: after
    /\ Forall (fun c => offset (h c) <= offset (h image)) before
    /\ Forall (fun c => offset (h image) < offset (h c)) after.
Proof.
  intros Hsorted.
  destruct (add_image_sub_images self image h)
    as (before & after & Hold & Hnew & Hbefore & Hafter).
  exists before, after. repeat split; try done.
  rewrite Hold in Hsorted.
  by apply (sorted_by_offset_suffix h before after).
Qed.

Lemma add_image_after_equal_offsets_witness :
  sorted_by_offset Sample.tie_heap (sub_images (Sample.tie_heap 0%nat))
  /\ exists before after,
       sub_images (Sample.tie_heap 0%nat) = before ++ after
       /\ sub_images (add_image 0%nat 2%nat Sample.tie_heap 0%nat)
          = before ++ 2%nat :: after
       /\ Forall (fun c => offset (Sample.tie_heap c)
                           <= offset (Sample.tie_heap 2%nat)) before
       /\ Forall (fun c => offset (Sample.tie_heap 2%nat)
                           < offset (Sample.tie_heap c)) after.
Proof.
  split.
  - repeat constructor.
  - apply (add_image_after_equal_offsets Sample.tie_heap 0%nat 2%nat).
    repeat constructor.
Defined.

(** C4, as stated, fails: a new child at offset 5 added to a parent whose
    only child is at offset 5 ends up after that child, not before it. *)
Lemma add_image_tie_goes_after :
  offset (Sample.tie_heap 2%nat) = offset (Sample.tie_heap 1%nat)
  /\ sub_images (Sample.tie_heap 0%nat) = [1%nat]
  /\ sub_images (add_image 0%nat 2%nat Sample.tie_heap 0%nat) = [1%nat; 2%nat]
  /\ ~ (exists l1 l2,
          sub_images (add_image 0%nat 2%nat Sample.tie_heap 0%nat)
          = l1 ++ 2%nat :: 1%nat :: l2).
Proof.
  repeat split.
  intros (l1 & l2 & H). vm_compute in H.
  destruct l1 as [|a [|b [|c l1]]]; simplify_eq/=.
Qed.

(** One insertion keeps a sorted child list sorted. *)
Lemma add_image_sorted (h : heap) (self image : ref) :
  sorted_by_offset h (sub_images (h self)) ->
  sorted_by_offset (add_image self image h)
    (sub_images (add_image self image h self)).
Proof.
  intros Hsorted.
  destruct (add_image_sub_images self image h)
    as (before & after & Hold & Hnew & Hbefore & Hafter').
  assert (Forall (fun c => offset (h image) < offset (h c)) after) as Hafter.
  { apply (sorted_by_offset_suffix h before after); [|done].
    by rewrite <- Hold. }
  unfold sorted_by_offset in *. rewrite offsets_of_add_image, Hnew.
  rewrite Hold in Hsorted. unfold offsets_of in *.
  rewrite fmap_app in Hsorted. apply StronglySorted_app in Hsorted
    as (Hcross & Hsb & Hsa).
  rewrite fmap_app, fmap_cons. apply StronglySorted_app_2.
  - intros x1 x2 Hx1 Hx2.
    apply list_elem_of_fmap in Hx1 as (c1 & -> & Hc1).
    rewrite Forall_forall in Hbefore. specialize (Hbefore _ Hc1).
    apply elem_of_cons in Hx2 as [->|Hx2]; [done|].
    apply list_elem_of_fmap in Hx2 as (c2 & -> & Hc2).
    rewrite Forall_forall in Hafter. specialize (Hafter _ Hc2). lia.
  - done.
  - apply StronglySorted_cons. split; [|done].
    rewrite Forall_fmap. eapply Forall_impl; [exact Hafter|].
    simpl. intros; lia.
Qed.

(** C8.  Starting from an empty child list, any sequence of [add_image]
    calls on a parent leaves its child list in non-decreasing order of
    offset. *)
Theorem add_images_sorted (h : heap) (self : ref) (images : list ref) :
  sub_images (h self) = [] ->
  sorted_by_offset (add_images self images h)
    (sub_images (add_images self images h self)).
Proof.
  intros Hempty.
  assert (sorted_by_offset h (sub_images (h self))) as Hsorted.
  { rewrite Hempty. constructor. }
  clear Hempty. revert h Hsorted. unfold add_images.
  induction images as [|image images IH]; intros h Hsorted; simpl.
  - done.
  - apply IH. by apply add_image_sorted.
Qed.

Lemma add_images_sorted_witness :
  sub_images (Sample.free_heap 0%nat) = []
  /\ sorted_by_offset
       (add_images 0%nat [1%nat; 3%nat; 2%nat] Sample.free_heap)
       (sub_images (add_images 0%nat [1%nat; 3%nat; 2%nat]
                      Sample.free_heap 0%nat)).
Proof.
  split; [reflexivity|].
  apply (add_images_sorted Sample.free_heap 0%nat [1%nat; 3%nat; 2%nat]).
  reflexivity.
Defined.

(** ** BinaryImage.update_offsets *)

Lemma foldl_min_spec (x : Z) (l : list Z) :
  (foldl Z.min x l = x \/ foldl Z.min x l ∈ l)
  /\ foldl Z.min x l <= x
  /\ Forall (fun y => foldl Z.min x l <= y) l.
Proof.
  revert x. induction l as [|y l IH]; intros x; simpl.
  - repeat split; [by left|lia|constructor].
  - destruct (IH (Z.min x y)) as (Hin & Hle & Hall).
    repeat split.
    + destruct Hin as [Heq|Hin].
      * rewrite Heq. destruct (Z.min_spec x y) as [[_ ->]|[_ ->]].
        -- by left.
        -- right. by left.
      * right. by right.
    + lia.
    + constructor; [lia|done].
Qed.

(** [min()] returns the least element, and fails only on an empty list. *)
Lemma min_list_Ok (l : list Z) (m : Z) :
  min_list l = Ok m <-> m ∈ l /\ Forall (fun y => m <= y) l.
Proof.
  destruct l as [|x l]; simpl.
  - split; [discriminate|]. intros [H _]. by apply elem_of_nil in H.
  - destruct (foldl_min_spec x l) as (Hin & Hle & Hall).
    split.
    + intros [= <-]. split.
      * destruct Hin as [->|Hin]; [by left|by right].
      * by constructor.
    + intros [Hm Hleast]. f_equal.
      assert (foldl Z.min x l ∈ x :: l) as Hin'.
      { destruct Hin as [->|Hin]; [by left|by right]. }
      rewrite Forall_forall in Hleast. specialize (Hleast _ Hin').
      assert (Forall (fun y => foldl Z.min x l <= y) (x :: l)) as Hall'
        by by constructor.
      rewrite Forall_forall in Hall'. specialize (Hall' _ Hm). lia.
Qed.

Lemma min_list_nonempty (l : list Z) :
  l <> [] -> exists m, min_list l = Ok m.
Proof. destruct l; [done|]. intros _. by eexists. Qed.

(** The loop [for image in self.sub_images: image.offset -= min_offset] on
    a list of distinct images. *)
Lemma subtract_offsets_spec (m : Z) (l : list ref) (h : heap) :
  NoDup l ->
  (forall c, c ∈ l ->
     foldl (subtract_offset m) h l c = with_offset (offset (h c) - m) (h c))
  /\ (forall r, r ∉ l -> foldl (subtract_offset m) h l r = h r).
Proof.
  revert h. induction l as [|c l IH]; intros h Hnd; simpl.
  - split; [|done]. intros c Hc. by apply elem_of_nil in Hc.
  - apply NoDup_cons in Hnd as [Hc Hnd].
    destruct (IH (subtract_offset m h c) Hnd) as [Hin Hout].
    split.
    + intros c' Hc'. apply elem_of_cons in Hc' as [->|Hc'].
      * rewrite Hout by done. unfold subtract_offset.
        by rewrite fn_lookup_insert.
      * rewrite Hin by done. unfold subtract_offset.
        rewrite fn_lookup_insert_ne; [done|]. by intros ->.
    + intros r Hr. apply not_elem_of_cons in Hr as [Hne Hr].
      rewrite Hout by done. unfold subtract_offset.
      by rewrite fn_lookup_insert_ne.
Qed.

(** What [update_offsets] leaves in the store when the node has children,
    its children are distinct images and the node is not among them. *)
Lemma update_offsets_store (h : heap) (self : ref) :
  sub_images (h self) <> [] ->
  NoDup (sub_images (h self)) ->
  self ∉ sub_images (h self) ->
  exists m h',
    update_offsets self h = (Ok tt, h')
    /\ min_list (offsets_of h (sub_images (h self))) = Ok m
    /\ (forall c, c ∈ sub_images (h self) ->
          h' c = with_offset (offset (h c) - m) (h c))
    /\ h' self = with_offset (offset (h self) + m) (h self)
    /\ (forall r, r <> self -> r ∉ sub_images (h self) -> h' r = h r).
Proof.
  intros Hne Hnd Hself.
  destruct (min_list_nonempty (offsets_of h (sub_images (h self)))) as [m Hm].
  { unfold offsets_of. by destruct (sub_images (h self)). }
  destruct (subtract_offsets_spec m (sub_images (h self)) h Hnd) as [Hin Hout].
  exists m. eexists. unfold update_offsets.
  fold (offsets_of h (sub_images (h self))).
  rewrite Hm. split; [done|]. split; [done|].
  repeat split.
  - intros c Hc. rewrite fn_lookup_insert_ne; [by apply Hin|].
    by intros ->.
  - rewrite fn_lookup_insert. by rewrite Hout.
  - intros r Hr Hr'. rewrite fn_lookup_insert_ne by done. by apply Hout.
Qed.

(** C7.  On a node with at least one child (the children being distinct
    images, none of them the node itself) [update_offsets] takes [m], the
    minimum child offset: the offset of one of the children, and no child's
    offset is below it.  It subtracts [m] from every child's offset and adds
    it to the node's own offset, and changes nothing else, so that
    afterwards one child has offset 0 and none a negative one. *)
Theorem update_offsets_absorbs_leading_gap (h : heap) (self : ref) :
  sub_images (h self) <> [] ->
  NoDup (sub_images (h self)) ->
  self ∉ sub_images (h self) ->
  exists m h',
    update_offsets self h = (Ok tt, h')
    /\ (exists c, c ∈ sub_images (h self) /\ offset (h c) = m)
    /\ (forall c, c ∈ sub_images (h self) -> m <= offset (h c))
    /\ (forall c, c ∈ sub_images (h self) ->
          h' c = with_offset (offset (h c) - m) (h c))
    /\ h' self = with_offset (offset (h self) + m) (h self)
    /\ (forall r, r <> self -> r ∉ sub_images (h self) -> h' r = h r)
    /\ (exists c, c ∈ sub_images (h' self) /\ offset (h' c) = 0)
    /\ (forall c, c ∈ sub_images (h' self) -> 0 <= offset (h' c)).
Proof.
  intros Hne Hnd Hself.
  destruct (update_offsets_store h self Hne Hnd Hself)
    as (m & h' & Hrun & Hm & Hchild & Hnode & Hother).
  apply min_list_Ok in Hm as [Hin Hleast]. unfold offsets_of in Hin, Hleast.
  apply list_elem_of_fmap in Hin as (c0 & Hc0 & Hin).
  rewrite Forall_fmap, Forall_forall in Hleast. simpl in Hleast.
  exists m, h'. repeat split; try done.
  - by exists c0.
  - rewrite Hnode. simpl. exists c0. split; [done|].
    rewrite (Hchild c0 Hin). simpl. lia.
  - rewrite Hnode. simpl. intros c Hc.
    rewrite (Hchild c Hc). simpl. specialize (Hleast c Hc). lia.
Qed.

(** On the scenario of the specification: the children at 10, 20, 30 of a
    root at offset 0 end at 0, 10, 20 and the root at offset 10. *)
Lemma update_offsets_absorbs_leading_gap_witness :
  sub_images (Sample.gap_heap 0%nat) = [1%nat; 2%nat; 3%nat]
  /\ exists h',
       update_offsets 0%nat Sample.gap_heap = (Ok tt, h')
       /\ offset (h' 1%nat) = 0 /\ offset (h' 2%nat) = 10
       /\ offset (h' 3%nat) = 20 /\ offset (h' 0%nat) = 10.
Proof.
  split; [reflexivity|].
  destruct (update_offsets_absorbs_leading_gap Sample.gap_heap 0%nat)
    as (m & h' & Hrun & (c0 & Hc0 & Hm) & Hleast & Hchild & Hnode & _).
  - discriminate.
  - simpl. apply (bool_decide_unpack _). vm_compute. reflexivity.
  - simpl. apply (bool_decide_unpack _). vm_compute. reflexivity.
  - assert (m = 10) as ->.
    { pose proof (Hleast 1%nat ltac:(simpl; by left)) as Hle.
      simpl in Hc0, Hle.
      rewrite !elem_of_cons, elem_of_nil in Hc0.
      destruct Hc0 as [->|[->|[->|[]]]]; simpl in Hm; lia. }
    exists h'. split; [exact Hrun|].
    rewrite (Hchild 1%nat), (Hchild 2%nat), (Hchild 3%nat), Hnode;
      [done|simpl..].
    + right. right. by left.
    + right. by left.
    + by left.
Defined.

(** The scenario of the specification: children at 10, 20, 30 under a root
    at offset 0 end at 0, 10, 20 and the root at offset 10. *)
Example update_offsets_gap_heap :
  let h' := snd (update_offsets 0%nat Sample.gap_heap) in
  fst (update_offsets 0%nat Sample.gap_heap) = Ok tt
  /\ offsets_of h' (sub_images (h' 0%nat)) = [0; 10; 20]
  /\ offset (h' 0%nat) = 10.
Proof. repeat split. Qed.

(** C10.  On a node without children [update_offsets] raises ([min()] of an
    empty sequence is a [ValueError]) before any assignment: the store, and
    with it the node's offset and its empty child list, is as it was. *)
Theorem update_offsets_no_children (h : heap) (self : ref) :
  sub_images (h self) = [] ->
  update_offsets self h = (Raise ValueError, h).
Proof. intros Hempty. unfold update_offsets. by rewrite Hempty. Qed.

Lemma update_offsets_no_children_witness :
  sub_images (Sample.free_heap 0%nat) = []
  /\ update_offsets 0%nat Sample.free_heap
     = (Raise ValueError, Sample.free_heap).
Proof.
  split; [reflexivity|].
  apply (update_offsets_no_children Sample.free_heap 0%nat). reflexivity.
Defined.

(** The subtraction loop assigns offsets only, and only to the images of
    the list. *)
Lemma subtract_offsets_other (m : Z) (l : list ref) (h : heap) (r : ref) :
  r ∉ l -> foldl (subtract_offset m) h l r = h r.
Proof.
  revert h. induction l as [|c l IH]; intros h Hr; simpl; [done|].
  apply not_elem_of_cons in Hr as [Hne Hr].
  rewrite IH by done. unfold subtract_offset.
  by rewrite fn_lookup_insert_ne.
Qed.

Lemma subtract_offsets_fields (m : Z) (l : list ref) (h : heap) (r : ref) :
  parent (foldl (subtract_offset m) h l r) = parent (h r)
  /\ _size (foldl (subtract_offset m) h l r) = _size (h r)
  /\ sub_images (foldl (subtract_offset m) h l r) = sub_images (h r).
Proof.
  revert h. induction l as [|c l IH]; intros h; simpl; [done|].
  destruct (IH (subtract_offset m h c)) as (-> & -> & ->).
  unfold subtract_offset. destruct (decide (c = r)) as [->|Hne].
  - by rewrite fn_lookup_insert.
  - by rewrite fn_lookup_insert_ne.
Qed.

(** A declared size is the length, whatever the children are. *)
Lemma len_declared (fuel : nat) (h : heap) (r : ref) :
  _size (h r) <> 0 -> len (S fuel) h r = len_result (_size (h r)).
Proof.
  intros Hsize. simpl. destruct (Z.eqb_spec (_size (h r)) 0); done.
Qed.

(** The absolute address of an image depends on the offsets along its
    parent chain and on the truth values of its ancestors only. *)
Lemma absolute_address_steady (fuel : nat) (h h' : heap) (avoid : list ref)
    (r : ref) :
  (forall x, parent (h' x) = parent (h x)) ->
  (forall x, x ∉ avoid -> offset (h' x) = offset (h x)) ->
  r ∉ avoid ->
  steady fuel h h' avoid r ->
  absolute_address fuel h' r = absolute_address fuel h r.
Proof.
  intros Hparent Hoffset. revert r.
  induction fuel as [|fuel IH]; intros r Hr Hsteady; simpl; [done|].
  simpl in Hsteady. rewrite Hparent, (Hoffset r Hr).
  destruct (parent (h r)) as [p|]; [|done].
  destruct Hsteady as (n & n' & -> & -> & Hiff & Hrest). simpl.
  destruct (Z.eqb_spec n 0) as [Hz|Hnz], (Z.eqb_spec n' 0) as [Hz'|Hnz'];
    simpl; try tauto.
  destruct (Hrest Hnz) as [Hp Hsteady]. by rewrite (IH p Hp Hsteady).
Qed.

(** Ancestors with declared sizes keep their truth values, whatever the
    offsets are. *)
Lemma anchored_steady (fuel : nat) (h h' : heap) (avoid : list ref)
    (r : ref) (a : Z) :
  (forall x, _size (h' x) = _size (h x)) ->
  anchored fuel h avoid r ->
  absolute_address fuel h r = Ok a ->
  steady fuel h h' avoid r.
Proof.
  intros Hsize. revert r a.
  induction fuel as [|fuel IH]; intros r a Hanch Ha; simpl; [done|].
  simpl in Hanch, Ha. destruct (parent (h r)) as [p|]; [|done].
  destruct Hanch as (Hp & Hp' & Hanch).
  apply bind_Ok in Ha as (n & Hn & Ha).
  destruct fuel as [|fuel]; [done|].
  exists n, n. split; [done|]. split.
  { rewrite len_declared in * by (by rewrite ?Hsize). by rewrite Hsize. }
  split; [done|]. intros Hnz. split; [done|].
  destruct (Z.eqb_spec n 0) as [?|_]; [done|]. simpl in Ha.
  apply bind_Ok in Ha as (ap & Hap & _). by eapply IH.
Qed.

(** C9, as amended.  [update_offsets] moves the node: with [m] the minimum
    child offset, the node's absolute address after the call is its absolute
    address before plus [m], and so the same only when [m = 0].  This holds
    when the call leaves the node's ancestors as they are: each ancestor
    that [absolute_address] goes through is neither the node nor one of its
    children and has the same truth value, a length of 0 or not, before
    and after. *)
Theorem update_offsets_moves_absolute_address (fuel : nat) (h : heap)
    (self : ref) (a : Z) :
  sub_images (h self) <> [] ->
  self ∉ sub_images (h self) ->
  steady fuel h (snd (update_offsets self h)) (self :: sub_images (h self))
    self ->
  absolute_address fuel h self = Ok a ->
  exists m h',
    update_offsets self h = (Ok tt, h')
    /\ (exists c, c ∈ sub_images (h self) /\ offset (h c) = m)
    /\ (forall c, c ∈ sub_images (h self) -> m <= offset (h c))
    /\ absolute_address fuel h' self = Ok (a + m)
    /\ (absolute_address fuel h' self = absolute_address fuel h self
        <-> m = 0).
Proof.
  intros Hne Hself Hsteady Ha.
  destruct (min_list_nonempty (offsets_of h (sub_images (h self)))) as [m Hm].
  { unfold offsets_of. by destruct (sub_images (h self)). }
  set (h1 := foldl (subtract_offset m) h (sub_images (h self))).
  set (h' := <[self:=with_offset (offset (h1 self) + m) (h1 self)]> h1).
  assert (update_offsets self h = (Ok tt, h')) as Hrun.
  { unfold update_offsets. fold (offsets_of h (sub_images (h self))).
    by rewrite Hm. }
  rewrite Hrun in Hsteady. simpl in Hsteady.
  assert (forall x, parent (h' x) = parent (h x)) as Hparent.
  { intros x. unfold h'. destruct (decide (self = x)) as [->|Hx].
    - rewrite fn_lookup_insert. simpl. apply subtract_offsets_fields.
    - rewrite fn_lookup_insert_ne by done. apply subtract_offsets_fields. }
  assert (forall x, x ∉ self :: sub_images (h self) ->
                    offset (h' x) = offset (h x)) as Hoffset.
  { intros x Hx. apply not_elem_of_cons in Hx as [Hx Hx'].
    unfold h'. rewrite fn_lookup_insert_ne by done.
    unfold h1. by rewrite subtract_offsets_other. }
  assert (offset (h' self) = offset (h self) + m) as Hmoved.
  { unfold h'. rewrite fn_lookup_insert. simpl.
    unfold h1. by rewrite subtract_offsets_other. }
  assert (absolute_address fuel h' self = Ok (a + m)) as Hafter.
  { destruct fuel as [|fuel]; [done|].
    simpl in Ha, Hsteady. simpl. rewrite Hparent, Hmoved.
    destruct (parent (h self)) as [p|].
    2: { injection Ha as <-. done. }
    destruct Hsteady as (n & n' & Hn & Hn' & Hiff & Hrest).
    rewrite Hn in Ha. rewrite Hn'. simpl in *.
    destruct (Z.eqb_spec n 0) as [Hz|Hnz], (Z.eqb_spec n' 0) as [Hz'|Hnz'];
      simpl in *; try tauto.
    - injection Ha as <-. done.
    - destruct (Hrest Hnz) as [Hp Hchain].
      rewrite (absolute_address_steady fuel h h'
                 (self :: sub_images (h self)) p Hparent Hoffset Hp Hchain).
      destruct (absolute_address fuel h p) as [ap|e]; [|done].
      simpl in *. injection Ha as <-. f_equal. lia. }
  apply min_list_Ok in Hm as [Hin Hleast]. unfold offsets_of in Hin, Hleast.
  apply list_elem_of_fmap in Hin as (c0 & Hc0 & Hin).
  rewrite Forall_fmap, Forall_forall in Hleast. simpl in Hleast.
  exists m, h'. split; [exact Hrun|]. split; [by exists c0|].
  split; [exact Hleast|]. split; [exact Hafter|].
  rewrite Hafter, Ha. split.
  - intros [= Heq]. lia.
  - intros ->. f_equal. lia.
Qed.

(** On a tree without declared sizes above the node: the node at absolute
    address 10 is at 20 after the call. *)
Lemma update_offsets_moves_absolute_address_witness :
  absolute_address 4 Sample.derived_heap 1%nat = Ok 10
  /\ exists h',
       update_offsets 1%nat Sample.derived_heap = (Ok tt, h')
       /\ absolute_address 4 h' 1%nat = Ok 20.
Proof.
  split; [reflexivity|].
  destruct (update_offsets_moves_absolute_address 4 Sample.derived_heap
              1%nat 10)
    as (m & h' & Hrun & (c0 & Hc0 & Hm) & Hleast & Hafter & _).
  - discriminate.
  - simpl. apply (bool_decide_unpack _). vm_compute. reflexivity.
  - simpl. exists 34, 34. split; [reflexivity|]. split; [reflexivity|].
    split; [done|]. intros _. split; [|exact I].
    apply (bool_decide_unpack _). vm_compute. reflexivity.
  - reflexivity.
  - assert (m = 10) as ->.
    { pose proof (Hleast 2%nat ltac:(simpl; by left)) as Hle.
      simpl in Hc0, Hle.
      rewrite !elem_of_cons, elem_of_nil in Hc0.
      destruct Hc0 as [->|[->|[]]]; simpl in Hm; lia. }
    exists h'. split; [exact Hrun|exact Hafter].
Defined.

(** C9, as stated, fails: the root of the sample, at absolute address 0
    before [update_offsets], is at absolute address 10 after it. *)
Lemma update_offsets_changes_absolute_address :
  absolute_address 2 Sample.gap_heap 0%nat = Ok 0
  /\ absolute_address 2 (snd (update_offsets 0%nat Sample.gap_heap)) 0%nat
     = Ok 10
  /\ absolute_address 2 (snd (update_offsets 0%nat Sample.gap_heap)) 0%nat
     <> absolute_address 2 Sample.gap_heap 0%nat.
Proof. repeat split. discriminate. Qed.

(** When the truth value of an ancestor changes, the address does not move
    by [m]: a node at offset -5 in a root of length 0 has absolute address
    -5; the call, with [m = 3], gives the root a length, and the node is at
    100 - 2 = 98. *)
Example update_offsets_flips_parent :
  len 2 Sample.flip_heap 0%nat = Ok 0
  /\ absolute_address 3 Sample.flip_heap 1%nat = Ok (-5)
  /\ len 2 (snd (update_offsets 1%nat Sample.flip_heap)) 0%nat = Ok 3
  /\ absolute_address 3 (snd (update_offsets 1%nat Sample.flip_heap)) 1%nat
     = Ok 98.
Proof. repeat split. Qed.

(** ** BinaryImage.validate: the overlap check *)

Lemma ranges_intersect_iff (o1 l1 o2 l2 : Z) :
  0 < l1 -> 0 < l2 ->
  ranges_intersect o1 l1 o2 l2 <-> o1 < o2 + l2 /\ o2 < o1 + l1.
Proof.
  intros H1 H2. unfold ranges_intersect. split.
  - intros (x & Hx1 & Hx2). lia.
  - intros [Ha Hb]. exists (Z.max o1 o2). lia.
Qed.

(** The test of [validate] on inclusive ends is the disjointness of the
    half-open ranges. *)
Lemma disjoint_test (o1 l1 o2 l2 : Z) :
  0 < l1 -> 0 < l2 ->
  if (o1 + l1 - 1 <? o2) || (o1 >? o2 + l2 - 1)
  then ~ ranges_intersect o1 l1 o2 l2
  else ranges_intersect o1 l1 o2 l2.
Proof.
  intros H1 H2.
  destruct ((o1 + l1 - 1 <? o2) || (o1 >? o2 + l2 - 1)) eqn:Htest;
    rewrite ranges_intersect_iff by done.
  - rewrite orb_true_iff, Z.ltb_lt, Z.gtb_gt in Htest. lia.
  - rewrite orb_false_iff, Z.ltb_ge, Z.gtb_ltb, Z.ltb_ge in Htest. lia.
Qed.

Lemma validate_S (fuel : nat) (h : heap) (self : ref) :
  validate (S fuel) h self =
    if offset (h self) <? 0 then
      image_name fuel h self;;
      Raise (SPSDKValueError (NegativeOffset self))
    else
      n ← len fuel h self;
      if n <=? 0 then
        image_name fuel h self;;
        Raise (SPSDKValueError (NonPositiveSize self))
      else
        for_each
          (fun image =>
             validate fuel h image;;
             n ← len fuel h image;
             m ← len fuel h self;
             if offset (h image) + n - 1 >? m then
               Raise (SPSDKOverlapError (DoesNotFit image self))
             else for_each (sibling_check fuel h image n) (sub_images (h self)))
          (sub_images (h self)).
Proof. reflexivity. Qed.

(** *** What the calls of validate can raise *)

Lemma bind_Raise {A B} (m : outcome A) (f : A -> outcome B) (e : exn) :
  m ≫= f = Raise e <-> m = Raise e \/ exists a, m = Ok a /\ f a = Raise e.
Proof.
  destruct m as [a|e']; simpl; split.
  - intros H. right. by exists a.
  - intros [?|(a' & [= <-] & Ha)]; done.
  - intros [= ->]. by left.
  - intros [[= ->]|(a' & ? & _)]; done.
Qed.

Lemma for_fold_Raise {A S} (body : S -> A -> outcome S) (l : list A) (s : S)
    (e : exn) :
  for_fold body l s = Raise e -> exists s' x, x ∈ l /\ body s' x = Raise e.
Proof.
  revert s. induction l as [|x l IH]; intros s; simpl; [done|].
  intros H. apply bind_Raise in H as [H|(s' & Hx & Hrest)].
  - exists s, x. split; [by left|done].
  - destruct (IH _ Hrest) as (s0 & y & Hy & Hbody).
    exists s0, y. split; [by right|done].
Qed.

(** The exceptions of the interpreter, as opposed to the library's. *)
Lemma len_Raise (fuel : nat) (h : heap) (r : ref) (e : exn) :
  len fuel h r = Raise e -> e = ValueError \/ e = RecursionError.
Proof.
  revert r. induction fuel as [|fuel IH]; intros r; simpl.
  - intros [= <-]. by right.
  - intros H. apply bind_Raise in H as [H|(m & _ & Hm)].
    + destruct (negb (_size (h r) =? 0)); [done|].
      apply for_fold_Raise in H as (s & c & _ & Hc).
      apply bind_Raise in Hc as [Hc|(k & _ & Hc)]; [by eapply IH|done].
    + unfold len_result in Hm. destruct (m <? 0); [|done].
      injection Hm as Hm. left. by rewrite <- Hm.
Qed.

Lemma image_name_Raise (fuel : nat) (h : heap) (r : ref) (e : exn) :
  image_name fuel h r = Raise e -> e = ValueError \/ e = RecursionError.
Proof.
  revert r. induction fuel as [|fuel IH]; intros r; simpl.
  - intros [= <-]. by right.
  - destruct (parent (h r)) as [p|]; [|done].
    intros H. apply bind_Raise in H as [H|(n & _ & Hn)];
      [by eapply len_Raise|].
    destruct (negb (n =? 0)); [|done].
    apply bind_Raise in Hn as [Hp|(s & _ & Hp)]; [by eapply IH|done].
Qed.

Lemma absolute_address_Raise (fuel : nat) (h : heap) (r : ref) (e : exn) :
  absolute_address fuel h r = Raise e -> e = ValueError \/ e = RecursionError.
Proof.
  revert r. induction fuel as [|fuel IH]; intros r; simpl.
  - intros [= <-]. by right.
  - destruct (parent (h r)) as [p|]; [|done].
    intros H. apply bind_Raise in H as [H|(n & _ & Hn)];
      [by eapply len_Raise|].
    destruct (negb (n =? 0)); [|done].
    apply bind_Raise in Hn as [Hp|(s & _ & Hp)]; [by eapply IH|done].
Qed.

Lemma info_Raise (fuel : nat) (h : heap) (r : ref) (e : exn) :
  info fuel h r = Raise e -> e = ValueError \/ e = RecursionError.
Proof.
  destruct fuel as [|fuel]; simpl.
  - intros [= <-]. by right.
  - intros H.
    apply bind_Raise in H as [H|(n & _ & H1)]; [by eapply len_Raise|].
    apply bind_Raise in H1 as [H1|(s & _ & H2)];
      [by eapply image_name_Raise|].
    apply bind_Raise in H2 as [H2|(a & _ & H3)];
      [by eapply absolute_address_Raise|].
    apply bind_Raise in H3 as [H3|(a' & _ & H4)];
      [by eapply absolute_address_Raise|done].
Qed.

Lemma validate_Ok_own (fuel : nat) (h : heap) (r : ref) :
  validate fuel h r = Ok tt ->
  0 <= offset (h r) /\ exists n, len fuel h r = Ok n /\ 0 < n.
Proof.
  destruct fuel as [|fuel]; [done|]. rewrite validate_S.
  destruct (Z.ltb_spec (offset (h r)) 0) as [|Hoff].
  { intros Hv. apply bind_Ok in Hv as (? & _ & ?). done. }
  intros Hv. apply bind_Ok in Hv as (n & Hn & Hrest).
  destruct (Z.leb_spec n 0) as [|Hpos].
  { apply bind_Ok in Hrest as (? & _ & ?). done. }
  split; [done|]. exists n. split; [by apply len_S|done].
Qed.

Section OverlapCheck.

Variables (fuel : nat) (h : heap) (self : ref) (n : Z).
Hypothesis offset_ok : 0 <= offset (h self).
Hypothesis len_self : len fuel h self = Ok n.
Hypothesis len_ok : 0 < n.
Hypothesis children_ok : children_pass fuel h self n.

Lemma validate_reaches_checks :
  validate (S fuel) h self =
    for_each
      (fun image =>
         n ← len fuel h image;
         for_each (sibling_check fuel h image n) (sub_images (h self)))
      (sub_images (h self)).
Proof.
  rewrite validate_S.
  destruct (Z.ltb_spec (offset (h self)) 0); [lia|].
  rewrite len_self. simpl.
  destruct (Z.leb_spec n 0); [lia|].
  apply for_each_ext.
  eapply Forall_impl; [exact children_ok|]. simpl.
  intros c (Hvalid & _ & k & Hk & Hpos & Hfit).
  rewrite Hvalid, Hk. simpl.
  destruct (Z.gtb_spec (offset (h c) + k - 1) n); [lia|done].
Qed.

Lemma check_Ok (image sibling : ref) (k k' : Z) :
  len fuel h sibling = Ok k' -> 0 < k -> 0 < k' ->
  sibling_check fuel h image k sibling = Ok tt
  <-> ~ (sibling <> image
         /\ ranges_intersect (offset (h image)) k (offset (h sibling)) k').
Proof.
  intros Hk' Hpos Hpos'. unfold sibling_check. case_bool_decide as Hne.
  - rewrite Hk'. simpl.
    pose proof (disjoint_test (offset (h image)) k (offset (h sibling)) k'
                  Hpos Hpos') as Htest.
    destruct ((offset (h image) + k - 1 <? offset (h sibling))
              || (offset (h image) >? offset (h sibling) + k' - 1)).
    + split; [|done]. by intros _ [_ Hi].
    + split; [|intros Hno; exfalso; by apply Hno].
      intros Hrun. exfalso.
      destruct (info fuel h image) as [[]|?]; [|done].
      destruct (info fuel h sibling) as [[]|?]; done.
  - split; [|done]. by intros _ [Hne' _].
Qed.

Lemma check_Raise (image sibling : ref) (k : Z) (e : exn) :
  sibling_check fuel h image k sibling = Raise e ->
  image ∈ sub_images (h self) ->
  sibling ∈ sub_images (h self) -> 0 < k ->
  e = SPSDKOverlapError (Overlap image sibling)
  /\ sibling <> image
  /\ exists k', len fuel h sibling = Ok k'
       /\ ranges_intersect (offset (h image)) k (offset (h sibling)) k'.
Proof.
  intros Hcheck Himage Hin Hpos.
  unfold children_pass in children_ok. rewrite Forall_forall in children_ok.
  destruct (children_ok _ Hin) as (_ & Hinfo' & k' & Hk' & Hpos' & _).
  destruct (children_ok _ Himage) as (_ & Hinfo & _).
  unfold sibling_check in Hcheck. case_bool_decide as Hne; [|done].
  rewrite Hk', Hinfo, Hinfo' in Hcheck. simpl in Hcheck.
  pose proof (disjoint_test (offset (h image)) k (offset (h sibling)) k'
                Hpos Hpos') as Htest.
  destruct ((offset (h image) + k - 1 <? offset (h sibling))
            || (offset (h image) >? offset (h sibling) + k' - 1)); [done|].
  injection Hcheck as <-. repeat split; [done|].
  by exists k'.
Qed.

End OverlapCheck.

(** An overlap error, wherever in the tree it is raised, names a valid
    image and a sibling of it that fail the test on inclusive ends. *)
Lemma overlap_error_sound (fuel : nat) (h : heap) (self a b : ref) :
  validate fuel h self = Raise (SPSDKOverlapError (Overlap a b)) ->
  b <> a
  /\ exists p f ka kb,
       a ∈ sub_images (h p) /\ b ∈ sub_images (h p)
       /\ validate f h a = Ok tt
       /\ len f h a = Ok ka /\ 0 < ka /\ len f h b = Ok kb
       /\ offset (h b) <= offset (h a) + ka - 1
       /\ offset (h a) <= offset (h b) + kb - 1.
Proof.
  assert (forall e, e = ValueError \/ e = RecursionError ->
            e <> SPSDKOverlapError (Overlap a b)) as Hclass.
  { intros e [->| ->]; done. }
  revert self. induction fuel as [|fuel IH]; intros self; [done|].
  rewrite validate_S. intros Hrun.
  destruct (offset (h self) <? 0).
  { apply bind_Raise in Hrun as [Hname|(? & _ & ?)]; [|done].
    destruct (Hclass _ (image_name_Raise _ _ _ _ Hname) eq_refl). }
  apply bind_Raise in Hrun as [Hlen|(n & Hn & Hrun)].
  { destruct (Hclass _ (len_Raise _ _ _ _ Hlen) eq_refl). }
  destruct (n <=? 0).
  { apply bind_Raise in Hrun as [Hname|(? & _ & ?)]; [|done].
    destruct (Hclass _ (image_name_Raise _ _ _ _ Hname) eq_refl). }
  apply for_each_Raise in Hrun as (image & Himage & Hbody).
  apply bind_Raise in Hbody as [Hchild|([] & Hvalid & Hbody)];
    [by eapply IH|].
  apply bind_Raise in Hbody as [Hlen|(k & Hk & Hbody)].
  { destruct (Hclass _ (len_Raise _ _ _ _ Hlen) eq_refl). }
  rewrite Hn in Hbody. simpl in Hbody.
  destruct (offset (h image) + k - 1 >? n); [done|].
  apply for_each_Raise in Hbody as (sibling & Hsibling & Hcheck).
  unfold sibling_check in Hcheck. case_bool_decide as Hother; [|done].
  apply bind_Raise in Hcheck as [Hlen|(k' & Hk' & Hcheck)].
  { destruct (Hclass _ (len_Raise _ _ _ _ Hlen) eq_refl). }
  destruct ((offset (h image) + k - 1 <? offset (h sibling))
            || (offset (h image) >? offset (h sibling) + k' - 1))
    eqn:Htest; [done|].
  apply bind_Raise in Hcheck as [Hinfo|([] & _ & Hcheck)].
  { destruct (Hclass _ (info_Raise _ _ _ _ Hinfo) eq_refl). }
  apply bind_Raise in Hcheck as [Hinfo|([] & _ & Hcheck)].
  { destruct (Hclass _ (info_Raise _ _ _ _ Hinfo) eq_refl). }
  injection Hcheck as <- <-.
  apply orb_false_iff in Htest as [Hleft Hright].
  apply Z.ltb_ge in Hleft. rewrite Z.gtb_ltb in Hright.
  apply Z.ltb_ge in Hright.
  pose proof (validate_Ok_own _ _ _ Hvalid) as (_ & k0 & Hk0 & Hpos).
  rewrite Hk in Hk0. injection Hk0 as <-.
  split; [done|]. exists self, fuel, k, k'. repeat split; done || lia.
Qed.

(** C5, as amended.  Whenever [validate] raises an overlap error, the two
    images it names are distinct children of one image, the first of them
    valid, and if the second has bytes their half-open ranges intersect; a
    second without bytes is reported when it lies behind the first and
    within the last byte of the first.  And for a parent that passes its own
    checks and whose children are all valid on their own, pass the fit check
    and can be described by [info], so that validation gets to compare them
    and to report: [validate] raises an overlap error exactly when two
    distinct children have intersecting half-open ranges, the pair it names
    is such a pair, and it returns when there is none; adjacent children,
    [offset2 = offset1 + length1], do not intersect. *)
Theorem validate_overlap_iff (fuel : nat) (h : heap) (self : ref) :
  (forall a b,
     validate (S fuel) h self = Raise (SPSDKOverlapError (Overlap a b)) ->
     b <> a
     /\ exists p f ka kb,
          a ∈ sub_images (h p) /\ b ∈ sub_images (h p)
          /\ validate f h a = Ok tt
          /\ len f h a = Ok ka /\ 0 < ka /\ len f h b = Ok kb
          /\ (0 < kb ->
              ranges_intersect (offset (h a)) ka (offset (h b)) kb)
          /\ (kb = 0 ->
              offset (h a) < offset (h b) <= offset (h a) + ka - 1))
  /\ (forall n,
        0 <= offset (h self) ->
        len fuel h self = Ok n ->
        0 < n ->
        children_pass fuel h self n ->
        (forall a b,
           validate (S fuel) h self = Raise (SPSDKOverlapError (Overlap a b)) ->
           overlapping_siblings fuel h self a b)
        /\ ((exists a b, overlapping_siblings fuel h self a b) <->
            (exists a b,
               validate (S fuel) h self
               = Raise (SPSDKOverlapError (Overlap a b))))
        /\ ((~ exists a b, overlapping_siblings fuel h self a b) <->
            validate (S fuel) h self = Ok tt)
        /\ (forall a b ka,
              len fuel h a = Ok ka -> offset (h b) = offset (h a) + ka ->
              ~ overlapping_siblings fuel h self a b)).
Proof.
  split.
  { intros a b Hrun.
    destruct (overlap_error_sound _ _ _ _ _ Hrun)
      as (Hne & p & f & ka & kb & Ha & Hb & Hvalid & Hka & Hpos & Hkb
          & Hbegin & Hend).
    split; [done|]. exists p, f, ka, kb. repeat split; try done; try lia.
    intros Hpos'. apply ranges_intersect_iff; lia. }
  intros n Hoff Hlen Hpos Hchildren.
  pose proof (validate_reaches_checks fuel h self n Hoff Hlen Hpos Hchildren)
    as Hrun.
  pose proof Hchildren as Hall. unfold children_pass in Hall.
  rewrite Forall_forall in Hall.
  assert (forall e, validate (S fuel) h self = Raise e ->
            exists a b, e = SPSDKOverlapError (Overlap a b)
                        /\ overlapping_siblings fuel h self a b) as Hraise.
  { intros e He. rewrite Hrun in He.
    apply for_each_Raise in He as (a & Ha & He).
    destruct (Hall a Ha) as (_ & _ & ka & Hka & Hposa & _).
    rewrite Hka in He. simpl in He.
    apply for_each_Raise in He as (b & Hb & He).
    apply (check_Raise fuel h self n Hchildren) in He
      as (-> & Hne & kb & Hkb & Hi); [|done|done|done].
    exists a, b. split; [done|]. repeat split; [done|done|done|].
    by exists ka, kb. }
  assert (validate (S fuel) h self = Ok tt ->
          ~ exists a b, overlapping_siblings fuel h self a b) as Hok.
  { intros Hv (a & b & Ha & Hb & Hne & ka & kb & Hka & Hkb & Hi).
    rewrite Hrun in Hv. apply for_each_Ok in Hv.
    rewrite Forall_forall in Hv. specialize (Hv a Ha).
    rewrite Hka in Hv. simpl in Hv. apply for_each_Ok in Hv.
    rewrite Forall_forall in Hv. specialize (Hv b Hb).
    destruct (Hall a Ha) as (_ & _ & ka' & Hka' & Hposa & _).
    destruct (Hall b Hb) as (_ & _ & kb' & Hkb' & Hposb & _).
    rewrite Hka in Hka'. injection Hka' as <-.
    rewrite Hkb in Hkb'. injection Hkb' as <-.
    apply (check_Ok fuel h a b ka kb Hkb Hposa Hposb) in Hv.
    apply Hv. split; [by intros ->|done]. }
  split; [|split; [|split]].
  - intros a b He. destruct (Hraise _ He) as (a' & b' & Heq & Hov).
    by simplify_eq.
  - split.
    + intros Hex. destruct (validate (S fuel) h self) as [[]|e] eqn:Hv.
      * exfalso. by apply Hok.
      * destruct (Hraise e eq_refl) as (a & b & -> & _). by exists a, b.
    + intros (a & b & He). destruct (Hraise _ He) as (a' & b' & _ & Hov).
      by exists a', b'.
  - split.
    + intros Hno. destruct (validate (S fuel) h self) as [[]|e] eqn:Hv; [done|].
      destruct (Hraise e eq_refl) as (a & b & _ & Hov).
      exfalso. apply Hno. by exists a, b.
    + done.
  - intros a b ka Hka Hadj (Ha & Hb & Hne & ka' & kb & Hka' & Hkb & Hi).
    rewrite Hka in Hka'. injection Hka' as <-.
    destruct Hi as (x & Hx1 & Hx2). lia.
Qed.

Lemma validate_overlap_iff_witness :
  len 3 (Sample.two_children 4) 0%nat = Ok 16
  /\ children_pass 3 (Sample.two_children 4) 0%nat 16
  /\ validate 4 (Sample.two_children 4) 0%nat
     = Raise (SPSDKOverlapError (Overlap 1%nat 2%nat))
  /\ overlapping_siblings 3 (Sample.two_children 4) 0%nat 1%nat 2%nat.
Proof.
  assert (children_pass 3 (Sample.two_children 4) 0%nat 16) as Hpass.
  { unfold children_pass. simpl.
    repeat constructor; [exists 8|exists 8]; repeat split; simpl; lia. }
  split; [reflexivity|]. split; [exact Hpass|]. split; [reflexivity|].
  destruct (validate_overlap_iff 3 (Sample.two_children 4) 0%nat)
    as [_ Hiff].
  destruct (Hiff 16) as (Hnamed & _).
  - simpl. lia.
  - reflexivity.
  - lia.
  - exact Hpass.
  - apply Hnamed. reflexivity.
Defined.

(** C5, as stated, fails: the two children of the sample have positive
    lengths and their ranges [0, 8) and [4, 12) intersect, but [validate]
    raises no overlap error: it stops at the child of the first, at offset
    -1, with a value error. *)
Lemma validate_overlap_unreported :
  len 5 Sample.grandchild_heap 1%nat = Ok 8
  /\ len 5 Sample.grandchild_heap 2%nat = Ok 8
  /\ overlapping_siblings 5 Sample.grandchild_heap 0%nat 1%nat 2%nat
  /\ validate 6 Sample.grandchild_heap 0%nat
     = Raise (SPSDKValueError (NegativeOffset 3%nat))
  /\ ~ exists a b,
        validate 6 Sample.grandchild_heap 0%nat
        = Raise (SPSDKOverlapError (Overlap a b)).
Proof.
  split; [reflexivity|]. split; [reflexivity|]. split.
  { unfold overlapping_siblings. simpl.
    split; [by left|]. split; [right; by left|]. split; [done|].
    exists 8, 8. split; [reflexivity|]. split; [reflexivity|].
    exists 4. lia. }
  split; [reflexivity|].
  intros (a & b & Hrun). vm_compute in Hrun. discriminate.
Qed.

(** The scenarios of the specification: children [0, 8) and [4, 12) of a
    parent of size 16 overlap; children [0, 8) and [8, 16) are adjacent and
    pass. *)
Example validate_two_children :
  validate 4 (Sample.two_children 4) 0%nat
  = Raise (SPSDKOverlapError (Overlap 1%nat 2%nat))
  /\ validate 4 (Sample.two_children 8) 0%nat = Ok tt.
Proof. split; reflexivity. Qed.

(** ** Overlays *)

(** An overlay that lies inside the buffer replaces the bytes of its range
    and nothing else. *)
Lemma overlay_inside (ret d : bytes) (o : Z) :
  0 <= o -> o + blen d <= blen ret ->
  overlay ret (o, d)
  = take (Z.to_nat o) ret ++ d ++ drop (Z.to_nat o + length d) ret.
Proof.
  intros Ho Hend. unfold overlay, setslice. simpl.
  pose proof (blen_nonneg d).
  rewrite !slice_index_inside by lia.
  rewrite Z.max_r by lia.
  replace (Z.to_nat (o + blen d)) with (Z.to_nat o + length d)%nat; [done|].
  unfold blen. lia.
Qed.

Lemma overlay_length (ret d : bytes) (o : Z) :
  0 <= o -> o + blen d <= blen ret -> blen (overlay ret (o, d)) = blen ret.
Proof.
  intros Ho Hend. unfold overlay. rewrite blen_setslice. simpl.
  pose proof (blen_nonneg d).
  rewrite !slice_index_inside by lia. lia.
Qed.

Lemma overlay_lookup (ret d : bytes) (o : Z) (i : nat) :
  0 <= o -> o + blen d <= blen ret ->
  overlay ret (o, d) !! i
  = if decide (o <= Z.of_nat i < o + blen d)
    then d !! (i - Z.to_nat o)%nat
    else ret !! i.
Proof.
  intros Ho Hend. rewrite overlay_inside by done.
  assert (length (take (Z.to_nat o) ret) = Z.to_nat o) as Htake.
  { rewrite length_take. unfold blen in *. lia. }
  unfold blen in *.
  destruct (decide (o <= Z.of_nat i < o + Z.of_nat (length d))) as [Hin|Hout].
  - rewrite lookup_app_r by lia. rewrite Htake.
    rewrite lookup_app_l by lia. done.
  - destruct (decide (Z.of_nat i < o)) as [Hlt|Hge].
    + rewrite lookup_app_l by lia. rewrite lookup_take_lt by lia. done.
    + rewrite lookup_app_r by lia. rewrite Htake.
      rewrite lookup_app_r by lia. rewrite lookup_drop. f_equal. lia.
Qed.

Lemma overlays_length (ret : bytes) (pieces : list (Z * bytes)) :
  Forall (fun p => 0 <= p.1 /\ p.1 + blen p.2 <= blen ret) pieces ->
  blen (foldl overlay ret pieces) = blen ret.
Proof.
  revert ret. induction pieces as [|[o d] pieces IH]; intros ret Hall; [done|].
  apply Forall_cons in Hall as [[Ho Hend] Hall]. simpl in *.
  rewrite IH; rewrite overlay_length by done; done.
Qed.

(** The overlays that do not reach position [i] leave it as it was. *)
Lemma overlays_lookup_skip (ret : bytes) (pieces : list (Z * bytes)) (i : nat) :
  Forall (fun p => 0 <= p.1 /\ p.1 + blen p.2 <= blen ret) pieces ->
  Forall (fun p => ~ (p.1 <= Z.of_nat i < p.1 + blen p.2)) pieces ->
  foldl overlay ret pieces !! i = ret !! i.
Proof.
  revert ret. induction pieces as [|[o d] pieces IH]; intros ret Hall Hskip;
    [done|].
  apply Forall_cons in Hall as [[Ho Hend] Hall].
  apply Forall_cons in Hskip as [Hi Hskip]. simpl in *.
  rewrite IH; [|by rewrite overlay_length|done].
  rewrite overlay_lookup by done. by rewrite decide_False.
Qed.

(** The last overlay that reaches position [i] decides its byte. *)
Lemma overlays_lookup_top (ret : bytes) (before after : list (Z * bytes))
    (p : Z * bytes) (i : nat) :
  Forall (fun q => 0 <= q.1 /\ q.1 + blen q.2 <= blen ret)
         (before ++ p :: after) ->
  p.1 <= Z.of_nat i < p.1 + blen p.2 ->
  Forall (fun q => ~ (q.1 <= Z.of_nat i < q.1 + blen q.2)) after ->
  foldl overlay ret (before ++ p :: after) !! i
  = p.2 !! (i - Z.to_nat p.1)%nat.
Proof.
  intros Hall Hi Hskip. rewrite foldl_app. simpl.
  apply Forall_app in Hall as [Hbefore Hall].
  apply Forall_cons in Hall as [[Ho Hend] Hafter].
  pose proof (overlays_length ret before Hbefore) as Hlen.
  destruct p as [o d]. simpl in *.
  rewrite overlays_lookup_skip; [| |done].
  - rewrite overlay_lookup by lia. by rewrite decide_True.
  - rewrite overlay_length by lia. by rewrite Hlen.
Qed.

Lemma overlay_nothing (ret : bytes) : overlay ret (0, []) = ret.
Proof.
  unfold overlay, setslice. cbn [fst snd]. change (blen []) with 0.
  rewrite Z.add_0_r.
  rewrite slice_index_inside by (pose proof (blen_nonneg ret); lia).
  rewrite Z.max_id. done.
Qed.

(** The content step is an overlay at position 0. *)
Lemma with_content_overlay (o : BinaryImage) (ret : bytes) :
  with_content o ret = overlay ret (0, default [] (binary o)).
Proof.
  unfold with_content. destruct (binary o) as [b|]; simpl.
  - case_bool_decide as Hb; [|done]. subst b. by rewrite overlay_nothing.
  - by rewrite overlay_nothing.
Qed.

Lemma with_content_length (o : BinaryImage) (ret : bytes) :
  binary_len o <= blen ret -> blen (with_content o ret) = blen ret.
Proof.
  intros Hlen. rewrite with_content_overlay.
  apply overlay_length; [done|]. rewrite <- binary_len_default. lia.
Qed.

(** ** BinaryImage.export *)

Lemma Forall_exists_Forall2 {A B} (Q : A -> B -> Prop) (l : list A) :
  Forall (fun x => exists y, Q x y) l -> exists k, Forall2 Q l k.
Proof.
  induction 1 as [|x l [y Hy] _ [k Hk]].
  - exists []. constructor.
  - exists (y :: k). by constructor.
Qed.

Lemma for_fold_overlays {A} (body : bytes -> A -> outcome bytes)
    (l : list A) (pieces : list (Z * bytes)) (ret : bytes) :
  Forall2 (fun c p => forall ret', body ret' c = Ok (overlay ret' p))
          l pieces ->
  for_fold body l ret = Ok (foldl overlay ret pieces).
Proof.
  intros Hall. revert ret.
  induction Hall as [|c p l pieces Hc _ IH]; intros ret; simpl; [done|].
  rewrite Hc. simpl. apply IH.
Qed.

Lemma zero_bytes_Ok (n : Z) :
  0 <= n -> exists bg, zero_bytes n = Ok bg /\ blen bg = n.
Proof.
  intros Hn. unfold zero_bytes. destruct (Z.ltb_spec n 0); [lia|].
  eexists; split; [done|]. unfold blen. rewrite length_replicate. lia.
Qed.

Section ExportFacts.

Variable value_to_bytes : string -> outcome bytes.
Variable random_bytes : Z -> bytes.

(** The random source hands out as many bytes as it is asked for. *)
Hypothesis random_bytes_length :
  forall n, 0 <= n -> blen (random_bytes n) = n.

Lemma export_S (fuel : nat) (h : heap) (self : ref) :
  export value_to_bytes random_bytes (S fuel) h self =
    n ← len fuel h self;
    ret ← match pattern (h self) with
          | Some p => get_block value_to_bytes random_bytes p n
          | None => zero_bytes n
          end;
    for_fold
      (fun ret image =>
         data ← export value_to_bytes random_bytes fuel h image;
         n ← len fuel h image;
         m ← len fuel h image;
         Ok (setslice ret (offset (h image)) (offset (h image) + m)
               (getslice_to data n)))
      (sub_images (h self)) (with_content (h self) ret).
Proof. reflexivity. Qed.

Lemma get_block_special (p : BinaryPattern) (n : Z) :
  0 <= n -> _pattern p ∈ SPECIAL_PATTERNS ->
  exists bg, get_block value_to_bytes random_bytes p n = Ok bg /\ blen bg = n.
Proof.
  intros Hn Hp. unfold SPECIAL_PATTERNS in Hp.
  apply elem_of_cons in Hp as [Hrand|Hp].
  - unfold get_block. rewrite Hrand. simpl.
    destruct (Z.ltb_spec n 0); [lia|].
    eexists; split; [done|]. by apply random_bytes_length.
  - by apply get_block_token.
Qed.

Lemma get_block_fills (p : BinaryPattern) (n : Z) :
  0 <= n -> pattern_fills value_to_bytes p n ->
  exists bg, get_block value_to_bytes random_bytes p n = Ok bg /\ blen bg = n.
Proof.
  intros Hn [Hp|(lit & Hlit & Hne & Hmod)]; [by apply get_block_special|].
  destruct (decide (_pattern p ∈ SPECIAL_PATTERNS)) as [Hp|Hp];
    [by apply get_block_special|].
  destruct (get_block_literal value_to_bytes random_bytes p n lit
              Hn Hp Hlit Hne) as [Hrun Hlen].
  eexists; split; [exact Hrun|]. rewrite Hlen.
  assert (0 < blen lit).
  { unfold blen. destruct lit; [done|simpl; lia]. }
  pose proof (Z.div_mod n (blen lit)). lia.
Qed.

Lemma background_Ok (o : BinaryImage) (n : Z) :
  0 <= n -> background_fills value_to_bytes o n ->
  exists bg,
    match pattern o with
    | Some p => get_block value_to_bytes random_bytes p n
    | None => zero_bytes n
    end = Ok bg
    /\ blen bg = n.
Proof.
  intros Hn Hfill. unfold background_fills in Hfill.
  destruct (pattern o) as [p|].
  - by apply get_block_fills.
  - by apply zero_bytes_Ok.
Qed.

(** The export of an image that holds its content and children within its
    length: the background block, the content laid over it, and the exports
    of the children laid over that in list order, each at its offset. *)
Lemma export_placed (d : nat) (h : heap) (self : ref) (f : nat) :
  placed value_to_bytes d h self -> (d <= f)%nat ->
  exists n bg pieces,
    len f h self = Ok n
    /\ match pattern (h self) with
       | Some p => get_block value_to_bytes random_bytes p n
       | None => zero_bytes n
       end = Ok bg
    /\ blen bg = n
    /\ binary_len (h self) <= n
    /\ Forall2 (fun c p =>
                  p.1 = offset (h c)
                  /\ export value_to_bytes random_bytes f h c = Ok p.2
                  /\ len f h c = Ok (blen p.2))
               (sub_images (h self)) pieces
    /\ Forall (fun p => 0 <= p.1 /\ p.1 + blen p.2 <= n) pieces
    /\ export value_to_bytes random_bytes (S f) h self
       = Ok (foldl overlay (with_content (h self) bg) pieces)
    /\ blen (foldl overlay (with_content (h self) bg) pieces) = n.
Proof.
  revert h self f. induction d as [|d IH]; intros h self f Hplaced Hle;
    [done|].
  destruct Hplaced as [(n & Hn & Hfill & Hbin & Hkids) Hsub].
  destruct f as [|f]; [lia|].
  assert (len (S f) h self = Ok n) as Hlen by (eapply len_mono; [|done]; lia).
  pose proof (len_nonneg _ _ _ _ Hlen) as Hnn.
  destruct (background_Ok (h self) n Hnn Hfill) as (bg & Hbg & Hbglen).
  assert (Forall (fun c => exists p : Z * bytes,
                    (p.1 = offset (h c)
                     /\ export value_to_bytes random_bytes (S f) h c = Ok p.2
                     /\ len (S f) h c = Ok (blen p.2))
                    /\ (0 <= p.1 /\ p.1 + blen p.2 <= n))
                 (sub_images (h self))) as Hpieces.
  { rewrite Forall_forall in Hkids, Hsub. apply Forall_forall. intros c Hc.
    destruct (Hkids c Hc) as (k & Hk & Hoff & Hend).
    destruct (IH h c f (Hsub c Hc) ltac:(lia))
      as (nc & bgc & pc & Hnc & _ & _ & _ & _ & _ & Hexp & Hexplen).
    assert (len f h c = Ok k) as Hk' by (eapply len_mono; [|done]; lia).
    rewrite Hk' in Hnc. injection Hnc as <-.
    eexists (offset (h c), _). simpl. rewrite Hexplen.
    repeat split; [exact Hexp| |done|done].
    by apply len_S. }
  apply Forall_exists_Forall2 in Hpieces as [pieces Hpieces].
  exists n, bg, pieces.
  assert (Forall (fun p : Z * bytes => 0 <= p.1 /\ p.1 + blen p.2 <= n) pieces)
    as Hrange.
  { eapply Forall2_Forall_r; [exact Hpieces|].
    apply Forall_forall. intros c _ p [_ Hp]. exact Hp. }
  assert (blen (with_content (h self) bg) = n) as Hcontent.
  { rewrite with_content_length; lia. }
  repeat split; try done.
  - eapply Forall2_impl; [exact Hpieces|]. by intros c p [Hp _].
  - rewrite export_S, Hlen. simpl. rewrite Hbg. simpl.
    apply for_fold_overlays.
    eapply Forall2_impl; [exact Hpieces|].
    intros c [o data] [(Ho & Hexp & Hlenc) _] ret'. simpl in *.
    rewrite Hexp. simpl. rewrite Hlenc. simpl.
    rewrite getslice_to_short by lia. unfold overlay. simpl. by rewrite Ho.
  - rewrite overlays_length; [done|]. by rewrite Hcontent.
Qed.

End ExportFacts.

Section NoRaise.

Variable value_to_int : string -> option Z.
Variable value_to_bytes : string -> outcome bytes.
Variable random_bytes : Z -> bytes.

(** What [value_to_int] accepts, [value_to_bytes] encodes, in at least one
    byte. *)
Hypothesis literal_encoding :
  forall s, is_Some (value_to_int s) ->
    exists lit, value_to_bytes s = Ok lit /\ lit <> [].

Lemma get_block_constructed (p : BinaryPattern) (n : Z) :
  0 <= n -> constructed value_to_int p ->
  exists bg, get_block value_to_bytes random_bytes p n = Ok bg.
Proof.
  intros Hn [s Hs]. unfold BinaryPattern_init in Hs.
  assert (p = {| _pattern := s |}
          /\ (is_Some (value_to_int s) \/ s ∈ SPECIAL_PATTERNS)) as [-> Hwhy].
  { destruct (value_to_int s) eqn:Hint.
    - injection Hs as <-. split; [done|]. left. by eexists.
    - case_bool_decide; [|done]. injection Hs as <-. split; [done|]. by right. }
  unfold get_block. simpl.
  destruct (String.eqb_spec s "zeros") as [->|Hz].
  { unfold zero_bytes. destruct (Z.ltb_spec n 0); [lia|]. by eexists. }
  destruct (String.eqb_spec s "ones") as [->|Ho]; [by eexists|].
  destruct (String.eqb_spec s "rand") as [->|Hr].
  { destruct (Z.ltb_spec n 0); [lia|]. by eexists. }
  destruct (String.eqb_spec s "inc") as [->|Hi]; [by eexists|].
  destruct Hwhy as [Hint|Hspecial].
  - destruct (literal_encoding s Hint) as (lit & -> & Hne). simpl.
    destruct (Z.eqb_spec (blen lit) 0) as [Hzero|_]; [|by eexists].
    destruct lit; [done|]. unfold blen in Hzero. simpl in Hzero. lia.
  - unfold SPECIAL_PATTERNS in Hspecial.
    rewrite !elem_of_cons in Hspecial.
    destruct Hspecial as [?|[?|[?|[?|Hnil]]]]; try done.
    by apply elem_of_nil in Hnil.
Qed.

Lemma len_exportable (d : nat) (h : heap) (self : ref) (f : nat) :
  exportable value_to_int d h self -> (d <= f)%nat ->
  exists n, len f h self = Ok n.
Proof.
  revert h self f. induction d as [|d IH]; intros h self f Hexp Hle; [done|].
  destruct Hexp as (Hsize & _ & Hsub).
  destruct f as [|f]; [lia|]. rewrite len_eq.
  destruct (negb (_size (h self) =? 0)).
  - simpl. unfold len_result. destruct (Z.ltb_spec (_size (h self)) 0); [lia|].
    by eexists.
  - destruct (for_fold_invariant (fun s => 0 <= s)
                (fun max_size image =>
                   n ← len f h image;
                   Ok (Z.max (offset (h image) + n) max_size))
                (sub_images (h self)) (binary_len (h self)))
      as (r & -> & Hr).
    + apply binary_len_nonneg.
    + intros s c Hc Hs. rewrite Forall_forall in Hsub.
      destruct (IH h c f (Hsub c Hc) ltac:(lia)) as [k ->]. simpl.
      eexists; split; [done|]. lia.
    + simpl. unfold len_result. destruct (Z.ltb_spec r 0); [lia|]. by eexists.
Qed.

(** [export] returns on every tree without a negative declared size. *)
Lemma export_exportable (d : nat) (h : heap) (self : ref) (f : nat) :
  exportable value_to_int d h self -> (d <= f)%nat ->
  exists buf, export value_to_bytes random_bytes (S f) h self = Ok buf.
Proof.
  revert h self f. induction d as [|d IH]; intros h self f Hexp Hle; [done|].
  destruct (len_exportable (S d) h self f Hexp Hle) as [n Hn].
  pose proof (len_nonneg _ _ _ _ Hn) as Hnn.
  destruct Hexp as (Hsize & Hpat & Hsub).
  rewrite (export_S value_to_bytes random_bytes).
  rewrite Hn. simpl.
  assert (exists bg, match pattern (h self) with
                     | Some p => get_block value_to_bytes random_bytes p n
                     | None => zero_bytes n
                     end = Ok bg) as [bg ->].
  { destruct (pattern (h self)) as [p|].
    - apply get_block_constructed; [done|]. by apply Hpat.
    - destruct (zero_bytes_Ok n Hnn) as (bg & -> & _). by eexists. }
  simpl.
  destruct (for_fold_invariant (fun _ => True)
              (fun ret image =>
                 data ← export value_to_bytes random_bytes f h image;
                 n ← len f h image;
                 m ← len f h image;
                 Ok (setslice ret (offset (h image)) (offset (h image) + m)
                       (getslice_to data n)))
              (sub_images (h self)) (with_content (h self) bg))
    as (buf & -> & _); [done| |by eexists].
  intros ret c Hc _. rewrite Forall_forall in Hsub.
  destruct f as [|f]; [lia|].
  destruct (IH h c f (Hsub c Hc) ltac:(lia)) as [data ->].
  destruct (len_exportable d h c (S f) (Hsub c Hc) ltac:(lia)) as [k ->].
  simpl. by eexists.
Qed.

End NoRaise.

(** ** The sample collaborators meet the assumptions *)

Lemma sample_random_bytes_length (n : Z) :
  0 <= n -> blen (Sample.random_bytes n) = n.
Proof.
  intros Hn. unfold Sample.random_bytes, blen. rewrite length_replicate. lia.
Qed.

Lemma sample_literal_encoding (s : string) :
  is_Some (Sample.value_to_int s) ->
  exists lit, Sample.value_to_bytes s = Ok lit /\ lit <> [].
Proof.
  unfold Sample.value_to_int, Sample.value_to_bytes.
  destruct (String.eqb s "0x1234"); [by eexists|].
  destruct (String.eqb s "0xAB"); [by eexists|].
  by intros [? ?].
Qed.

Lemma sample_overlap_heap_placed :
  placed Sample.value_to_bytes 2 Sample.overlap_heap 0%nat.
Proof.
  simpl. split.
  - exists 6. split; [reflexivity|]. split.
    + right. exists [xab]. by repeat split.
    + split; [unfold binary_len, blen; simpl; lia|].
      repeat constructor; [exists 3|exists 2]; simpl; repeat split; lia.
  - repeat constructor; [exists 3|exists 2];
      (split; [reflexivity|]); repeat split; try constructor;
      unfold binary_len, blen; simpl; lia.
Qed.

(** ** The length of an export *)

(** C3, as amended.  For every node of a tree in which each image holds its
    content and its children within its own length and has a background that
    fills it (validated or not, siblings may overlap), [export] returns a
    buffer whose length is the node's effective length. *)
Theorem export_length (value_to_bytes : string -> outcome bytes)
    (random_bytes : Z -> bytes) (d : nat) (h : heap) (self : ref)
    (fuel : nat) :
  (forall n, 0 <= n -> blen (random_bytes n) = n) ->
  placed value_to_bytes d h self ->
  (d < fuel)%nat ->
  exists buf n,
    export value_to_bytes random_bytes fuel h self = Ok buf
    /\ len fuel h self = Ok n
    /\ blen buf = n.
Proof.
  intros Hrand Hplaced Hfuel. destruct fuel as [|f]; [lia|].
  destruct (export_placed value_to_bytes random_bytes Hrand d h self f Hplaced)
    as (n & bg & pieces & Hn & _ & _ & _ & _ & _ & Hexp & Hlen); [lia|].
  eexists _, n. split; [exact Hexp|]. split; [by apply len_S|done].
Qed.

Lemma export_length_witness :
  (forall n, 0 <= n -> blen (Sample.random_bytes n) = n)
  /\ placed Sample.value_to_bytes 2 Sample.overlap_heap 0%nat
  /\ exists buf n,
       export Sample.value_to_bytes Sample.random_bytes 3
         Sample.overlap_heap 0%nat = Ok buf
       /\ len 3 Sample.overlap_heap 0%nat = Ok n
       /\ blen buf = n.
Proof.
  split; [exact sample_random_bytes_length|].
  split; [exact sample_overlap_heap_placed|].
  apply (export_length Sample.value_to_bytes Sample.random_bytes 2
           Sample.overlap_heap 0%nat 3).
  - exact sample_random_bytes_length.
  - exact sample_overlap_heap_placed.
  - lia.
Defined.

(** C3, as stated, fails: an image of declared size 2 with 4 bytes of
    content exports 4 bytes; the content is not clamped to the length. *)
Lemma export_longer_than_len :
  export Sample.value_to_bytes Sample.random_bytes 2
    Sample.long_content_heap 0%nat = Ok [x01; x02; x03; x04]
  /\ len 2 Sample.long_content_heap 0%nat = Ok 2
  /\ ~ (forall buf n,
          export Sample.value_to_bytes Sample.random_bytes 2
            Sample.long_content_heap 0%nat = Ok buf ->
          len 2 Sample.long_content_heap 0%nat = Ok n ->
          blen buf = n).
Proof.
  split; [reflexivity|]. split; [reflexivity|].
  intros H. specialize (H [x01; x02; x03; x04] 2 eq_refl eq_refl).
  discriminate H.
Qed.

(** ** The layers of an export *)

Lemma Forall2_Forall_transfer {A B} (R : A -> B -> Prop) (P : A -> Prop)
    (Q : B -> Prop) (l : list A) (k : list B) :
  (forall x y, R x y -> P x -> Q y) ->
  Forall2 R l k -> Forall P l -> Forall Q k.
Proof.
  intros Himpl Hall. induction Hall as [|x y l k Hxy _ IH]; intros HP.
  - constructor.
  - apply Forall_cons in HP as [Hx HP]. constructor; eauto.
Qed.


Lemma sample_overlap_heap_exportable :
  exportable Sample.value_to_int 2 Sample.overlap_heap 0%nat.
Proof.
  simpl. split; [lia|]. split.
  - intros p [= <-]. by exists "0xAB"%string.
  - repeat constructor; simpl; try lia; intros p; discriminate.
Qed.



(** The layers on the samples.  Over the background [AB ..] lies the content
    [01 02], over it the child [A1 A2 A3] at offset 1, and over that its
    later sibling [B1 B2] at offset 2. *)
Example export_overlap_heap :
  export Sample.value_to_bytes Sample.random_bytes 3 Sample.overlap_heap 0%nat
  = Ok [x01; xa1; xb1; xb2; xab; xab].
Proof. reflexivity. Qed.

(** The layered scenario of the specification. *)
Example export_layered_heap :
  export Sample.value_to_bytes Sample.random_bytes 3 Sample.layered_heap 0%nat
  = Ok [x00; xaa; xbb; x00].
Proof. reflexivity. Qed.

(** A child outside its parent's range is not laid over the positions its
    range names: at offset -2 the slice bound counts from the end, and the
    child's four bytes are inserted before the last two bytes of the
    content. *)
Example export_negative_offset :
  export Sample.value_to_bytes Sample.random_bytes 3
    Sample.negative_offset_heap 0%nat
  = Ok [x01; x02; x03; x04; x05; x06; xa1; xa2; xa3; xa4; x07; x08].
Proof. reflexivity. Qed.

(** The patterns of the specification: [zeros], [ones], and [inc] wrapping
    around after 255. *)
Example get_block_patterns :
  get_block Sample.value_to_bytes Sample.random_bytes
    {| _pattern := "zeros" |} 5
  = Ok [x00; x00; x00; x00; x00]
  /\ get_block Sample.value_to_bytes Sample.random_bytes
       {| _pattern := "ones" |} 3
     = Ok [xff; xff; xff]
  /\ (forall block,
        get_block Sample.value_to_bytes Sample.random_bytes
          {| _pattern := "inc" |} 300 = Ok block ->
        block !! 0%nat = Some x00 /\ block !! 255%nat = Some xff
        /\ block !! 256%nat = Some x00).
Proof.
  split; [reflexivity|]. split; [reflexivity|].
  intros block [= <-]. vm_compute. done.
Qed.

(** * Further properties *)

(** ** The blocks of BinaryPattern.get_block *)

Lemma byte_of_Z_value (x : Z) :
  0 <= x < 256 -> Z.of_N (Byte.to_N (byte_of_Z x)) = x.
Proof.
  intros Hx. unfold byte_of_Z.
  destruct (Byte.of_N (Z.to_N x)) as [b|] eqn:Hb; simpl.
  - apply Byte.to_of_N in Hb. rewrite Hb. lia.
  - apply Byte.of_N_None_iff in Hb. lia.
Qed.

Lemma lookup_inc (size : Z) (i : nat) :
  Z.of_nat i < size ->
  ((fun x => byte_of_Z (Z.land x 255)) <$> seqZ 0 size) !! i
  = Some (byte_of_Z (Z.of_nat i mod 256)).
Proof.
  intros Hi. rewrite list_lookup_fmap, lookup_seqZ_lt by done. simpl.
  change 255 with (Z.ones 8). rewrite Z.land_ones by lia. done.
Qed.

Lemma lookup_repeat_bytes (lit : bytes) (k : Z) (i : nat) :
  (i < Z.to_nat k * length lit)%nat ->
  repeat_bytes lit k !! i = lit !! (i mod length lit)%nat.
Proof.
  unfold repeat_bytes. revert i.
  induction (Z.to_nat k) as [|n IH]; intros i Hi; simpl in *; [lia|].
  assert (length lit <> 0)%nat as Hne by (destruct lit; simpl in *; lia).
  destruct (decide (i < length lit)%nat) as [Hlt|Hge].
  - rewrite lookup_app_l by done. by rewrite Nat.mod_small.
  - rewrite lookup_app_r by lia. rewrite IH by lia. f_equal.
    replace i with ((i - length lit) + 1 * length lit)%nat at 2 by lia.
    by rewrite Nat.Div0.mod_add.
Qed.

(** X1.  For a size that is not negative the token patterns fill the block:
    [zeros] with [size] bytes 00, [ones] with [size] bytes FF, and [inc] with
    [size] bytes of which the one at position [i] has the value
    [i mod 256]. *)
Theorem get_block_tokens (value_to_bytes : string -> outcome bytes)
    (random_bytes : Z -> bytes) (size : Z) :
  0 <= size ->
  exists zeros ones inc,
    get_block value_to_bytes random_bytes {| _pattern := "zeros" |} size
    = Ok zeros
    /\ get_block value_to_bytes random_bytes {| _pattern := "ones" |} size
       = Ok ones
    /\ get_block value_to_bytes random_bytes {| _pattern := "inc" |} size
       = Ok inc
    /\ blen zeros = size /\ blen ones = size /\ blen inc = size
    /\ (forall i, Z.of_nat i < size ->
          zeros !! i = Some x00 /\ ones !! i = Some xff
          /\ exists b, inc !! i = Some b
               /\ Z.of_N (Byte.to_N b) = Z.of_nat i mod 256).
Proof.
  intros Hsize. unfold get_block, zero_bytes. simpl.
  destruct (Z.ltb_spec size 0); [lia|].
  eexists _, _, _. split; [done|]. split; [done|]. split; [done|].
  split; [unfold blen; rewrite length_replicate; lia|].
  split; [rewrite blen_repeat_bytes by done; unfold blen; simpl; lia|].
  split; [unfold blen; rewrite length_fmap, length_seqZ; lia|].
  intros i Hi. split; [apply lookup_replicate_2; lia|]. split.
  - rewrite lookup_repeat_bytes by (simpl; lia).
    change (length [xff]) with 1%nat. by rewrite Nat.mod_1_r.
  - eexists. split; [by apply lookup_inc|].
    apply byte_of_Z_value. apply Z.mod_pos_bound. lia.
Qed.

Lemma get_block_tokens_witness :
  0 <= 300
  /\ exists zeros ones inc,
       get_block Sample.value_to_bytes Sample.random_bytes
         {| _pattern := "zeros" |} 300 = Ok zeros
       /\ get_block Sample.value_to_bytes Sample.random_bytes
            {| _pattern := "ones" |} 300 = Ok ones
       /\ get_block Sample.value_to_bytes Sample.random_bytes
            {| _pattern := "inc" |} 300 = Ok inc
       /\ blen zeros = 300 /\ blen ones = 300 /\ blen inc = 300
       /\ (forall i, Z.of_nat i < 300 ->
             zeros !! i = Some x00 /\ ones !! i = Some xff
             /\ exists b, inc !! i = Some b
                  /\ Z.of_N (Byte.to_N b) = Z.of_nat i mod 256).
Proof.
  split; [lia|].
  apply (get_block_tokens Sample.value_to_bytes Sample.random_bytes 300).
  lia.
Defined.

(** X2.  A literal pattern yields whole copies of its encoding and nothing
    else: the block has [size // len(literal) * len(literal)] bytes, which is
    more than [size - len(literal)] and at most [size], and is [size] exactly
    when the encoding's length divides [size]; the byte at position [i] is
    the encoding's byte at [i mod len(literal)]. *)
Theorem get_block_literal_copies (value_to_bytes : string -> outcome bytes)
    (random_bytes : Z -> bytes) (p : BinaryPattern) (size : Z) (lit : bytes) :
  0 <= size ->
  _pattern p ∉ SPECIAL_PATTERNS ->
  value_to_bytes (_pattern p) = Ok lit ->
  lit <> [] ->
  exists block,
    get_block value_to_bytes random_bytes p size = Ok block
    /\ blen block = size / blen lit * blen lit
    /\ size - blen lit < blen block <= size
    /\ (blen block = size <-> size mod blen lit = 0)
    /\ (forall i, Z.of_nat i < blen block ->
          block !! i = lit !! (i mod length lit)%nat).
Proof.
  intros Hsize Hp Hlit Hne.
  destruct (get_block_literal value_to_bytes random_bytes p size lit
              Hsize Hp Hlit Hne) as [Hrun Hlen].
  assert (0 < blen lit) as Hpos.
  { unfold blen. destruct lit; [done|simpl; lia]. }
  pose proof (Z.div_mod size (blen lit) ltac:(lia)) as Hdiv.
  pose proof (Z.mod_pos_bound size (blen lit) Hpos) as Hmod.
  eexists. split; [exact Hrun|]. split; [exact Hlen|].
  rewrite Hlen. split; [lia|]. split; [lia|].
  intros i Hi. apply lookup_repeat_bytes.
  assert (0 <= size / blen lit) by (apply Z.div_pos; lia).
  unfold blen in *. nia.
Qed.

Lemma get_block_literal_copies_witness :
  0 <= 5
  /\ exists block,
       get_block Sample.value_to_bytes Sample.random_bytes
         {| _pattern := "0x1234" |} 5 = Ok block
       /\ blen block = 5 / blen [x12; x34] * blen [x12; x34]
       /\ 5 - blen [x12; x34] < blen block <= 5
       /\ (blen block = 5 <-> 5 mod blen [x12; x34] = 0)
       /\ (forall i, Z.of_nat i < blen block ->
             block !! i = [x12; x34] !! (i mod length [x12; x34])%nat).
Proof.
  split; [lia|].
  apply (get_block_literal_copies Sample.value_to_bytes Sample.random_bytes
           {| _pattern := "0x1234" |} 5 [x12; x34]).
  - lia.
  - simpl. apply (bool_decide_unpack _). vm_compute. reflexivity.
  - reflexivity.
  - discriminate.
Defined.

(** X3.  A negative size, within the range of a machine index, is not
    treated alike by the patterns: [zeros] raises [ValueError] ([bytes()] of
    a negative count) and so does [rand] (the random source refuses the
    count), while [ones], [inc] and every literal return the empty block.
    (Below [-2^63], [bytes()] and the repetition of a sequence raise
    [OverflowError].) *)
Theorem get_block_negative_size (value_to_bytes : string -> outcome bytes)
    (random_bytes : Z -> bytes) (p : BinaryPattern) (size : Z) (lit : bytes) :
  - 2 ^ 63 <= size < 0 ->
  _pattern p ∉ SPECIAL_PATTERNS ->
  value_to_bytes (_pattern p) = Ok lit ->
  lit <> [] ->
  get_block value_to_bytes random_bytes {| _pattern := "zeros" |} size
  = Raise ValueError
  /\ get_block value_to_bytes random_bytes {| _pattern := "rand" |} size
     = Raise ValueError
  /\ get_block value_to_bytes random_bytes {| _pattern := "ones" |} size
     = Ok []
  /\ get_block value_to_bytes random_bytes {| _pattern := "inc" |} size
     = Ok []
  /\ get_block value_to_bytes random_bytes p size = Ok [].
Proof.
  intros [_ Hsize] Hp Hlit Hne. unfold get_block, zero_bytes. simpl.
  destruct (Z.ltb_spec size 0); [|lia].
  split; [done|]. split; [done|]. split.
  { unfold repeat_bytes. by replace (Z.to_nat size) with 0%nat by lia. }
  split; [by rewrite seqZ_nil by lia|].
  unfold SPECIAL_PATTERNS in Hp.
  rewrite !not_elem_of_cons in Hp. destruct Hp as (H1 & H2 & H3 & H4 & _).
  apply String.eqb_neq in H1, H2, H3, H4. rewrite H1, H2, H3, H4.
  rewrite Hlit. simpl.
  assert (0 < blen lit) as Hpos.
  { unfold blen. destruct lit; [done|simpl; lia]. }
  destruct (Z.eqb_spec (blen lit) 0); [lia|].
  assert (Z.quot size (blen lit) <= 0) as Hq.
  { apply Z.quot_le_upper_bound; lia. }
  unfold repeat_bytes. replace (Z.to_nat (size ÷ blen lit)) with 0%nat by lia.
  simpl. unfold getslice_to. by rewrite take_nil.
Qed.

Lemma get_block_negative_size_witness :
  - 2 ^ 63 <= -3 < 0
  /\ get_block Sample.value_to_bytes Sample.random_bytes
       {| _pattern := "zeros" |} (-3) = Raise ValueError
  /\ get_block Sample.value_to_bytes Sample.random_bytes
       {| _pattern := "rand" |} (-3) = Raise ValueError
  /\ get_block Sample.value_to_bytes Sample.random_bytes
       {| _pattern := "ones" |} (-3) = Ok []
  /\ get_block Sample.value_to_bytes Sample.random_bytes
       {| _pattern := "inc" |} (-3) = Ok []
  /\ get_block Sample.value_to_bytes Sample.random_bytes
       {| _pattern := "0x1234" |} (-3) = Ok [].
Proof.
  split; [lia|].
  apply (get_block_negative_size Sample.value_to_bytes Sample.random_bytes
           {| _pattern := "0x1234" |} (-3) [x12; x34]).
  - lia.
  - simpl. apply (bool_decide_unpack _). vm_compute. reflexivity.
  - reflexivity.
  - discriminate.
Defined.

(** X4.  What the constructor accepts, [get_block] serves: for a pattern
    object that came out of [BinaryPattern.__init__] and a size that is not
    negative, [get_block] returns a block and raises nothing; and the
    constructor rejects, with [SPSDKValueError], exactly the specifications
    that are neither a number nor a special token. *)
Theorem get_block_of_constructed (value_to_int : string -> option Z)
    (value_to_bytes : string -> outcome bytes) (random_bytes : Z -> bytes)
    (s : string) (size : Z) :
  (forall s', is_Some (value_to_int s') ->
     exists lit, value_to_bytes s' = Ok lit /\ lit <> []) ->
  0 <= size ->
  (BinaryPattern_init value_to_int s
   = Raise (SPSDKValueError UnsupportedPattern)
   <-> value_to_int s = None /\ s ∉ SPECIAL_PATTERNS)
  /\ (forall p, BinaryPattern_init value_to_int s = Ok p ->
        _pattern p = s
        /\ exists block, get_block value_to_bytes random_bytes p size
                         = Ok block).
Proof.
  intros Hlit Hsize. split.
  - unfold BinaryPattern_init. destruct (value_to_int s).
    + split; [done|]. by intros [? _].
    + case_bool_decide; split; try done. by intros [_ ?].
  - intros p Hp. split.
    + unfold BinaryPattern_init in Hp.
      destruct (value_to_int s); [by injection Hp as <-|].
      case_bool_decide; [by injection Hp as <-|done].
    + apply (get_block_constructed value_to_int value_to_bytes random_bytes
               Hlit p size Hsize). by exists s.
Qed.

Lemma get_block_of_constructed_witness :
  (forall s', is_Some (Sample.value_to_int s') ->
     exists lit, Sample.value_to_bytes s' = Ok lit /\ lit <> [])
  /\ 0 <= 7
  /\ (BinaryPattern_init Sample.value_to_int "0x1234"
      = Raise (SPSDKValueError UnsupportedPattern)
      <-> Sample.value_to_int "0x1234" = None
          /\ "0x1234"%string ∉ SPECIAL_PATTERNS)
  /\ (forall p, BinaryPattern_init Sample.value_to_int "0x1234" = Ok p ->
        _pattern p = "0x1234"%string
        /\ exists block,
             get_block Sample.value_to_bytes Sample.random_bytes p 7
             = Ok block).
Proof.
  split; [exact sample_literal_encoding|]. split; [lia|].
  apply (get_block_of_constructed Sample.value_to_int Sample.value_to_bytes
           Sample.random_bytes "0x1234" 7).
  - exact sample_literal_encoding.
  - lia.
Defined.

(** ** The effective length *)

Lemma for_fold_max (fuel : nat) (h : heap) (l : list ref) (s r : Z) :
  for_fold
    (fun max_size image =>
       n ← len fuel h image;
       Ok (Z.max (offset (h image) + n) max_size)) l s = Ok r ->
  s <= r
  /\ Forall (fun c => exists k, len fuel h c = Ok k /\ offset (h c) + k <= r) l
  /\ (r = s
      \/ exists c k, c ∈ l /\ len fuel h c = Ok k /\ r = offset (h c) + k).
Proof.
  revert s. induction l as [|c l IH]; intros s; simpl.
  - intros [= ->]. split; [lia|]. split; [constructor|by left].
  - intros H. apply bind_Ok in H as (s' & Hc & H).
    apply bind_Ok in Hc as (k & Hk & [= <-]).
    destruct (IH _ H) as (Hle & Hall & Hwhich).
    split; [lia|]. split.
    + constructor; [|done]. exists k. split; [done|lia].
    + destruct Hwhich as [->|(c' & k' & Hc' & Hk' & ->)].
      * destruct (Z.max_spec (offset (h c) + k) s) as [[_ ->]|[_ ->]].
        -- by left.
        -- right. exists c, k. split; [by left|done].
      * right. exists c', k'. split; [by right|done].
Qed.

(** X5.  An image without a declared size is exactly as long as it takes
    to hold its content and all of its children: its length is at least the
    content's length and every child's end [offset + len(child)], and it is
    one of these. *)
Theorem len_derived (fuel : nat) (h : heap) (self : ref) (n : Z) :
  _size (h self) = 0 ->
  len (S fuel) h self = Ok n ->
  binary_len (h self) <= n
  /\ Forall (fun c => exists k, len fuel h c = Ok k /\ offset (h c) + k <= n)
            (sub_images (h self))
  /\ (n = binary_len (h self)
      \/ exists c k, c ∈ sub_images (h self) /\ len fuel h c = Ok k
           /\ n = offset (h c) + k).
Proof.
  intros Hsize Hlen. rewrite len_eq, Hsize in Hlen. simpl in Hlen.
  apply bind_Ok in Hlen as (m & Hfold & Hm).
  apply len_result_Ok in Hm as [-> _].
  by apply for_fold_max.
Qed.

Lemma len_derived_witness :
  _size (Sample.gap_heap 0%nat) = 0
  /\ len 2 Sample.gap_heap 0%nat = Ok 34
  /\ binary_len (Sample.gap_heap 0%nat) <= 34
  /\ Forall (fun c => exists k, len 1 Sample.gap_heap c = Ok k
                        /\ offset (Sample.gap_heap c) + k <= 34)
            (sub_images (Sample.gap_heap 0%nat))
  /\ (34 = binary_len (Sample.gap_heap 0%nat)
      \/ exists c k, c ∈ sub_images (Sample.gap_heap 0%nat)
           /\ len 1 Sample.gap_heap c = Ok k
           /\ 34 = offset (Sample.gap_heap c) + k).
Proof.
  split; [reflexivity|]. split; [reflexivity|].
  apply (len_derived 1 Sample.gap_heap 0%nat 34); reflexivity.
Defined.

(** X6.  A negative declared size is refused by the interpreter, not by the
    library: [len()] raises [ValueError], and so do [export] and, for an
    image whose offset is not negative, [validate], whose own check of the
    size is never reached with a negative length. *)
Theorem negative_size_raises (value_to_bytes : string -> outcome bytes)
    (random_bytes : Z -> bytes) (fuel : nat) (h : heap) (self : ref) :
  _size (h self) < 0 ->
  len (S fuel) h self = Raise ValueError
  /\ export value_to_bytes random_bytes (S (S fuel)) h self = Raise ValueError
  /\ (0 <= offset (h self) ->
      validate (S (S fuel)) h self = Raise ValueError).
Proof.
  intros Hsize.
  assert (len (S fuel) h self = Raise ValueError) as Hlen.
  { rewrite len_eq. destruct (Z.eqb_spec (_size (h self)) 0); [lia|]. simpl.
    unfold len_result. by destruct (Z.ltb_spec (_size (h self)) 0); [|lia]. }
  split; [done|]. split.
  - rewrite (export_S value_to_bytes random_bytes). by rewrite Hlen.
  - intros Hoff. rewrite validate_S.
    destruct (Z.ltb_spec (offset (h self)) 0); [lia|]. by rewrite Hlen.
Qed.

Lemma negative_size_raises_witness :
  _size (Sample.negative_size_heap 0%nat) < 0
  /\ len 1 Sample.negative_size_heap 0%nat = Raise ValueError
  /\ export Sample.value_to_bytes Sample.random_bytes 2
       Sample.negative_size_heap 0%nat = Raise ValueError
  /\ (0 <= offset (Sample.negative_size_heap 0%nat) ->
      validate 2 Sample.negative_size_heap 0%nat = Raise ValueError).
Proof.
  split; [simpl; lia|].
  apply (negative_size_raises Sample.value_to_bytes Sample.random_bytes 0
           Sample.negative_size_heap 0%nat).
  simpl. lia.
Defined.

(** ** What validate establishes *)

(** X7.  What a successful [validate] guarantees: the image's offset is not
    negative and its length is positive; every child is valid in turn, has a
    positive length and ends, with its last byte at index
    [offset + len(child) - 1], not beyond index [len(image)]; and no two
    distinct children have intersecting ranges. *)
Theorem validate_Ok (fuel : nat) (h : heap) (self : ref) :
  validate (S fuel) h self = Ok tt ->
  0 <= offset (h self)
  /\ exists n,
       len fuel h self = Ok n /\ 0 < n
       /\ Forall (fun c => validate fuel h c = Ok tt
                           /\ exists k, len fuel h c = Ok k /\ 0 < k
                                /\ offset (h c) + k - 1 <= n)
                 (sub_images (h self))
       /\ (forall a b, ~ overlapping_siblings fuel h self a b).
Proof.
  intros Hvalid. rewrite validate_S in Hvalid.
  destruct (Z.ltb_spec (offset (h self)) 0) as [|Hoff].
  { apply bind_Ok in Hvalid as (? & _ & ?). done. }
  apply bind_Ok in Hvalid as (n & Hn & Hloop).
  destruct (Z.leb_spec n 0) as [|Hpos].
  { apply bind_Ok in Hloop as (? & _ & ?). done. }
  split; [done|]. exists n. split; [done|]. split; [done|].
  apply for_each_Ok in Hloop. rewrite Forall_forall in Hloop.
  assert (forall c, c ∈ sub_images (h self) ->
            validate fuel h c = Ok tt
            /\ exists k, len fuel h c = Ok k /\ 0 < k
                 /\ offset (h c) + k - 1 <= n
                 /\ for_each (sibling_check fuel h c k) (sub_images (h self))
                    = Ok tt) as Hchild.
  { intros c Hc. specialize (Hloop c Hc).
    apply bind_Ok in Hloop as ([] & Hv & Hbody).
    apply bind_Ok in Hbody as (k & Hk & Hvalid).
    rewrite Hn in Hvalid. simpl in Hvalid.
    destruct (Z.gtb_spec (offset (h c) + k - 1) n) as [|Hfit]; [done|].
    destruct (validate_Ok_own fuel h c Hv) as (_ & k' & Hk' & Hkpos).
    rewrite Hk in Hk'. injection Hk' as <-.
    split; [done|]. exists k. by repeat split. }
  split.
  - apply Forall_forall. intros c Hc.
    destruct (Hchild c Hc) as (Hv & k & Hk & Hkpos & Hfit & _).
    split; [done|]. by exists k.
  - intros a b (Ha & Hb & Hne & ka & kb & Hka & Hkb & Hi).
    destruct (Hchild a Ha) as (_ & ka' & Hka' & Hposa & _ & Hchecks).
    destruct (Hchild b Hb) as (_ & kb' & Hkb' & Hposb & _).
    rewrite Hka in Hka'. injection Hka' as <-.
    rewrite Hkb in Hkb'. injection Hkb' as <-.
    apply for_each_Ok in Hchecks. rewrite Forall_forall in Hchecks.
    specialize (Hchecks b Hb).
    apply (check_Ok fuel h a b ka kb Hkb Hposa Hposb) in Hchecks.
    apply Hchecks. split; [by intros ->|done].
Qed.

Lemma validate_Ok_witness :
  validate 4 (Sample.two_children 8) 0%nat = Ok tt
  /\ 0 <= offset (Sample.two_children 8 0%nat)
  /\ exists n,
       len 3 (Sample.two_children 8) 0%nat = Ok n /\ 0 < n
       /\ Forall (fun c => validate 3 (Sample.two_children 8) c = Ok tt
                           /\ exists k,
                                len 3 (Sample.two_children 8) c = Ok k
                                /\ 0 < k
                                /\ offset (Sample.two_children 8 c) + k - 1
                                   <= n)
                 (sub_images (Sample.two_children 8 0%nat))
       /\ (forall a b,
             ~ overlapping_siblings 3 (Sample.two_children 8) 0%nat a b).
Proof.
  split; [reflexivity|].
  apply (validate_Ok 3 (Sample.two_children 8) 0%nat). reflexivity.
Defined.

(** X8.  The fit check can only fail against a declared size: [validate]
    never reports that a child does not fit into a parent without a
    declared size, whose length is derived from its children. *)
Theorem validate_derived_size_fits (h : heap) (self : ref) (fuel : nat)
    (x c : ref) :
  _size (h self) = 0 ->
  validate fuel h x <> Raise (SPSDKOverlapError (DoesNotFit c self)).
Proof.
  intros Hsize. revert x.
  induction fuel as [|fuel IH]; intros x; [done|].
  rewrite validate_S. intros Hrun.
  assert (forall e, e = ValueError \/ e = RecursionError ->
            e <> SPSDKOverlapError (DoesNotFit c self)) as Hclass.
  { intros e [->| ->]; done. }
  destruct (offset (h x) <? 0).
  { apply bind_Raise in Hrun as [Hname|(? & _ & ?)]; [|done].
    exact (Hclass _ (image_name_Raise _ _ _ _ Hname) eq_refl). }
  apply bind_Raise in Hrun as [Hlen|(n & Hn & Hrun)].
  { exact (Hclass _ (len_Raise _ _ _ _ Hlen) eq_refl). }
  destruct (n <=? 0).
  { apply bind_Raise in Hrun as [Hname|(? & _ & ?)]; [|done].
    exact (Hclass _ (image_name_Raise _ _ _ _ Hname) eq_refl). }
  apply for_each_Raise in Hrun as (image & Himage & Hbody).
  apply bind_Raise in Hbody as [Hchild|([] & _ & Hbody)]; [by eapply IH|].
  apply bind_Raise in Hbody as [Hlen|(k & Hk & Hbody)].
  { exact (Hclass _ (len_Raise _ _ _ _ Hlen) eq_refl). }
  rewrite Hn in Hbody. simpl in Hbody.
  destruct (Z.gtb_spec (offset (h image) + k - 1) n) as [Hfit|_].
  - injection Hbody as -> ->.
    destruct fuel as [|fuel']; [done|].
    pose proof Hn as Hmax. rewrite len_eq, Hsize in Hmax. simpl in Hmax.
    apply bind_Ok in Hmax as (n' & Hfold & Hres).
    apply len_result_Ok in Hres as [-> _].
    apply for_fold_max in Hfold as (_ & Hall & _).
    rewrite Forall_forall in Hall.
    destruct (Hall c Himage) as (k' & Hk' & Hend).
    apply len_S in Hk'. rewrite Hk in Hk'. injection Hk' as <-. lia.
  - apply for_each_Raise in Hbody as (sibling & _ & Hcheck).
    unfold sibling_check in Hcheck. case_bool_decide; [|done].
    apply bind_Raise in Hcheck as [Hlen|(k' & _ & Hcheck)].
    { exact (Hclass _ (len_Raise _ _ _ _ Hlen) eq_refl). }
    destruct ((offset (h image) + k - 1 <? offset (h sibling))
              || (offset (h image) >? offset (h sibling) + k' - 1)); [done|].
    apply bind_Raise in Hcheck as [Hinfo|([] & _ & Hcheck)].
    { exact (Hclass _ (info_Raise _ _ _ _ Hinfo) eq_refl). }
    apply bind_Raise in Hcheck as [Hinfo|([] & _ & Hcheck)]; [|done].
    exact (Hclass _ (info_Raise _ _ _ _ Hinfo) eq_refl).
Qed.

Lemma validate_derived_size_fits_witness :
  _size (Sample.gap_heap 0%nat) = 0
  /\ validate 3 Sample.gap_heap 0%nat
     <> Raise (SPSDKOverlapError (DoesNotFit 3%nat 0%nat)).
Proof.
  split; [reflexivity|].
  apply (validate_derived_size_fits Sample.gap_heap 0%nat 3 0%nat 3%nat).
  reflexivity.
Defined.

(** X9.  The checks of [validate] on the image itself, for an image without
    a parent: a negative offset is rejected with [SPSDKValueError], and so
    is an empty image, one with no declared size, no content and no
    children. *)
Theorem validate_rejects (fuel : nat) (h : heap) (self : ref) :
  parent (h self) = None ->
  (offset (h self) < 0 ->
   validate (S (S fuel)) h self
   = Raise (SPSDKValueError (NegativeOffset self)))
  /\ (0 <= offset (h self) -> _size (h self) = 0 ->
      binary_len (h self) = 0 -> sub_images (h self) = [] ->
      validate (S (S fuel)) h self
      = Raise (SPSDKValueError (NonPositiveSize self))).
Proof.
  intros Hroot.
  assert (image_name (S fuel) h self = Ok (name (h self))) as Hname.
  { simpl. by rewrite Hroot. }
  split.
  - intros Hoff. rewrite validate_S.
    destruct (Z.ltb_spec (offset (h self)) 0); [|lia]. by rewrite Hname.
  - intros Hoff Hsize Hbin Hsubs. rewrite validate_S.
    destruct (Z.ltb_spec (offset (h self)) 0); [lia|].
    rewrite Hname, len_eq, Hsize, Hsubs, Hbin. done.
Qed.

Lemma validate_rejects_witness :
  parent (Sample.free_heap 0%nat) = None
  /\ (offset (Sample.free_heap 0%nat) < 0 ->
      validate 2 Sample.free_heap 0%nat
      = Raise (SPSDKValueError (NegativeOffset 0%nat)))
  /\ (0 <= offset (Sample.free_heap 0%nat) ->
      _size (Sample.free_heap 0%nat) = 0 ->
      binary_len (Sample.free_heap 0%nat) = 0 ->
      sub_images (Sample.free_heap 0%nat) = [] ->
      validate 2 Sample.free_heap 0%nat
      = Raise (SPSDKValueError (NonPositiveSize 0%nat))).
Proof.
  split; [reflexivity|].
  apply (validate_rejects 0 Sample.free_heap 0%nat). reflexivity.
Defined.

(** ** More on add_image *)

(** X10.  [add_image] attaches and does nothing else: the image's parent
    becomes the node, the node's child list gains the image and keeps every
    child it had (it is a permutation of the image and the old list), and no
    other attribute of any image changes. *)
Theorem add_image_effects (self image : ref) (h : heap) :
  parent (add_image self image h image) = Some self
  /\ sub_images (add_image self image h self)
     ≡ₚ image :: sub_images (h self)
  /\ (forall r, r <> self ->
        sub_images (add_image self image h r) = sub_images (h r))
  /\ (forall r, r <> image ->
        parent (add_image self image h r) = parent (h r))
  /\ (forall r,
        offset (add_image self image h r) = offset (h r)
        /\ _size (add_image self image h r) = _size (h r)
        /\ binary (add_image self image h r) = binary (h r)
        /\ pattern (add_image self image h r) = pattern (h r)
        /\ name (add_image self image h r) = name (h r)).
Proof.
  split; [|split; [|split; [|split]]].
  - unfold add_image.
    destruct (add_image_scan _ _ _ _);
      (destruct (decide (self = image)) as [->|Hne];
       [rewrite fn_lookup_insert
       |rewrite fn_lookup_insert_ne by done]; simpl;
       by rewrite fn_lookup_insert).
  - destruct (add_image_sub_images self image h)
      as (before & after & -> & -> & _).
    by rewrite Permutation_middle.
  - intros r Hr. unfold add_image.
    destruct (add_image_scan _ _ _ _);
      (rewrite fn_lookup_insert_ne by done;
       destruct (decide (image = r)) as [->|Hne];
       [by rewrite fn_lookup_insert|by rewrite fn_lookup_insert_ne]).
  - intros r Hr. unfold add_image.
    destruct (add_image_scan _ _ _ _);
      (destruct (decide (self = r)) as [->|Hne];
       [rewrite fn_lookup_insert; simpl
       |rewrite fn_lookup_insert_ne by done];
       by rewrite fn_lookup_insert_ne).
  - intros r. unfold add_image.
    destruct (add_image_scan _ _ _ _);
      (destruct (decide (self = r)) as [->|Hne];
       [rewrite fn_lookup_insert; simpl
       |rewrite fn_lookup_insert_ne by done];
       (destruct (decide (image = r)) as [->|Hne'];
        [by rewrite fn_lookup_insert|by rewrite fn_lookup_insert_ne])).
Qed.

Lemma add_images_offset (self : ref) (images : list ref) (h : heap) (r : ref) :
  offset (add_images self images h r) = offset (h r).
Proof.
  unfold add_images. revert h.
  induction images as [|image images IH]; intros h; simpl; [done|].
  by rewrite IH, add_image_offset.
Qed.

Lemma add_images_children (self : ref) (images : list ref) (h : heap) :
  sub_images (add_images self images h self)
  ≡ₚ images ++ sub_images (h self).
Proof.
  unfold add_images. revert h.
  induction images as [|image images IH]; intros h; simpl; [done|].
  rewrite IH.
  destruct (add_image_sub_images self image h)
    as (before & after & -> & -> & _).
  rewrite <- (Permutation_middle before after image).
  by rewrite <- (Permutation_middle images (before ++ after) image).
Qed.

Lemma add_images_keep_sorted (self : ref) (images : list ref) (h : heap) :
  sorted_by_offset h (sub_images (h self)) ->
  sorted_by_offset (add_images self images h)
    (sub_images (add_images self images h self)).
Proof.
  unfold add_images. revert h.
  induction images as [|image images IH]; intros h Hsorted; simpl; [done|].
  apply IH. by apply add_image_sorted.
Qed.

Lemma sorted_by_offset_refs (h : heap) (l : list ref) :
  sorted_by_offset h l ->
  StronglySorted (fun a b => offset (h a) <= offset (h b)) l.
Proof.
  unfold sorted_by_offset, offsets_of.
  induction l as [|a l IH]; intros Hs; [constructor|].
  rewrite fmap_cons in Hs. apply StronglySorted_cons in Hs as [Hall Hs].
  constructor; [by apply IH|]. by rewrite Forall_fmap in Hall.
Qed.

(** X11.  The order of insertion does not matter for images of pairwise
    different offsets: added to a node without children in any two orders,
    they end up in the same child list. *)
Theorem add_images_any_order (self : ref) (images images' : list ref)
    (h : heap) :
  sub_images (h self) = [] ->
  (forall a b, a ∈ images -> b ∈ images ->
     offset (h a) = offset (h b) -> a = b) ->
  images ≡ₚ images' ->
  sub_images (add_images self images h self)
  = sub_images (add_images self images' h self).
Proof.
  intros Hempty Hinj Hperm.
  assert (forall l, sorted_by_offset (add_images self l h)
                      (sub_images (add_images self l h self))) as Hsorted.
  { intros l. apply add_images_keep_sorted. rewrite Hempty. constructor. }
  assert (forall l, StronglySorted (fun a b => offset (h a) <= offset (h b))
                      (sub_images (add_images self l h self))) as Hrefs.
  { intros l. apply sorted_by_offset_refs. specialize (Hsorted l).
    unfold sorted_by_offset, offsets_of in *.
    erewrite list_fmap_ext; [exact Hsorted|].
    intros _ r _. simpl. by rewrite add_images_offset. }
  assert (forall l, sub_images (add_images self l h self) ≡ₚ l)
    as Hchildren.
  { intros l. rewrite add_images_children, Hempty. by rewrite app_nil_r. }
  apply (StronglySorted_unique_strong
           (fun a b => offset (h a) <= offset (h b))); [|done|done|].
  - intros a b Ha Hb Hab Hba.
    apply Hinj; [by rewrite <- (Hchildren images)
                |by rewrite Hperm, <- (Hchildren images')|lia].
  - by rewrite !Hchildren.
Qed.

Lemma add_images_any_order_witness :
  sub_images (Sample.free_heap 0%nat) = []
  /\ sub_images (add_images 0%nat [1%nat; 3%nat] Sample.free_heap 0%nat)
     = sub_images (add_images 0%nat [3%nat; 1%nat] Sample.free_heap 0%nat).
Proof.
  split; [reflexivity|].
  apply (add_images_any_order 0%nat [1%nat; 3%nat] [3%nat; 1%nat]
           Sample.free_heap).
  - reflexivity.
  - intros a b Ha Hb. rewrite !elem_of_cons in Ha, Hb.
    destruct Ha as [->|[->|Ha]]; [| |by apply elem_of_nil in Ha];
      (destruct Hb as [->|[->|Hb]]; [| |by apply elem_of_nil in Hb]);
      simpl; intros; (done || lia).
  - apply perm_swap.
Defined.

(** ** More on update_offsets *)

Lemma with_offset_same (o : BinaryImage) (v : Z) :
  v = offset o -> with_offset v o = o.
Proof. intros ->. by destruct o. Qed.

(** After [update_offsets] the least child offset is 0. *)
Lemma update_offsets_least (h h' : heap) (self : ref) (m : Z) :
  min_list (offsets_of h (sub_images (h self))) = Ok m ->
  (forall c, c ∈ sub_images (h self) ->
     h' c = with_offset (offset (h c) - m) (h c)) ->
  min_list (offsets_of h' (sub_images (h self))) = Ok 0.
Proof.
  intros Hm Hchild. apply min_list_Ok in Hm as [Hin Hleast].
  apply min_list_Ok. unfold offsets_of in *. split.
  - apply list_elem_of_fmap in Hin as (c & -> & Hc).
    apply list_elem_of_fmap. exists c. split; [|done].
    rewrite Hchild by done. simpl. lia.
  - rewrite Forall_fmap in *. rewrite Forall_forall in *.
    intros c Hc. specialize (Hleast c Hc). simpl in *.
    rewrite Hchild by done. simpl. lia.
Qed.

(** X12.  [update_offsets] is idempotent: called a second time on the same
    node it finds a least child offset of 0 and leaves every image as the
    first call left it. *)
Theorem update_offsets_twice (h : heap) (self : ref) :
  sub_images (h self) <> [] ->
  NoDup (sub_images (h self)) ->
  self ∉ sub_images (h self) ->
  exists h2,
    update_offsets self (snd (update_offsets self h)) = (Ok tt, h2)
    /\ min_list (offsets_of (snd (update_offsets self h))
                   (sub_images (snd (update_offsets self h) self))) = Ok 0
    /\ forall r, h2 r = snd (update_offsets self h) r.
Proof.
  intros Hne Hnd Hself.
  destruct (update_offsets_store h self Hne Hnd Hself)
    as (m & h1 & Hrun & Hm & Hchild & Hnode & Hother).
  rewrite Hrun. simpl.
  assert (sub_images (h1 self) = sub_images (h self)) as Hsubs
    by by rewrite Hnode.
  pose proof (update_offsets_least h h1 self m Hm Hchild) as Hzero.
  rewrite <- Hsubs in Hzero.
  destruct (update_offsets_store h1 self) as
    (m' & h2 & Hrun' & Hm' & Hchild' & Hnode' & Hother');
    [by rewrite Hsubs..|].
  rewrite Hzero in Hm'. injection Hm' as <-.
  exists h2. split; [done|]. split; [done|].
  intros r. destruct (decide (r = self)) as [->|Hr].
  - rewrite Hnode'. apply with_offset_same. lia.
  - destruct (decide (r ∈ sub_images (h1 self))) as [Hin|Hout].
    + rewrite (Hchild' r Hin). apply with_offset_same. lia.
    + by apply Hother'.
Qed.

Lemma update_offsets_twice_witness :
  sub_images (Sample.gap_heap 0%nat) <> []
  /\ exists h2,
       update_offsets 0%nat (snd (update_offsets 0%nat Sample.gap_heap))
       = (Ok tt, h2)
       /\ min_list
            (offsets_of (snd (update_offsets 0%nat Sample.gap_heap))
               (sub_images (snd (update_offsets 0%nat Sample.gap_heap) 0%nat)))
          = Ok 0
       /\ forall r, h2 r = snd (update_offsets 0%nat Sample.gap_heap) r.
Proof.
  split; [discriminate|].
  apply (update_offsets_twice Sample.gap_heap 0%nat).
  - discriminate.
  - simpl. apply (bool_decide_unpack _). vm_compute. reflexivity.
  - simpl. apply (bool_decide_unpack _). vm_compute. reflexivity.
Defined.

(** X13.  [update_offsets] keeps the layout of the children: the distance
    between any two children is what it was, and a child list sorted by
    offset stays sorted. *)
Theorem update_offsets_keeps_layout (h : heap) (self : ref) :
  sub_images (h self) <> [] ->
  NoDup (sub_images (h self)) ->
  self ∉ sub_images (h self) ->
  (forall a b, a ∈ sub_images (h self) -> b ∈ sub_images (h self) ->
     offset (snd (update_offsets self h) b)
     - offset (snd (update_offsets self h) a)
     = offset (h b) - offset (h a))
  /\ (sorted_by_offset h (sub_images (h self)) ->
      sorted_by_offset (snd (update_offsets self h))
        (sub_images (snd (update_offsets self h) self))).
Proof.
  intros Hne Hnd Hself.
  destruct (update_offsets_store h self Hne Hnd Hself)
    as (m & h1 & Hrun & Hm & Hchild & Hnode & Hother).
  rewrite Hrun. simpl. split.
  - intros a b Ha Hb. rewrite (Hchild a Ha), (Hchild b Hb). simpl. lia.
  - intros Hsorted. rewrite Hnode. simpl.
    unfold sorted_by_offset, offsets_of in *.
    assert ((fun image => offset (h1 image)) <$> sub_images (h self)
            = (fun o => o - m) <$> ((fun image => offset (h image))
                                      <$> sub_images (h self))) as ->.
    { rewrite <- list_fmap_compose. apply list_fmap_ext.
      intros i c Hc. simpl. apply list_elem_of_lookup_2 in Hc.
      by rewrite (Hchild c Hc). }
    eapply StronglySorted_fmap; [|exact Hsorted].
    intros x y Hxy. simpl. lia.
Qed.

Lemma update_offsets_keeps_layout_witness :
  sub_images (Sample.gap_heap 0%nat) <> []
  /\ (forall a b, a ∈ sub_images (Sample.gap_heap 0%nat) ->
        b ∈ sub_images (Sample.gap_heap 0%nat) ->
        offset (snd (update_offsets 0%nat Sample.gap_heap) b)
        - offset (snd (update_offsets 0%nat Sample.gap_heap) a)
        = offset (Sample.gap_heap b) - offset (Sample.gap_heap a))
  /\ (sorted_by_offset Sample.gap_heap (sub_images (Sample.gap_heap 0%nat)) ->
      sorted_by_offset (snd (update_offsets 0%nat Sample.gap_heap))
        (sub_images (snd (update_offsets 0%nat Sample.gap_heap) 0%nat))).
Proof.
  split; [discriminate|].
  apply (update_offsets_keeps_layout Sample.gap_heap 0%nat).
  - discriminate.
  - simpl. apply (bool_decide_unpack _). vm_compute. reflexivity.
  - simpl. apply (bool_decide_unpack _). vm_compute. reflexivity.
Defined.

(** X14.  What [update_offsets] preserves is the absolute address of the
    children: for a node without a parent whose length is not zero before
    and after the call, a child that refers to the node as its parent has
    the same absolute address, the node's old offset plus its own, before
    and after. *)
Theorem update_offsets_keeps_child_address (fuel : nat) (h : heap)
    (self c : ref) (n n' : Z) :
  NoDup (sub_images (h self)) ->
  self ∉ sub_images (h self) ->
  c ∈ sub_images (h self) ->
  parent (h c) = Some self ->
  parent (h self) = None ->
  len (S fuel) h self = Ok n -> n <> 0 ->
  len (S fuel) (snd (update_offsets self h)) self = Ok n' -> n' <> 0 ->
  absolute_address (S (S fuel)) h c = Ok (offset (h self) + offset (h c))
  /\ absolute_address (S (S fuel)) (snd (update_offsets self h)) c
     = Ok (offset (h self) + offset (h c)).
Proof.
  intros Hnd Hself Hc Hparent Hroot Hn Hnz Hn' Hnz'.
  assert (sub_images (h self) <> []) as Hne.
  { intros Hnil. rewrite Hnil in Hc. by apply elem_of_nil in Hc. }
  destruct (update_offsets_store h self Hne Hnd Hself)
    as (m & h1 & Hrun & Hm & Hchild & Hnode & Hother).
  rewrite Hrun in *. simpl in Hn'. simpl snd.
  split.
  - change (absolute_address (S (S fuel)) h c) with
      (match parent (h c) with
       | Some p =>
           n ← len (S fuel) h p;
           if negb (n =? 0) then
             a ← absolute_address (S fuel) h p;
             Ok (a + offset (h c))
           else Ok (offset (h c))
       | None => Ok (offset (h c))
       end).
    rewrite Hparent, Hn. simpl.
    destruct (Z.eqb_spec n 0); [done|]. simpl. by rewrite Hroot.
  - change (absolute_address (S (S fuel)) h1 c) with
      (match parent (h1 c) with
       | Some p =>
           n ← len (S fuel) h1 p;
           if negb (n =? 0) then
             a ← absolute_address (S fuel) h1 p;
             Ok (a + offset (h1 c))
           else Ok (offset (h1 c))
       | None => Ok (offset (h1 c))
       end).
    rewrite (Hchild c Hc). simpl. rewrite Hparent, Hn'. simpl.
    destruct (Z.eqb_spec n' 0); [done|]. simpl.
    rewrite Hnode. simpl. rewrite Hroot. simpl. f_equal. lia.
Qed.

Lemma update_offsets_keeps_child_address_witness :
  len 2 Sample.gap_heap 0%nat = Ok 34
  /\ len 2 (snd (update_offsets 0%nat Sample.gap_heap)) 0%nat = Ok 24
  /\ absolute_address 3 Sample.gap_heap 2%nat
     = Ok (offset (Sample.gap_heap 0%nat) + offset (Sample.gap_heap 2%nat))
  /\ absolute_address 3 (snd (update_offsets 0%nat Sample.gap_heap)) 2%nat
     = Ok (offset (Sample.gap_heap 0%nat) + offset (Sample.gap_heap 2%nat)).
Proof.
  split; [reflexivity|]. split; [reflexivity|].
  apply (update_offsets_keeps_child_address 1 Sample.gap_heap 0%nat 2%nat
           34 24).
  - simpl. apply (bool_decide_unpack _). vm_compute. reflexivity.
  - simpl. apply (bool_decide_unpack _). vm_compute. reflexivity.
  - simpl. apply (bool_decide_unpack _). vm_compute. reflexivity.
  - reflexivity.
  - reflexivity.
  - reflexivity.
  - lia.
  - reflexivity.
  - lia.
Defined.

(** ** More on export *)

Lemma setslice_whole (bg b : bytes) :
  blen bg <= blen b -> setslice bg 0 (blen b) b = b.
Proof.
  intros Hle. unfold setslice, slice_index.
  pose proof (blen_nonneg bg). pose proof (blen_nonneg b).
  destruct (Z.ltb_spec (blen b) 0); [lia|]. simpl.
  rewrite Z.min_l by lia. rewrite Z.min_r by lia. rewrite Z.max_r by lia.
  simpl. unfold blen. rewrite Nat2Z.id, drop_all. by rewrite app_nil_r.
Qed.

(** X15.  An image that is nothing but its content exports the content: for
    an image without children whose content [b] is not empty and whose size is
    [len(b)], declared or derived, [export] returns [b], byte for byte,
    whatever the pattern (as long as the pattern hands out no more bytes
    than it is asked for). *)
Theorem export_leaf_content (value_to_bytes : string -> outcome bytes)
    (random_bytes : Z -> bytes) (fuel : nat) (h : heap) (self : ref)
    (b : bytes) :
  binary (h self) = Some b ->
  b <> [] ->
  _size (h self) = blen b \/ _size (h self) = 0 ->
  sub_images (h self) = [] ->
  (forall p, pattern (h self) = Some p ->
     exists bg, get_block value_to_bytes random_bytes p (blen b) = Ok bg
                /\ blen bg <= blen b) ->
  len (S fuel) h self = Ok (blen b)
  /\ export value_to_bytes random_bytes (S (S fuel)) h self = Ok b.
Proof.
  intros Hbin Hne Hsize Hsubs Hpat.
  assert (0 < blen b) as Hpos.
  { unfold blen. destruct b; [done|simpl; lia]. }
  assert (len (S fuel) h self = Ok (blen b)) as Hlen.
  { rewrite len_eq. destruct Hsize as [Hsize|Hsize]; rewrite Hsize.
    - destruct (Z.eqb_spec (blen b) 0); [lia|]. simpl.
      unfold len_result. by destruct (Z.ltb_spec (blen b) 0); [lia|].
    - simpl. rewrite Hsubs. simpl. unfold binary_len. rewrite Hbin.
      rewrite bool_decide_eq_false_2 by done.
      unfold len_result. by destruct (Z.ltb_spec (blen b) 0); [lia|]. }
  split; [done|].
  rewrite (export_S value_to_bytes random_bytes), Hlen. simpl.
  assert (exists bg,
            match pattern (h self) with
            | Some p => get_block value_to_bytes random_bytes p (blen b)
            | None => zero_bytes (blen b)
            end = Ok bg /\ blen bg <= blen b) as (bg & -> & Hbg).
  { destruct (pattern (h self)) as [p|]; [by apply Hpat|].
    destruct (zero_bytes_Ok (blen b)) as (bg & -> & Hbg); [lia|].
    exists bg. split; [done|lia]. }
  simpl. rewrite Hsubs. simpl. unfold with_content. rewrite Hbin.
  rewrite bool_decide_eq_false_2 by done. by rewrite setslice_whole.
Qed.

Lemma export_leaf_content_witness :
  binary (Sample.overlap_heap 1%nat) = Some [xa1; xa2; xa3]
  /\ len 1 Sample.overlap_heap 1%nat = Ok (blen [xa1; xa2; xa3])
  /\ export Sample.value_to_bytes Sample.random_bytes 2 Sample.overlap_heap
       1%nat = Ok [xa1; xa2; xa3].
Proof.
  split; [reflexivity|].
  apply (export_leaf_content Sample.value_to_bytes Sample.random_bytes 0
           Sample.overlap_heap 1%nat [xa1; xa2; xa3]).
  - reflexivity.
  - discriminate.
  - left. reflexivity.
  - reflexivity.
  - intros p Hp. discriminate Hp.
Defined.

Lemma Forall2_Forall_members {A B} (R : A -> B -> Prop) (Q : B -> Prop)
    (l : list A) (k : list B) :
  (forall x y, x ∈ l -> R x y -> Q y) -> Forall2 R l k -> Forall Q k.
Proof.
  intros Himpl Hall. induction Hall as [|x y l k Hxy _ IH].
  - constructor.
  - constructor.
    + apply (Himpl x); [by left|done].
    + apply IH. intros x' y' Hx'. apply Himpl. by right.
Qed.



(** ** Aligned ranges *)

Lemma absolute_address_S (fuel : nat) (h : heap) (r : ref) (a : Z) :
  absolute_address fuel h r = Ok a -> absolute_address (S fuel) h r = Ok a.
Proof.
  revert r a. induction fuel as [|fuel IH]; intros r a; [done|].
  intros H.
  change (absolute_address (S (S fuel)) h r) with
    (match parent (h r) with
     | Some p =>
         n ← len (S fuel) h p;
         if negb (n =? 0) then
           a ← absolute_address (S fuel) h p;
           Ok (a + offset (h r))
         else Ok (offset (h r))
     | None => Ok (offset (h r))
     end).
  simpl in H. destruct (parent (h r)) as [p|]; [|done].
  apply bind_Ok in H as (n & Hn & Hrest).
  apply bind_Ok. exists n. split; [by apply len_S|].
  destruct (negb (n =? 0)); [|done].
  apply bind_Ok in Hrest as (ap & Hap & Hsum).
  apply bind_Ok. exists ap. split; [by apply IH|done].
Qed.

(** X17.  The aligned range covers the image and is aligned: for a positive
    alignment [A], [aligned_start] is the multiple of [A] at or below the
    absolute address and less than [A] away from it, and [aligned_length]
    is a multiple of [A] that takes the range to the first multiple of [A]
    at or after the image's end.  An alignment of 0 is a
    [ZeroDivisionError].  (Addresses and alignment in the range where the
    float division of the source is exact.) *)
Theorem aligned_range (fuel : nat) (h : heap) (self : ref) (A a n : Z) :
  absolute_address fuel h self = Ok a ->
  len fuel h self = Ok n ->
  0 <= a -> a + n < 2 ^ 53 -> A < 2 ^ 53 ->
  (A = 0 ->
   aligned_start (S fuel) h self A = Raise ZeroDivisionError
   /\ aligned_length (S (S fuel)) h self A = Raise ZeroDivisionError)
  /\ (0 < A ->
      exists s l,
        aligned_start (S fuel) h self A = Ok s
        /\ aligned_length (S (S fuel)) h self A = Ok l
        /\ s mod A = 0 /\ l mod A = 0
        /\ s <= a < s + A
        /\ a + n <= s + l < a + n + A).
Proof.
  intros Ha Hn _ _ _.
  pose proof (absolute_address_S _ _ _ _ Ha) as Ha'.
  pose proof (len_S _ _ _ _ Hn) as Hn'.
  split.
  - intros ->. unfold aligned_length, aligned_start.
    rewrite Ha, Ha', Hn'. done.
  - intros HA. unfold aligned_length, aligned_start.
    rewrite Ha, Ha', Hn'. simpl.
    destruct (Z.eqb_spec A 0); [lia|]. simpl.
    eexists _, _. split; [done|]. split; [done|].
    pose proof (Z.div_mod a A ltac:(lia)) as Hdiv.
    pose proof (Z.mod_pos_bound a A HA) as Hmod.
    pose proof (Z.div_mod (- (a + n)) A ltac:(lia)) as Hdiv'.
    pose proof (Z.mod_pos_bound (- (a + n)) A HA) as Hmod'.
    split; [apply Z_mod_mult|]. split.
    + replace (- (- (a + n) / A) * A - a / A * A)
        with ((- (- (a + n) / A) - a / A) * A) by ring.
      apply Z_mod_mult.
    + lia.
Qed.

Lemma aligned_range_witness :
  absolute_address 3 Sample.nested_heap 1%nat = Ok 10
  /\ len 3 Sample.nested_heap 1%nat = Ok 24
  /\ (4 = 0 ->
      aligned_start 4 Sample.nested_heap 1%nat 4 = Raise ZeroDivisionError
      /\ aligned_length 5 Sample.nested_heap 1%nat 4
         = Raise ZeroDivisionError)
  /\ (0 < 4 ->
      exists s l,
        aligned_start 4 Sample.nested_heap 1%nat 4 = Ok s
        /\ aligned_length 5 Sample.nested_heap 1%nat 4 = Ok l
        /\ s mod 4 = 0 /\ l mod 4 = 0
        /\ s <= 10 < s + 4
        /\ 10 + 24 <= s + l < 10 + 24 + 4).
Proof.
  split; [reflexivity|]. split; [reflexivity|].
  apply (aligned_range 3 Sample.nested_heap 1%nat 4 10 24).
  - reflexivity.
  - reflexivity.
  - lia.
  - lia.
  - lia.
Defined.

(** The sample of the source's default: address 10 and length 24 give the
    aligned range from 8 of length 28. *)
Example aligned_range_nested_heap :
  aligned_start 4 Sample.nested_heap 1%nat 4 = Ok 8
  /\ aligned_length 5 Sample.nested_heap 1%nat 4 = Ok 28.
Proof. split; reflexivity. Qed.

(** ** ColorPicker *)

Section PickerFacts.

Variable colors : list string.
Hypothesis colors_distinct : NoDup colors.
Hypothesis two_colors : (2 <= length colors)%nat.

(** The index after the increment and the wrap-around. *)
Lemma next_index (i : nat) :
  let i' := if bool_decide (length colors <= S i)%nat then 0%nat else S i in
  (i' < length colors)%nat
  /\ (exists c, colors !! i' = Some c /\ nth i' colors ""%string = c)
  /\ ((i < length colors)%nat -> i' <> i).
Proof.
  simpl. case_bool_decide as Hwrap.
  - split; [lia|]. split; [|lia].
    destruct (lookup_lt_is_Some_2 colors 0) as [c Hc]; [lia|].
    exists c. split; [done|]. by rewrite nth_lookup, Hc.
  - split; [lia|]. split; [|lia].
    destruct (lookup_lt_is_Some_2 colors (S i)) as [c Hc]; [lia|].
    exists c. split; [done|]. by rewrite nth_lookup, Hc.
Qed.

Lemma get_color_in_spec (fuel : nat) (self : ColorPicker)
    (unwanted : option string) :
  exists c self',
    get_color_in colors (S (S fuel)) self unwanted = (Ok c, self')
    /\ colors !! index self' = Some c
    /\ (forall u, unwanted = Some u -> u <> ""%string -> c <> u).
Proof.
  destruct (next_index (index self)) as (Hlt1 & (c1 & Hc1 & Hnth1) & _).
  set (i1 := if bool_decide (length colors <= S (index self))%nat
             then 0%nat else S (index self)) in *.
  destruct (next_index i1) as (Hlt2 & (c2 & Hc2 & Hnth2) & Hne).
  set (i2 := if bool_decide (length colors <= S i1)%nat
             then 0%nat else S i1) in *.
  assert (c2 <> c1) as Hdiff.
  { intros ->. apply (Hne Hlt1).
    by apply (NoDup_lookup colors i2 i1 c1). }
  change (get_color_in colors (S (S fuel)) self unwanted) with
    (match unwanted with
     | Some u =>
         if negb (String.eqb u "") && String.eqb (nth i1 colors ""%string) u
         then get_color_in colors (S fuel) {| index := i1 |} unwanted
         else (Ok (nth i1 colors ""%string), {| index := i1 |})
     | None => (Ok (nth i1 colors ""%string), {| index := i1 |})
     end).
  rewrite Hnth1. destruct unwanted as [u|].
  - destruct (String.eqb_spec u "") as [->|Hu]; simpl.
    { exists c1, {| index := i1 |}. split; [done|]. split; [done|].
      by intros ? [= <-]. }
    destruct (String.eqb_spec c1 u) as [->|Hc1u].
    + fold i2. rewrite Hnth2.
      destruct (String.eqb_spec u "") as [->|_]; [done|]. simpl.
      destruct (String.eqb_spec c2 u) as [->|_]; [done|].
      exists c2, {| index := i2 |}. split; [done|]. split; [done|].
      by intros ? [= <-].
    + exists c1, {| index := i1 |}. split; [done|]. split; [done|].
      by intros ? [= <-].
  - exists c1, {| index := i1 |}. split; [done|]. split; [done|]. done.
Qed.

(** From an index within range, the next colour is another one. *)
Lemma get_color_in_next (fuel : nat) (self : ColorPicker) :
  (index self < length colors)%nat ->
  exists c1 c2 self1,
    colors !! index self = Some c1
    /\ get_color_in colors (S fuel) self None = (Ok c2, self1)
    /\ c2 <> c1.
Proof.
  intros Hlt.
  destruct (lookup_lt_is_Some_2 colors (index self) Hlt) as [c1 Hc1].
  destruct (next_index (index self)) as (Hlt1 & (c2 & Hc2 & Hnth2) & Hne1).
  set (i1 := if bool_decide (length colors <= S (index self))%nat
             then 0%nat else S (index self)) in *.
  exists c1, c2, {| index := i1 |}.
  split; [done|]. split; [simpl; fold i1; by rewrite Hnth2|].
  intros ->. apply (Hne1 Hlt). by apply (NoDup_lookup colors i1 _ c1).
Qed.

End PickerFacts.

Lemma COLORS_distinct : NoDup COLORS.
Proof. apply (bool_decide_unpack _). vm_compute. reflexivity. Qed.

(** X18.  [get_color] returns a colour of [COLORS], the one at the index
    the picker is left with, and never the unwanted colour: when the next
    colour in turn is the unwanted one it moves on by one more. *)
Theorem get_color_avoids (fuel : nat) (self : ColorPicker)
    (unwanted : option string) :
  exists c self',
    get_color (S (S fuel)) self unwanted = (Ok c, self')
    /\ COLORS !! index self' = Some c
    /\ (forall u, unwanted = Some u -> u <> ""%string -> c <> u).
Proof.
  apply get_color_in_spec; [exact COLORS_distinct|].
  simpl. lia.
Qed.

(** X19.  Every call gives a different colour than the call before: a new
    picker starts with the first colour of [COLORS], and two calls in a row
    (no colour being unwanted) never return the same colour. *)
Theorem get_color_changes (fuel fuel' : nat) (self : ColorPicker) :
  fst (get_color (S fuel) ColorPicker_init None) = Ok (fore "90")
  /\ exists c self1,
       get_color (S fuel) self None = (Ok c, self1)
       /\ fst (get_color (S fuel') self1 None) <> Ok c.
Proof.
  split; [reflexivity|].
  destruct (next_index COLORS ltac:(simpl; lia) (index self))
    as (Hlt1 & (c & Hc & Hnth) & _).
  set (i1 := if bool_decide (length COLORS <= S (index self))%nat
             then 0%nat else S (index self)) in *.
  destruct (get_color_in_next COLORS COLORS_distinct ltac:(simpl; lia)
              fuel' {| index := i1 |} Hlt1)
    as (c1 & c2 & self1 & Hc1 & Hrun & Hne).
  simpl in Hc1. rewrite Hc in Hc1. injection Hc1 as <-.
  exists c, {| index := i1 |}. split.
  - change (get_color (S fuel) self None)
      with (Ok (nth i1 COLORS ""%string), {| index := i1 |}).
    by rewrite Hnth.
  - unfold get_color. rewrite Hrun. simpl. by intros [= ->].
Qed.

(** ** Construction and loading *)

Lemma add_image_store (self image : ref) (h : heap) :
  image <> self ->
  add_image self image h image = with_parent (Some self) (h image)
  /\ add_image self image h self
     = with_sub_images (sub_images (add_image self image h self)) (h self)
  /\ (forall r, r <> self -> r <> image -> add_image self image h r = h r).
Proof.
  intros Hne. unfold add_image.
  destruct (add_image_scan _ image 0 _); cbn zeta.
  all: repeat split.
  all: try (intros r Hr Hr'; by rewrite !fn_lookup_insert_ne by done).
  all: try (rewrite fn_lookup_insert_ne by done; by rewrite fn_lookup_insert).
  all: rewrite !fn_lookup_insert; simpl;
       by rewrite fn_lookup_insert_ne by done.
Qed.

Lemma len_leaf (fuel : nat) (h : heap) (c : ref) :
  leaf h c ->
  len (S fuel) h c
  = Ok (if _size (h c) =? 0 then binary_len (h c) else _size (h c)).
Proof.
  intros [Hsub Hsize]. rewrite len_eq, Hsub.
  destruct (Z.eqb_spec (_size (h c)) 0) as [Hz|Hnz]; simpl.
  - unfold len_result. pose proof (binary_len_nonneg (h c)).
    by destruct (Z.ltb_spec (binary_len (h c)) 0); [lia|].
  - unfold len_result. by destruct (Z.ltb_spec (_size (h c)) 0); [lia|].
Qed.

(** The length of a node of leaves is defined. *)
Lemma len_of_leaves (fuel : nat) (h : heap) (r : ref) :
  0 <= _size (h r) ->
  Forall (leaf h) (sub_images (h r)) ->
  exists n, len (S (S fuel)) h r = Ok n.
Proof.
  intros Hsize Hkids. rewrite len_eq.
  destruct (negb (_size (h r) =? 0)).
  - simpl. unfold len_result.
    destruct (Z.ltb_spec (_size (h r)) 0); [lia|]. by eexists.
  - destruct (for_fold_invariant (fun s => 0 <= s)
                (fun max_size image =>
                   n ← len (S fuel) h image;
                   Ok (Z.max (offset (h image) + n) max_size))
                (sub_images (h r)) (binary_len (h r)))
      as (n & Hn & Hpos).
    + apply binary_len_nonneg.
    + intros s c Hc Hs. rewrite Forall_forall in Hkids.
      rewrite (len_leaf fuel h c (Hkids c Hc)). simpl.
      eexists; split; [done|]. lia.
    + rewrite Hn. simpl. unfold len_result.
      destruct (Z.ltb_spec n 0); [lia|]. by eexists.
Qed.

Lemma with_sub_images_same (o : BinaryImage) :
  with_sub_images (sub_images o) o = o.
Proof. by destruct o. Qed.

(** The loop of [load_binary_image], run on a node of leaves [r]: object
    [next s + j] becomes the image of segment [j], the node's child list
    takes the new images in, in order of offset, and nothing else changes. *)
Lemma add_segments_spec (fuel : nat) (r : ref) (pat : option BinaryPattern)
    (segments : list Segment) (i : nat) (s : store) :
  (r < next s)%nat ->
  0 <= _size (objects s r) ->
  Forall (fun c => c <> r /\ (c < next s)%nat /\ leaf (objects s) c)
         (sub_images (objects s r)) ->
  exists s' L,
    add_segments (S (S (S fuel))) r pat i segments s = (Ok tt, s')
    /\ next s' = (next s + length segments)%nat
    /\ (forall j seg, segments !! j = Some seg ->
          objects s' (next s + j)%nat = segment_image pat r (i + j) seg)
    /\ (forall x, x <> r -> (x < next s \/ next s' <= x)%nat ->
          objects s' x = objects s x)
    /\ objects s' r = with_sub_images L (objects s r)
    /\ L ≡ₚ sub_images (objects s r) ++ seq (next s) (length segments)
    /\ (sorted_by_offset (objects s) (sub_images (objects s r)) ->
        sorted_by_offset (objects s') L).
Proof.
  revert i s. induction segments as [|seg rest IH]; intros i s Hr Hsize Hkids.
  { exists s, (sub_images (objects s r)). simpl.
    rewrite with_sub_images_same, app_nil_r.
    repeat split; try done; lia. }
  destruct (len_of_leaves fuel (objects s) r Hsize) as [n Hn].
  { eapply Forall_impl; [exact Hkids|]. by intros c (_ & _ & Hc). }
  set (o := segment_image pat r i seg).
  set (h1 := <[next s := o]> (objects s)).
  set (h2 := add_image r (next s) h1).
  assert (next s <> r) as Hne by lia.
  assert (h1 r = objects s r) as Hh1r.
  { unfold h1. by rewrite fn_lookup_insert_ne. }
  destruct (add_image_store r (next s) h1 Hne) as (Himg & Hself & Hother).
  fold h2 in Himg, Hself, Hother.
  assert (h2 (next s) = o) as Hnew.
  { rewrite Himg. unfold h1. by rewrite fn_lookup_insert. }
  destruct (add_image_sub_images r (next s) h1)
    as (before & after & Hold & Hsub & _).
  fold h2 in Hsub. rewrite Hh1r in Hold.
  assert (forall c, c ∈ sub_images (objects s r) -> h2 c = objects s c)
    as Hkept.
  { intros c Hc. rewrite Forall_forall in Hkids.
    destruct (Hkids c Hc) as (Hcr & Hlt & _).
    rewrite Hother by (done || lia). unfold h1.
    rewrite fn_lookup_insert_ne by lia. done. }
  destruct (IH (S i) {| objects := h2; next := S (next s) |})
    as (s' & L & Hrun & Hnext & Hsegs & Hrest & Hnode & Hperm & Hsorted).
  { simpl. lia. }
  { simpl. rewrite Hself. simpl. by rewrite Hh1r. }
  { simpl. rewrite Hsub. apply Forall_forall. intros c Hc.
    apply elem_of_app in Hc as [Hc|Hc];
      [|apply elem_of_cons in Hc as [->|Hc]].
    2: { split; [done|]. split; [lia|]. unfold leaf. rewrite Hnew. simpl.
         split; [done|apply blen_nonneg]. }
    all: assert (c ∈ sub_images (objects s r)) as Hin
           by (rewrite Hold; apply elem_of_app; auto).
    all: rewrite Forall_forall in Hkids.
    all: destruct (Hkids c Hin) as (Hcr & Hlt & Hleaf).
    all: split; [done|]; split; [lia|].
    all: unfold leaf; by rewrite (Hkept c Hin). }
  simpl in Hrun, Hnext, Hsegs, Hrest, Hnode, Hperm, Hsorted.
  exists s', L. repeat split.
  - cbn [add_segments]. unfold BinaryImage_init. rewrite Hn. simpl.
    exact Hrun.
  - simpl. lia.
  - intros [|j] seg' Hj; simpl in Hj.
    + injection Hj as <-. rewrite !Nat.add_0_r.
      rewrite Hrest by (lia || (left; lia)). exact Hnew.
    + replace (next s + S j)%nat with (S (next s + j))%nat by lia.
      rewrite (Hsegs j seg' Hj). f_equal. lia.
  - intros x Hx Hwhere.
    rewrite Hrest by (done || lia).
    rewrite Hother by (done || lia). unfold h1.
    rewrite fn_lookup_insert_ne by lia. done.
  - rewrite Hnode, Hself. simpl. by rewrite Hh1r.
  - rewrite Hperm, Hsub, Hold. simpl.
    rewrite <- !app_assoc. apply Permutation_app_head. simpl.
    by rewrite Permutation_middle.
  - intros Hsort. apply Hsorted. unfold h2.
    apply add_image_sorted. rewrite Hh1r.
    unfold sorted_by_offset, offsets_of in *.
    erewrite list_fmap_ext; [exact Hsort|].
    intros k c Hc. simpl. unfold h1.
    rewrite fn_lookup_insert_ne; [done|].
    apply list_elem_of_lookup_2 in Hc. rewrite Forall_forall in Hkids.
    destruct (Hkids c Hc) as (_ & Hlt & _). lia.
Qed.

Lemma sorted_by_offset_shift (h h' : heap) (l : list ref) (m : Z) :
  (forall c, c ∈ l -> offset (h' c) = offset (h c) - m) ->
  sorted_by_offset h l -> sorted_by_offset h' l.
Proof.
  intros Hshift Hsorted. unfold sorted_by_offset, offsets_of in *.
  assert ((fun image => offset (h' image)) <$> l
          = (fun o => o - m) <$> ((fun image => offset (h image)) <$> l))
    as ->.
  { rewrite <- list_fmap_compose. apply list_fmap_ext.
    intros i c Hc. simpl. apply list_elem_of_lookup_2 in Hc.
    by rewrite (Hshift c Hc). }
  eapply StronglySorted_fmap; [|exact Hsorted].
  intros x y Hxy. simpl. lia.
Qed.

(** The offsets of the images made of the segments are the addresses. *)
Lemma offsets_of_segments (h : heap) (segments : list Segment) (a : nat) :
  (forall j seg, segments !! j = Some seg ->
     offset (h (a + j)%nat) = address seg) ->
  offsets_of h (seq a (length segments)) = address <$> segments.
Proof.
  revert a. induction segments as [|seg rest IH]; intros a Hoff; [done|].
  simpl. f_equal.
  - rewrite <- (Hoff 0%nat seg eq_refl). f_equal. f_equal. lia.
  - apply IH. intros j seg' Hj.
    rewrite <- (Hoff (S j) seg' Hj). f_equal. f_equal. lia.
Qed.

Lemma min_list_Permutation (l k : list Z) (m : Z) :
  l ≡ₚ k -> min_list l = Ok m -> min_list k = Ok m.
Proof.
  intros Hperm. rewrite !min_list_Ok. intros [Hin Hall].
  split; by rewrite <- Hperm.
Qed.

Section LoadFacts.

Variable basename : string -> string.

(** The store [load_binary_image] leaves, for a size that is not negative
    and at least one segment: the image is the new object [next s], its
    offset is the given one plus the least address [m], its children are the
    objects after it, one for each segment, in order of offset and each
    moved down by [m]. *)
Lemma load_binary_image_store (fuel : nat) (s : store) (path : string)
    (segments : list Segment) (nm : option string) (size off : Z)
    (descr : option string) (pat : option BinaryPattern) :
  segments <> [] -> 0 <= size ->
  exists m L h',
    load_binary_image basename (S (S (S (S fuel)))) s path segments nm size
      off descr pat
    = (Ok (next s),
       {| objects := h'; next := (S (next s) + length segments)%nat |})
    /\ min_list (address <$> segments) = Ok m
    /\ h' (next s)
       = {| name := or_else nm (basename path);
            description :=
              Some (or_else descr
                      ("The image loaded from: " +:+ path +:+ " ."));
            offset := off + m; _size := size; binary := None;
            pattern := pat; parent := None; sub_images := L |}
    /\ L ≡ₚ seq (S (next s)) (length segments)
    /\ sorted_by_offset h' L
    /\ (forall j seg, segments !! j = Some seg ->
          h' (S (next s) + j)%nat
          = with_offset (address seg - m) (segment_image pat (next s) j seg))
    /\ (forall x, (x < next s \/ S (next s) + length segments <= x)%nat ->
          h' x = objects s x).
Proof.
  intros Hne Hsize.
  set (r := next s).
  set (o := {| name := or_else nm (basename path);
               description :=
                 Some (or_else descr
                         ("The image loaded from: " +:+ path +:+ " ."));
               offset := off; _size := size; binary := None;
               pattern := pat; parent := None; sub_images := [] |}).
  set (s1 := {| objects := <[r := o]> (objects s); next := S r |}).
  assert (objects s1 r = o) as Hroot.
  { simpl. by rewrite fn_lookup_insert. }
  destruct (add_segments_spec fuel r pat segments 0 s1)
    as (s2 & L & Hrun & Hnext & Hsegs & Hrest & Hnode & Hperm & Hsorted).
  { simpl. lia. }
  { by rewrite Hroot. }
  { rewrite Hroot. simpl. constructor. }
  rewrite Hroot in Hnode, Hperm, Hsorted. simpl in Hperm, Hnext.
  assert (forall j seg, segments !! j = Some seg ->
            objects s2 (S r + j)%nat = segment_image pat r j seg) as Hsegs'
    by exact Hsegs.
  clear Hsegs. rename Hsegs' into Hsegs.
  assert (sub_images (objects s2 r) = L) as Hkids by (by rewrite Hnode).
  assert (forall c, c ∈ L -> (r < c < S r + length segments)%nat) as Hrange.
  { intros c Hc. rewrite Hperm in Hc. apply elem_of_seq in Hc. lia. }
  destruct (update_offsets_store (objects s2) r)
    as (m & h' & Hupd & Hm & Hchild & Hself & Hother).
  { rewrite Hkids. intros ->. apply Permutation_nil_l in Hperm.
    destruct segments; done. }
  { rewrite Hkids, Hperm. apply NoDup_seq. }
  { rewrite Hkids. intros Hin. apply Hrange in Hin. lia. }
  rewrite Hkids in Hm, Hchild, Hother.
  exists m, L, h'. repeat split.
  - unfold load_binary_image. fold r. cbn [BinaryImage_init alloc].
    fold o. fold r. fold s1.
    rewrite bool_decide_eq_false_2 by done.
    rewrite Hrun, Hupd. by rewrite Hnext.
  - eapply min_list_Permutation; [|exact Hm].
    rewrite <- (offsets_of_segments (objects s2) segments (S r)).
    + unfold offsets_of. by rewrite Hperm.
    + intros j seg Hj. by rewrite (Hsegs j seg Hj).
  - fold r. rewrite Hself, Hnode. done.
  - exact Hperm.
  - eapply (sorted_by_offset_shift (objects s2)).
    + intros c Hc. by rewrite (Hchild c Hc).
    + apply Hsorted. constructor.
  - intros j seg Hj. fold r.
    assert ((S r + j)%nat ∈ L) as Hin.
    { rewrite Hperm. apply elem_of_seq.
      apply lookup_lt_Some in Hj. lia. }
    by rewrite (Hchild _ Hin), (Hsegs j seg Hj).
  - intros x Hx. fold r in Hx.
    rewrite Hother.
    + rewrite Hrest by (rewrite ?Hnext; simpl; lia).
      simpl. rewrite fn_lookup_insert_ne by lia. done.
    + lia.
    + intros Hin. apply Hrange in Hin. lia.
Qed.

(** The same, as the shape [loaded]. *)
Lemma load_binary_image_loaded (fuel : nat) (s : store) (path : string)
    (segments : list Segment) (nm : option string) (size off : Z)
    (descr : option string) (pat : option BinaryPattern) :
  segments <> [] -> 0 <= size ->
  exists m h',
    load_binary_image basename (S (S (S (S fuel)))) s path segments nm size
      off descr pat
    = (Ok (next s),
       {| objects := h'; next := (S (next s) + length segments)%nat |})
    /\ loaded h' (next s) segments pat size m
    /\ offset (h' (next s)) = off + m.
Proof.
  intros Hne Hsize.
  destruct (load_binary_image_store fuel s path segments nm size off descr
              pat Hne Hsize)
    as (m & L & h' & Hrun & Hm & Hroot & Hperm & _ & Hkids & _).
  exists m, h'. split; [exact Hrun|].
  unfold loaded. rewrite Hroot. simpl. done.
Qed.

End LoadFacts.

(** ** Loaded images *)

Section Loaded.

Variables (h : heap) (r : ref) (segments : list Segment).
Variables (pat : option BinaryPattern) (size m : Z).
Hypothesis tree : loaded h r segments pat size m.

Lemma loaded_child (c : ref) :
  c ∈ sub_images (h r) <->
  exists j seg, c = (S r + j)%nat /\ segments !! j = Some seg.
Proof.
  destruct tree as (_ & _ & _ & _ & _ & _ & Hperm & _).
  rewrite Hperm, elem_of_seq. split.
  - intros Hc. exists (c - S r)%nat.
    destruct (lookup_lt_is_Some_2 segments (c - S r)%nat) as [seg Hseg];
      [lia|].
    exists seg. split; [lia|done].
  - intros (j & seg & -> & Hseg). apply lookup_lt_Some in Hseg. lia.
Qed.

Lemma loaded_child_offset (j : nat) (seg : Segment) :
  segments !! j = Some seg ->
  offset (h (S r + j)%nat) = address seg - m /\ 0 <= address seg - m.
Proof.
  intros Hseg. destruct tree as (Hm & _ & _ & _ & _ & _ & _ & Hkids).
  rewrite (Hkids j seg Hseg). split; [done|].
  apply min_list_Ok in Hm as [_ Hall]. rewrite Forall_forall in Hall.
  assert (m <= address seg); [|lia].
  apply Hall, list_elem_of_fmap. exists seg. split; [done|].
  by eapply list_elem_of_lookup_2.
Qed.

Lemma loaded_child_len (fuel : nat) (j : nat) (seg : Segment) :
  segments !! j = Some seg ->
  len (S fuel) h (S r + j)%nat = Ok (blen (data seg)).
Proof.
  intros Hseg. destruct tree as (_ & _ & _ & _ & _ & _ & _ & Hkids).
  rewrite len_leaf.
  - rewrite (Hkids j seg Hseg). simpl.
    destruct (Z.eqb_spec (blen (data seg)) 0) as [Hz|Hnz]; [|done].
    unfold binary_len. simpl. case_bool_decide; by rewrite ?Hz.
  - unfold leaf. rewrite (Hkids j seg Hseg). simpl.
    split; [done|apply blen_nonneg].
Qed.

(** The length of the loaded image: the declared size, or else the end of
    the segment that ends last. *)
Lemma loaded_len (fuel : nat) :
  exists n,
    len (S (S fuel)) h r = Ok n
    /\ 0 <= n
    /\ (size <> 0 -> n = size)
    /\ (size = 0 ->
        forall j seg, segments !! j = Some seg ->
          address seg - m + blen (data seg) <= n).
Proof.
  destruct tree as (_ & _ & _ & _ & Hsize & Hpos & _ & _).
  destruct (len_of_leaves fuel h r) as [n Hn].
  { by rewrite Hsize. }
  { apply Forall_forall. intros c Hc.
    apply loaded_child in Hc as (j & seg & -> & Hseg).
    destruct tree as (_ & _ & _ & _ & _ & _ & _ & Hkids).
    unfold leaf. rewrite (Hkids j seg Hseg). simpl.
    split; [done|apply blen_nonneg]. }
  exists n. split; [done|]. split; [by eapply len_nonneg|]. split.
  - intros Hnz. rewrite len_declared in Hn by (by rewrite Hsize).
    rewrite Hsize in Hn. apply len_result_Ok in Hn as [-> _]. done.
  - intros Hz j seg Hseg. rewrite len_eq, Hsize, Hz in Hn.
    change (negb (0 =? 0)) with false in Hn. cbv iota in Hn.
    apply bind_Ok in Hn as (n' & Hfold & Hres).
    apply len_result_Ok in Hres as [-> _].
    apply for_fold_max in Hfold as (_ & Hall & _).
    rewrite Forall_forall in Hall.
    destruct (Hall (S r + j)%nat) as (k & Hk & Hend).
    { apply loaded_child. by exists j, seg. }
    rewrite (loaded_child_len fuel j seg Hseg) in Hk. injection Hk as <-.
    destruct (loaded_child_offset j seg Hseg) as [Hoff _].
    rewrite Hoff in Hend. lia.
Qed.

End Loaded.

Lemma ranges_intersect_shift (o1 l1 o2 l2 m : Z) :
  ranges_intersect (o1 - m) l1 (o2 - m) l2 <-> ranges_intersect o1 l1 o2 l2.
Proof.
  unfold ranges_intersect. split; intros (x & H1 & H2).
  - exists (x + m). lia.
  - exists (x - m). lia.
Qed.

Section LoadedExport.

Variable value_to_bytes : string -> outcome bytes.
Variable random_bytes : Z -> bytes.
Hypothesis random_bytes_length :
  forall n, 0 <= n -> blen (random_bytes n) = n.

Variables (h : heap) (r : ref) (segments : list Segment).
Variables (pat : option BinaryPattern) (size m : Z).
Hypothesis tree : loaded h r segments pat size m.
Hypothesis fills :
  forall p n, pat = Some p -> pattern_fills value_to_bytes p n.
Hypothesis fits :
  size = 0
  \/ Forall (fun seg => address seg + blen (data seg) - m <= size) segments.

(** The image of a segment exports the segment's data. *)
Lemma loaded_child_export (fuel : nat) (j : nat) (seg : Segment) :
  segments !! j = Some seg ->
  export value_to_bytes random_bytes (S (S fuel)) h (S r + j)%nat
  = Ok (data seg).
Proof.
  intros Hj. destruct tree as (_ & _ & _ & _ & _ & _ & _ & Hkids).
  rewrite export_S, (loaded_child_len _ _ _ _ _ _ tree fuel j seg Hj).
  cbn [mbind outcome_bind].
  destruct (background_Ok value_to_bytes random_bytes random_bytes_length
              (h (S r + j)%nat) (blen (data seg)))
    as (bg & -> & Hbg).
  { apply blen_nonneg. }
  { unfold background_fills. rewrite (Hkids j seg Hj). simpl.
    destruct pat as [p|] eqn:Hp; [|done]. by apply fills. }
  cbn [mbind outcome_bind]. rewrite (Hkids j seg Hj). simpl.
  f_equal. unfold with_content. simpl. case_bool_decide as Hd.
  - rewrite Hd in *. destruct bg; [done|].
    unfold blen in Hbg. simpl in Hbg. lia.
  - apply setslice_whole. lia.
Qed.

(** The loaded tree holds its children within its length. *)
Lemma loaded_placed : placed value_to_bytes 2 h r.
Proof.
  pose proof tree as (_ & _ & Hbin & Hpat & Hsize & _ & _ & Hkids).
  destruct (loaded_len _ _ _ _ _ _ tree 0) as (n & Hn & Hpos & Hdecl & Hder).
  split.
  - exists n. split; [exact Hn|]. split.
    { unfold background_fills. rewrite Hpat.
      destruct pat as [p|] eqn:Hp; [|done]. by apply fills. }
    split.
    { unfold binary_len. by rewrite Hbin. }
    apply Forall_forall. intros c Hc.
    apply (loaded_child _ _ _ _ _ _ tree) in Hc as (j & seg & -> & Hj).
    exists (blen (data seg)).
    split; [apply (loaded_child_len _ _ _ _ _ _ tree 0 j seg Hj)|].
    destruct (loaded_child_offset _ _ _ _ _ _ tree j seg Hj) as [-> Hoff].
    split; [done|].
    destruct (decide (size = 0)) as [Hz|Hnz]; [exact (Hder Hz j seg Hj)|].
    rewrite (Hdecl Hnz). destruct fits as [?|Hall]; [done|].
    rewrite Forall_forall in Hall.
    pose proof (Hall seg (list_elem_of_lookup_2 _ _ _ Hj)). lia.
  - apply Forall_forall. intros c Hc.
    apply (loaded_child _ _ _ _ _ _ tree) in Hc as (j & seg & -> & Hj).
    split; [|by rewrite (Hkids j seg Hj)].
    exists (blen (data seg)).
    split; [apply (loaded_child_len _ _ _ _ _ _ tree 0 j seg Hj)|].
    rewrite (Hkids j seg Hj). split.
    { unfold background_fills. simpl.
      destruct pat as [p|] eqn:Hp; [|done]. by apply fills. }
    split; [|by simpl].
    unfold binary_len. simpl. case_bool_decide; [apply blen_nonneg|lia].
Qed.

End LoadedExport.

(** ** BinaryImage.load_binary_image *)

(** X20.  What [load_binary_image] raises after decoding: [SPSDKError] for a
    file without segments, and [ValueError] for a negative size, which is
    met when the first segment's image is constructed and the truth value of
    its parent is taken.  No object that was in use is touched. *)
Theorem load_binary_image_raises (basename : string -> string) (fuel : nat)
    (s : store) (path : string) (segments : list Segment)
    (nm : option string) (size off : Z) (descr : option string)
    (pat : option BinaryPattern) :
  segments = [] \/ size < 0 ->
  exists s',
    load_binary_image basename (S (S (S fuel))) s path segments nm size off
      descr pat
    = (Raise (if bool_decide (segments = []) then SPSDKError else ValueError),
       s')
    /\ forall x, (x < next s)%nat -> objects s' x = objects s x.
Proof.
  intros Hwhy. unfold load_binary_image. cbn [BinaryImage_init alloc].
  case_bool_decide as Hsegs.
  - eexists. split; [done|]. intros x Hx. simpl.
    rewrite fn_lookup_insert_ne by lia. done.
  - destruct Hwhy as [?|Hneg]; [done|].
    destruct segments as [|seg rest]; [done|].
    cbn [add_segments]. unfold BinaryImage_init.
    rewrite len_declared.
    2: { simpl. rewrite fn_lookup_insert. simpl. lia. }
    cbn [objects]. rewrite fn_lookup_insert. cbn [_size].
    unfold len_result. destruct (Z.ltb_spec size 0); [|lia]. simpl.
    eexists. split; [done|]. intros x Hx. simpl.
    rewrite fn_lookup_insert_ne by lia. done.
Qed.

Lemma load_binary_image_raises_witness :
  (SampleFile.two_segments = [] \/ -1 < 0)
  /\ exists s',
       load_binary_image SampleFile.basename 3 SampleFile.blank "a.bin"
         SampleFile.two_segments None (-1) 0 None None
       = (Raise ValueError, s')
       /\ forall x, (x < next SampleFile.blank)%nat ->
            objects s' x = objects SampleFile.blank x.
Proof.
  split; [right; lia|].
  apply (load_binary_image_raises SampleFile.basename 0 SampleFile.blank
           "a.bin" SampleFile.two_segments None (-1) 0 None None).
  right. lia.
Defined.









(** ** The exceptions of validate *)

(** [len()] raises [ValueError] only for a negative declared size. *)
Lemma len_justified (fuel : nat) (h : heap) (r : ref) (e : exn) :
  len fuel h r = Raise e -> justified h e.
Proof.
  revert r. induction fuel as [|fuel IH]; intros r.
  - intros [= <-]. done.
  - rewrite len_eq. intros H.
    apply bind_Raise in H as [H|(m & Hm & Hres)].
    + destruct (negb (_size (h r) =? 0)); [done|].
      apply for_fold_Raise in H as (s & c & _ & Hc).
      apply bind_Raise in Hc as [Hc|(k & _ & Hc)]; [by eapply IH|done].
    + unfold len_result in Hres. destruct (Z.ltb_spec m 0); [|done].
      injection Hres as <-. simpl.
      destruct (Z.eqb_spec (_size (h r)) 0) as [Hz|Hnz]; simpl in Hm.
      * apply for_fold_max in Hm as (Hle & _).
        pose proof (binary_len_nonneg (h r)). lia.
      * injection Hm as <-. by exists r.
Qed.

Lemma image_name_justified (fuel : nat) (h : heap) (r : ref) (e : exn) :
  image_name fuel h r = Raise e -> justified h e.
Proof.
  revert r. induction fuel as [|fuel IH]; intros r; simpl.
  - intros [= <-]. done.
  - destruct (parent (h r)) as [p|]; [|done].
    intros H. apply bind_Raise in H as [H|(n & _ & Hn)];
      [by eapply len_justified|].
    destruct (negb (n =? 0)); [|done].
    apply bind_Raise in Hn as [Hp|(s & _ & Hp)]; [by eapply IH|done].
Qed.

Lemma absolute_address_justified (fuel : nat) (h : heap) (r : ref)
    (e : exn) :
  absolute_address fuel h r = Raise e -> justified h e.
Proof.
  revert r. induction fuel as [|fuel IH]; intros r; simpl.
  - intros [= <-]. done.
  - destruct (parent (h r)) as [p|]; [|done].
    intros H. apply bind_Raise in H as [H|(n & _ & Hn)];
      [by eapply len_justified|].
    destruct (negb (n =? 0)); [|done].
    apply bind_Raise in Hn as [Hp|(s & _ & Hp)]; [by eapply IH|done].
Qed.

Lemma info_justified (fuel : nat) (h : heap) (r : ref) (e : exn) :
  info fuel h r = Raise e -> justified h e.
Proof.
  destruct fuel as [|fuel]; simpl.
  - intros [= <-]. done.
  - intros H.
    apply bind_Raise in H as [H|(n & _ & H1)]; [by eapply len_justified|].
    apply bind_Raise in H1 as [H1|(s & _ & H2)];
      [by eapply image_name_justified|].
    apply bind_Raise in H2 as [H2|(a & _ & H3)];
      [by eapply absolute_address_justified|].
    apply bind_Raise in H3 as [H3|(a' & _ & H4)];
      [by eapply absolute_address_justified|done].
Qed.

(** A store whose images all have a length within the index range, as a
    run of depth [d] shows. *)
Lemma index_sized_intro (h : heap) (d : nat) :
  (forall x, exists n, len d h x = Ok n /\ n <= maxsize) -> index_sized h.
Proof.
  intros Hall f x n Hn. destruct (Hall x) as (n' & Hd & Hle).
  apply (len_mono f (f + d)) in Hn; [|lia].
  apply (len_mono d (f + d)) in Hd; [|lia].
  rewrite Hn in Hd. by injection Hd as ->.
Qed.



Example validate_empty_sibling :
  validate 4 Sample.empty_sibling_heap 0%nat
  = Raise (SPSDKOverlapError (Overlap 1%nat 2%nat))
  /\ len 3 Sample.empty_sibling_heap 2%nat = Ok 0
  /\ ~ ranges_intersect 0 8 4 0.
Proof.
  split; [reflexivity|]. split; [reflexivity|].
  intros (x & Hx1 & Hx2). lia.
Qed.

(** ** The exceptions of export *)

(** X26.  [export] raises nothing of its own: on a store whose lengths fit
    a machine index (and memory permitting), when it raises, the exception
    is the [RecursionError] of a tree too deep, the [ValueError] of a
    negative declared size, or comes out of a literal pattern: what
    [value_to_bytes] raised on it, or [ZeroDivisionError] for an encoding
    without bytes. *)
Theorem export_raises (value_to_bytes : string -> outcome bytes)
    (random_bytes : Z -> bytes) (fuel : nat) (h : heap) (self : ref)
    (e : exn) :
  index_sized h ->
  export value_to_bytes random_bytes fuel h self = Raise e ->
  e = RecursionError
  \/ (e = ValueError /\ exists x, _size (h x) < 0)
  \/ exists x p,
       pattern (h x) = Some p /\ (_pattern p ∉ SPECIAL_PATTERNS)
       /\ (value_to_bytes (_pattern p) = Raise e
           \/ (value_to_bytes (_pattern p) = Ok [] /\ e = ZeroDivisionError)).
Proof.
  intros _.
  assert (forall f r e', len f h r = Raise e' ->
            e' = RecursionError
            \/ (e' = ValueError /\ exists x, _size (h x) < 0)) as Hlen.
  { intros f r e' Hraise. pose proof (len_justified f h r e' Hraise) as Hwhy.
    destruct (len_Raise f h r e' Hraise) as [->| ->]; [right|left]; done. }
  revert self. induction fuel as [|fuel IH]; intros self.
  { intros [= <-]. by left. }
  rewrite export_S. intros Hrun.
  apply bind_Raise in Hrun as [Hraise|(n & Hn & Hrun)].
  { destruct (Hlen _ _ _ Hraise) as [?|?]; auto. }
  pose proof (len_nonneg _ _ _ _ Hn) as Hpos.
  assert (zero_bytes n <> Raise e) as Hzero.
  { unfold zero_bytes. by destruct (Z.ltb_spec n 0); [lia|]. }
  apply bind_Raise in Hrun as [Hraise|(bg & _ & Hrun)].
  { destruct (pattern (h self)) as [p|] eqn:Hp; [|done].
    right. right. exists self, p. split; [done|].
    unfold get_block in Hraise.
    destruct (String.eqb_spec (_pattern p) "zeros") as [?|Hz]; [done|].
    destruct (String.eqb_spec (_pattern p) "ones") as [?|Ho]; [done|].
    destruct (String.eqb_spec (_pattern p) "rand") as [?|Hr].
    { by destruct (Z.ltb_spec n 0); [lia|]. }
    destruct (String.eqb_spec (_pattern p) "inc") as [?|Hi]; [done|].
    split.
    { unfold SPECIAL_PATTERNS. rewrite !elem_of_cons, elem_of_nil. tauto. }
    apply bind_Raise in Hraise as [Hraise|(lit & Hlit & Hraise)]; [by left|].
    right. destruct (Z.eqb_spec (blen lit) 0) as [Hempty|?]; [|done].
    injection Hraise as <-. split; [|done].
    destruct lit; [done|]. unfold blen in Hempty. simpl in Hempty. lia. }
  apply for_fold_Raise in Hrun as (ret & c & _ & Hbody).
  apply bind_Raise in Hbody as [Hraise|(data & _ & Hbody)]; [by eapply IH|].
  apply bind_Raise in Hbody as [Hraise|(k & _ & Hbody)].
  { destruct (Hlen _ _ _ Hraise) as [?|?]; auto. }
  apply bind_Raise in Hbody as [Hraise|(k' & _ & Hbody)]; [|done].
  destruct (Hlen _ _ _ Hraise) as [?|?]; auto.
Qed.

(** On an image whose literal pattern the encoder rejects, [export] raises
    the encoder's exception. *)
Lemma export_raises_witness :
  index_sized Sample.bad_pattern_heap
  /\ export Sample.value_to_bytes Sample.random_bytes 2
       Sample.bad_pattern_heap 0%nat = Raise SPSDKError
  /\ exists x p,
       pattern (Sample.bad_pattern_heap x) = Some p
       /\ (_pattern p ∉ SPECIAL_PATTERNS)
       /\ Sample.value_to_bytes (_pattern p) = Raise SPSDKError.
Proof.
  assert (index_sized Sample.bad_pattern_heap) as Hsized.
  { apply (index_sized_intro _ 1). intros [|x]; eexists.
    all: split; [reflexivity|vm_compute; discriminate]. }
  split; [exact Hsized|]. split; [reflexivity|].
  destruct (export_raises Sample.value_to_bytes Sample.random_bytes 2
              Sample.bad_pattern_heap 0%nat SPSDKError Hsized eq_refl)
    as [Hrec|[[Hval _]|(x & p & Hp & Hspecial & [Hraise|[_ Hzero]])]];
    try discriminate.
  by exists x, p.
Defined.
